(** * tgfmt: Praat TextGrid and HTK MLF annotation files

    A shallow embedding of the Python package [tgfmt] (modules [interval],
    [point], [intervaltier], [pointtier], [textgrid_data], [mlf], [utils])
    and the verification of its specification against it.

    Conventions of the embedding.
    - A Python [float] time is a decimal number, compared by its rational
      value: the comparisons [<], [>], [>=], [==] are those of the
      rationals (no NaN, no infinities, no rounding of arithmetic).
    - The text of a file is a [string]; [readline] splits it as the
      reader of the source does, and [print] appends a line to the text
      written.
    - A raised exception is a value of [exn] carrying the arguments the
      source passes to the exception's constructor; [logging.warning] is
      an entry appended to a log.  A computation is a [py A]: the log it
      wrote, and the exception it raised or the value it returned.
    - Objects are records; a method that mutates [self] returns the new
      [self]. *)

From Stdlib Require Import String Ascii Bool QArith Qround Lqa ZArith Lia.
From Stdlib Require Import DecimalString DecimalN DecimalPos.
From Stdlib Require Import List Sorted Permutation.
Import ListNotations.

Set Implicit Arguments.

(* ================================================================== *)
(** * Times *)
(* ================================================================== *)

(** A [float] is modelled by a decimal number [mant * 10^-expo]: every
    binary floating-point number is one; a decimal prints as a literal
    that reads back to the same number.  The comparisons are those of the
    values (there is no NaN and no infinity). *)
Record float : Type := mkfloat { mant : Z; expo : nat }.

Fixpoint pow10 (n : nat) : positive :=
  match n with
  | O => 1
  | S k => 10 * pow10 k
  end.

Definition Qof (f : float) : Q := Qmake (mant f) (pow10 (expo f)).
Coercion Qof : float >-> Q.

Definition float_of_Z (z : Z) : float := mkfloat z 0.

Definition ltb (x y : Q) : bool := negb (Qle_bool y x).
Definition gtb (x y : Q) : bool := ltb y x.
Definition geb (x y : Q) : bool := Qle_bool y x.
Definition leb (x y : Q) : bool := Qle_bool x y.
Definition eqb (x y : Q) : bool := Qeq_bool x y.

(** Truth value of a [float]-or-[None] attribute, as in [if self.maxTime]:
    [None] and [0.0] are false. *)
Definition truthy (o : option float) : bool :=
  match o with
  | Some x => negb (eqb x 0)
  | None => false
  end.

(** [round(x, ndigits)] of the builtins for [0 <= ndigits]: to the nearest
    multiple of [10^-ndigits], ties to the even one. *)
Definition round_half_even (q : Q) : Z :=
  let f := Qfloor q in
  match Qcompare (q - inject_Z f) (1 # 2) with
  | Lt => f
  | Gt => (f + 1)%Z
  | Eq => if Z.even f then f else (f + 1)%Z
  end.

Definition round (x : Q) (ndigits : nat) : float :=
  mkfloat (round_half_even (x * inject_Z (Zpos (pow10 ndigits)))) ndigits.

(** [int(x)] of a float: truncation toward zero. *)
Definition int (x : Q) : Z := Z.quot (Qnum x) (Zpos (Qden x)).

(* ================================================================== *)
(** * Objects: [interval.Interval], [point.Point] *)
(* ================================================================== *)

Module Interval.
Record t : Type := mk
  { minTime : float;
    maxTime : float;
    mark : string;
    strict : bool }.
End Interval.

(** A [Point] has no [strict] attribute of its own; [TextGrid.append]
    assigns one ([None]: the attribute does not exist). *)
Module Point.
Record t : Type := mk
  { time : float;
    mark : string;
    strict : option bool }.
End Point.

(** The right operand of a comparison: the methods dispatch on
    [hasattr(other, 'minTime')], [hasattr(other, 'time')], else a number. *)
Inductive operand : Type :=
| OInterval (i : Interval.t)
| OPoint (p : Point.t)
| OFloat (x : float).

(* ================================================================== *)
(** * Effects *)
(* ================================================================== *)

(** An argument of an exception's constructor. *)
Inductive arg : Type :=
| AFloat (x : float)
| AStr (s : string)
| AInterval (i : Interval.t)
| APoint (p : Point.t).

Inductive exn : Type :=
| ValueError (args : list arg)
| TextGridError (msg : string)
| EOFError (msg : string)
| AttributeError
| IndexError
| TypeError
| ZeroDivisionError.

(** [logging.warning("Overlap for interval %s: (%f, %f)", mark, minTime, maxTime)] *)
Inductive warning : Type :=
| Overlap_warning (mark : string) (minTime maxTime : float).

Definition py (A : Type) : Type := (list warning * (exn + A))%type.

Definition ret {A} (a : A) : py A := ([], inr a).
Definition raise {A} (e : exn) : py A := ([], inl e).
Definition logging_warning (w : warning) : py unit := ([w], inr tt).

Definition bind {A B} (m : py A) (k : A -> py B) : py B :=
  match m with
  | (w, inl e) => (w, inl e)
  | (w, inr a) => let (w', r) := k a in (w ++ w', r)
  end.

Declare Scope py_scope.
Delimit Scope py_scope with py.
Notation "x <- m ;; k" := (bind m (fun x => k))
  (at level 61, m at next level, right associativity) : py_scope.
Notation "' pat <- m ;; k" := (bind m (fun x => match x with pat => k end))
  (at level 61, pat pattern, m at next level, right associativity) : py_scope.
Notation "m ;; k" := (bind m (fun _ => k))
  (at level 61, right associativity) : py_scope.
Open Scope py_scope.

(** [if b: raise e] *)
Definition raise_if (b : bool) (e : exn) : py unit :=
  if b then raise e else ret tt.

(** The log and the outcome of a computation. *)
Definition log {A} (m : py A) : list warning := fst m.
Definition outcome {A} (m : py A) : exn + A := snd m.

(* ================================================================== *)
(** * [interval.py] *)
(* ================================================================== *)

(** [Interval.__init__] *)
Definition Interval_init (minTime maxTime : float) (mark : string) : py Interval.t :=
  if geb minTime maxTime
  then raise (ValueError [AFloat minTime; AFloat maxTime])
  else ret (Interval.mk minTime maxTime mark true).

(** [Interval.overlaps] *)
Definition Interval_overlaps (self other : Interval.t) : bool :=
  ltb (Interval.minTime other) (Interval.maxTime self)
  && ltb (Interval.minTime self) (Interval.maxTime other).

Definition overlap_warning (self : Interval.t) : warning :=
  Overlap_warning (Interval.mark self) (Interval.minTime self) (Interval.maxTime self).

(** [Interval.__lt__] *)
Definition Interval_lt (self : Interval.t) (other : operand) : py bool :=
  match other with
  | OInterval other =>
      if Interval.strict self && Interval_overlaps self other
      then raise (ValueError [AInterval self; AInterval other])
      else if Interval_overlaps self other
      then logging_warning (overlap_warning self) ;;
           ret (ltb (Interval.minTime self) (Interval.minTime other))
      else ret (ltb (Interval.minTime self) (Interval.minTime other))
  | OPoint other => ret (ltb (Interval.maxTime self) (Point.time other))
  | OFloat other => ret (ltb (Interval.maxTime self) other)
  end.

(** [Interval.__gt__] *)
Definition Interval_gt (self : Interval.t) (other : operand) : py bool :=
  match other with
  | OInterval other =>
      if Interval.strict self && Interval_overlaps self other
      then raise (ValueError [AInterval self; AInterval other])
      else if Interval_overlaps self other
      then logging_warning (overlap_warning self) ;;
           ret (ltb (Interval.minTime self) (Interval.minTime other))
      else ret (gtb (Interval.maxTime self) (Interval.maxTime other))
  | OPoint other => ret (gtb (Interval.minTime self) (Point.time other))
  | OFloat other => ret (gtb (Interval.minTime self) other)
  end.

(** [Interval.__eq__]; the branches that fall off the end return [None],
    which is false where the result is tested. *)
Definition Interval_eq (self : Interval.t) (other : operand) : bool :=
  match other with
  | OInterval other =>
      if eqb (Interval.minTime self) (Interval.minTime other)
      then if eqb (Interval.maxTime self) (Interval.maxTime other)
           then true else false
      else false
  | OPoint other =>
      ltb (Interval.minTime self) (Point.time other)
      && ltb (Point.time other) (Interval.maxTime self)
  | OFloat _ => false
  end.

(** [Interval.__contains__] *)
Definition Interval_contains (self : Interval.t) (other : operand) : bool :=
  match other with
  | OInterval other =>
      leb (Interval.minTime self) (Interval.minTime other)
      && leb (Interval.maxTime other) (Interval.maxTime self)
  | OPoint other =>
      leb (Interval.minTime self) (Point.time other)
      && leb (Point.time other) (Interval.maxTime self)
  | OFloat other =>
      leb (Interval.minTime self) other && leb other (Interval.maxTime self)
  end.

(** [Interval.bounds], [Interval.duration] *)
Definition Interval_bounds (self : Interval.t) : float * float :=
  (Interval.minTime self, Interval.maxTime self).

Definition Interval_duration (self : Interval.t) : Q :=
  Interval.maxTime self - Interval.minTime self.

(* ================================================================== *)
(** * [point.py] *)
(* ================================================================== *)

(** [Point.__init__] *)
Definition Point_init (time : float) (mark : string) : Point.t :=
  Point.mk time mark None.

(** [Point.__lt__] *)
Definition Point_lt (self : Point.t) (other : operand) : py bool :=
  match other with
  | OPoint other => ret (ltb (Point.time self) (Point.time other))
  | OInterval other => ret (ltb (Point.time self) (Interval.minTime other))
  | OFloat other => ret (ltb (Point.time self) other)
  end.

(** [Point.__gt__] *)
Definition Point_gt (self : Point.t) (other : operand) : py bool :=
  match other with
  | OPoint other => ret (gtb (Point.time self) (Point.time other))
  | OInterval other => ret (gtb (Point.time self) (Interval.maxTime other))
  | OFloat other => ret (gtb (Point.time self) other)
  end.

(** [Point.__eq__] *)
Definition Point_eq (self : Point.t) (other : operand) : bool :=
  match other with
  | OPoint other => eqb (Point.time self) (Point.time other)
  | OInterval other =>
      ltb (Interval.minTime other) (Point.time self)
      && ltb (Point.time self) (Interval.maxTime other)
  | OFloat other => eqb (Point.time self) other
  end.

(* ================================================================== *)
(** * [bisect.bisect_left] and [list.insert] of the standard library *)
(* ================================================================== *)

Section Bisect.
Variable A : Type.
(** [lt e] is [e < x] for the searched [x]: the [__lt__] of the list's
    element, with the searched value as right operand. *)
Variable lt : A -> py bool.

(** The loop
    [while lo < hi: mid = (lo + hi) // 2;
     if a[mid] < x: lo = mid + 1 else: hi = mid].
    [n] bounds the number of iterations; [hi - lo] suffices
    ([bisect_loop_unfold]). *)
Fixpoint bisect_loop (n : nat) (a : list A) (lo hi : nat) : py nat :=
  if (lo <? hi)%nat then
    match n with
    | O => ret lo
    | S n =>
        let mid := ((lo + hi) / 2)%nat in
        match nth_error a mid with
        | None => raise IndexError
        | Some e =>
            b <- lt e ;;
            if b then bisect_loop n a (mid + 1) hi
            else bisect_loop n a lo mid
        end
    end
  else ret lo.

Definition bisect_left (a : list A) : py nat :=
  bisect_loop (length a) a 0 (length a).

(** [a.insert(i, x)] for [0 <= i]. *)
Definition list_insert (i : nat) (x : A) (a : list A) : list A :=
  firstn i a ++ x :: skipn i a.
End Bisect.

(* ================================================================== *)
(** * [intervaltier.py] *)
(* ================================================================== *)

(** The [name] of a tier is [None] unless one is given. *)
Module IntervalTier.
Record t : Type := mk
  { name : option string;
    minTime : float;
    maxTime : option float;
    intervals : list Interval.t;
    strict : bool }.
End IntervalTier.

(** [IntervalTier.__init__] *)
Definition IntervalTier_init (name : option string) (minTime : float) (maxTime : option float)
  : IntervalTier.t :=
  IntervalTier.mk name minTime maxTime [] true.

Definition set_Interval_strict (b : bool) (i : Interval.t) : Interval.t :=
  Interval.mk (Interval.minTime i) (Interval.maxTime i) (Interval.mark i) b.

Definition set_intervals (self : IntervalTier.t) (l : list Interval.t) : IntervalTier.t :=
  IntervalTier.mk (IntervalTier.name self) (IntervalTier.minTime self)
    (IntervalTier.maxTime self) l (IntervalTier.strict self).

Definition set_IntervalTier_strict (b : bool) (self : IntervalTier.t) : IntervalTier.t :=
  IntervalTier.mk (IntervalTier.name self) (IntervalTier.minTime self)
    (IntervalTier.maxTime self) (IntervalTier.intervals self) b.

(** [IntervalTier.addInterval] *)
Definition IntervalTier_addInterval (self : IntervalTier.t) (interval : Interval.t)
  : py IntervalTier.t :=
  raise_if (ltb (Interval.minTime interval) (IntervalTier.minTime self))
           (ValueError [AFloat (IntervalTier.minTime self)]) ;;            (* too early *)
  match IntervalTier.maxTime self with
  | Some maxTime =>
      raise_if (truthy (Some maxTime) && gtb (Interval.maxTime interval) maxTime)
               (ValueError [AFloat maxTime])                              (* too late *)
  | None => ret tt
  end ;;
  i <- bisect_left (fun e => Interval_lt e (OInterval interval))
                   (IntervalTier.intervals self) ;;
  match nth_error (IntervalTier.intervals self) i with
  | Some e => raise_if (Interval_eq e (OInterval interval)) (ValueError [AInterval e])
  | None => ret tt                         (* i == len(self.intervals) *)
  end ;;
  ret (set_intervals self
         (list_insert i (set_Interval_strict (IntervalTier.strict self) interval)
                      (IntervalTier.intervals self))).

(** [IntervalTier.add] *)
Definition IntervalTier_add (self : IntervalTier.t) (minTime maxTime : float) (mark : string)
  : py IntervalTier.t :=
  interval <- Interval_init minTime maxTime mark ;;
  IntervalTier_addInterval self (set_Interval_strict (IntervalTier.strict self) interval).

(** [list.remove(x)]: the first element [e] with [e == x] goes. *)
Fixpoint list_remove {A} (eq : A -> bool) (a : list A) : option (list A) :=
  match a with
  | [] => None
  | e :: a' =>
      if eq e then Some a'
      else match list_remove eq a' with
           | Some r => Some (e :: r)
           | None => None
           end
  end.



(** [IntervalTier.indexContaining] for a numeric [time]; [None] is the
    method falling off its end. *)
Definition IntervalTier_indexContaining (self : IntervalTier.t) (time : float)
  : py (option nat) :=
  i <- bisect_left (fun e => Interval_lt e (OFloat time)) (IntervalTier.intervals self) ;;
  match nth_error (IntervalTier.intervals self) i with
  | Some e =>
      if leb (Interval.minTime e) time && leb time (Interval.maxTime e)
      then ret (Some i) else ret None
  | None => ret None
  end.

(** [IntervalTier._fillInTheGaps]: the body of the [for] loop, then the
    method. *)
Fixpoint fillInTheGaps_loop (null : string) (prev_t : float) (output : list Interval.t)
    (intervals : list Interval.t) : py (float * list Interval.t) :=
  match intervals with
  | [] => ret (prev_t, output)
  | interval :: rest =>
      output <- (if ltb prev_t (Interval.minTime interval)
                 then filler <- Interval_init prev_t (Interval.minTime interval) null ;;
                      ret (output ++ [filler])
                 else ret output) ;;
      fillInTheGaps_loop null (Interval.maxTime interval) (output ++ [interval]) rest
  end.

Definition IntervalTier_fillInTheGaps (self : IntervalTier.t) (null : string)
  : py (list Interval.t) :=
  '(prev_t, output) <- fillInTheGaps_loop null (IntervalTier.minTime self) []
                          (IntervalTier.intervals self) ;;
  match IntervalTier.maxTime self with
  | Some maxTime =>
      if ltb prev_t maxTime
      then filler <- Interval_init prev_t maxTime null ;;
           ret (output ++ [filler])
      else ret output
  | None => ret output
  end.

(* ================================================================== *)
(** * [pointtier.py] *)
(* ================================================================== *)

(** A [PointTier] has no [strict] attribute until [TextGrid.append]
    assigns one. *)
Module PointTier.
Record t : Type := mk
  { name : option string;
    minTime : float;
    maxTime : option float;
    points : list Point.t;
    strict : option bool }.
End PointTier.

(** [PointTier.__init__] *)
Definition PointTier_init (name : option string) (minTime : float) (maxTime : option float)
  : PointTier.t :=
  PointTier.mk name minTime maxTime [] None.

Definition set_points (self : PointTier.t) (l : list Point.t) : PointTier.t :=
  PointTier.mk (PointTier.name self) (PointTier.minTime self)
    (PointTier.maxTime self) l (PointTier.strict self).

Definition set_Point_strict (b : bool) (p : Point.t) : Point.t :=
  Point.mk (Point.time p) (Point.mark p) (Some b).

Definition set_PointTier_strict (b : bool) (self : PointTier.t) : PointTier.t :=
  PointTier.mk (PointTier.name self) (PointTier.minTime self)
    (PointTier.maxTime self) (PointTier.points self) (Some b).

(** [PointTier.addPoint] *)
Definition PointTier_addPoint (self : PointTier.t) (point : Point.t) : py PointTier.t :=
  early <- Point_lt point (OFloat (PointTier.minTime self)) ;;
  raise_if early (ValueError [AFloat (PointTier.minTime self)]) ;;        (* too early *)
  match PointTier.maxTime self with
  | Some maxTime =>
      if truthy (Some maxTime)
      then late <- Point_gt point (OFloat maxTime) ;;
           raise_if late (ValueError [AFloat maxTime])                    (* too late *)
      else ret tt
  | None => ret tt
  end ;;
  i <- bisect_left (fun e => Point_lt e (OPoint point)) (PointTier.points self) ;;
  match nth_error (PointTier.points self) i with
  | Some e => raise_if (eqb (Point.time e) (Point.time point)) (ValueError [APoint point])
  | None => ret tt                              (* not i < len(self.points) *)
  end ;;
  ret (set_points self (list_insert i point (PointTier.points self))).

(** [PointTier.add] *)
Definition PointTier_add (self : PointTier.t) (time : float) (mark : string) : py PointTier.t :=
  PointTier_addPoint self (Point_init time mark).

(* ================================================================== *)
(** * [textgrid_data.py]: the object *)
(* ================================================================== *)

(** The elements of [TextGrid.tiers]: the code tells them apart by
    [tier.__class__]. *)
Inductive tier : Type :=
| ITier (t : IntervalTier.t)
| PTier (t : PointTier.t).

Module TextGrid.
Record t : Type := mk
  { name : option string;
    minTime : float;
    maxTime : option float;
    tiers : list tier;
    strict : bool }.
End TextGrid.

(** [TextGrid.__init__] *)
Definition TextGrid_init (name : option string) (minTime : float) (maxTime : option float)
    (strict : bool) : TextGrid.t :=
  TextGrid.mk name minTime maxTime [] strict.

Definition tier_name (t : tier) : option string :=
  match t with ITier t => IntervalTier.name t | PTier t => PointTier.name t end.

Definition tier_minTime (t : tier) : float :=
  match t with ITier t => IntervalTier.minTime t | PTier t => PointTier.minTime t end.

Definition tier_maxTime (t : tier) : option float :=
  match t with ITier t => IntervalTier.maxTime t | PTier t => PointTier.maxTime t end.

(** [len(tier)] *)
Definition tier_len (t : tier) : nat :=
  match t with
  | ITier t => List.length (IntervalTier.intervals t)
  | PTier t => List.length (PointTier.points t)
  end.

(** [tier.strict = b; for i in tier: i.strict = b] *)
Definition tier_set_strict (b : bool) (t : tier) : tier :=
  match t with
  | ITier t =>
      ITier (IntervalTier.mk (IntervalTier.name t) (IntervalTier.minTime t)
               (IntervalTier.maxTime t)
               (map (set_Interval_strict b) (IntervalTier.intervals t)) b)
  | PTier t =>
      PTier (PointTier.mk (PointTier.name t) (PointTier.minTime t)
               (PointTier.maxTime t)
               (map (set_Point_strict b) (PointTier.points t)) (Some b))
  end.

Definition set_tiers (self : TextGrid.t) (l : list tier) : TextGrid.t :=
  TextGrid.mk (TextGrid.name self) (TextGrid.minTime self) (TextGrid.maxTime self)
    l (TextGrid.strict self).

(** [t.name == tierName] on names, each [None] or a string *)
Definition name_eqb (a b : option string) : bool :=
  match a, b with
  | Some a, Some b => String.eqb a b
  | None, None => true
  | _, _ => false
  end.

(** [TextGrid.getNames], [TextGrid.getFirst], [TextGrid.getList] *)
Definition TextGrid_getNames (self : TextGrid.t) : list (option string) :=
  map tier_name (TextGrid.tiers self).

Definition TextGrid_getFirst (self : TextGrid.t) (tierName : option string) : option tier :=
  find (fun t => name_eqb (tier_name t) tierName) (TextGrid.tiers self).

Definition TextGrid_getList (self : TextGrid.t) (tierName : option string) : list tier :=
  filter (fun t => name_eqb (tier_name t) tierName) (TextGrid.tiers self).

(** [TextGrid.append].  The tier appended is the tier given with the flags
    set; the tier object itself is not modelled, so a tier that is in the
    grid already is not seen to change with it. *)
Definition TextGrid_append (self : TextGrid.t) (t : tier) : py TextGrid.t :=
  match TextGrid.maxTime self, tier_maxTime t with
  | Some self_maxTime, Some tier_maxTime =>
      raise_if (gtb tier_maxTime self_maxTime) (ValueError [AFloat self_maxTime])  (* too late *)
  | _, _ => ret tt
  end ;;
  ret (set_tiers self (TextGrid.tiers self ++ [tier_set_strict (TextGrid.strict self) t])).

(** [min(l)], [max(l)] of a non-empty list of floats *)
Definition list_min (x : float) (l : list float) : float :=
  fold_left (fun m y : float => if ltb y m then y else m) l x.

Definition list_max (x : float) (l : list float) : float :=
  fold_left (fun m y : float => if gtb y m then y else m) l x.

(** [TextGrid.extend]; [min([])] raises [ValueError]. *)
Definition TextGrid_extend (self : TextGrid.t) (tiers : list tier) : py TextGrid.t :=
  match map tier_minTime tiers with
  | [] => raise (ValueError [AStr "min() arg is an empty sequence"])
  | t0 :: ts =>
      raise_if (ltb (list_min t0 ts) (TextGrid.minTime self))
               (ValueError [AFloat (TextGrid.minTime self)]) ;;           (* too early *)
      match TextGrid.maxTime self with
      | Some maxTime =>
          raise_if (truthy (Some maxTime) && gtb (list_max t0 ts) maxTime)
                   (ValueError [AFloat maxTime])                          (* too late *)
      | None => ret tt
      end ;;
      ret (set_tiers self (TextGrid.tiers self ++ tiers))
  end.

(* ================================================================== *)
(** * Strings ([str]) *)
(* ================================================================== *)

Local Open Scope string_scope.

Definition dquote : ascii := ascii_of_nat 34.
Definition DQ : string := String dquote "".         (* the string of one double quote *)
Definition TAB : string := String (ascii_of_nat 9) "".
Definition NL : string := String (ascii_of_nat 10) "".

(** [c.isspace()] on the code points below 256 *)
Definition is_space (c : ascii) : bool :=
  let n := nat_of_ascii c in
  ((9 <=? n) && (n <=? 13) || (28 <=? n) && (n <=? 32) || (n =? 133) || (n =? 160))%nat.

(** The line boundaries of [str.splitlines], which [codecs]' [readline]
    splits at: LF, VT, FF, CR, FS, GS, RS, NEL (and CR LF as one). *)
Definition is_linebreak (c : ascii) : bool :=
  let n := nat_of_ascii c in
  ((10 <=? n) && (n <=? 13) || (28 <=? n) && (n <=? 30) || (n =? 133))%nat.

Definition is_digit (c : ascii) : bool :=
  let n := nat_of_ascii c in ((48 <=? n) && (n <=? 57))%nat.

(** [\w] of [re] on the code points below 256 *)
Definition is_word (c : ascii) : bool :=
  let n := nat_of_ascii c in
  (is_digit c || (65 <=? n) && (n <=? 90) || (97 <=? n) && (n <=? 122) || (n =? 95)
   || (n =? 170) || (n =? 178) || (n =? 179) || (n =? 181) || (n =? 185) || (n =? 186)
   || (188 <=? n) && (n <=? 190)
   || (192 <=? n) && (n <=? 255) && negb (n =? 215) && negb (n =? 247))%nat.

Fixpoint lstrip (s : string) : string :=
  match s with
  | "" => ""
  | String c r => if is_space c then lstrip r else s
  end.

Fixpoint rstrip (s : string) : string :=
  match s with
  | "" => ""
  | String c r =>
      match rstrip r with
      | "" => if is_space c then "" else String c ""
      | r' => String c r'
      end
  end.

Definition strip (s : string) : string := lstrip (rstrip s).

(** [s.split()]: [cur] is the field being read, if any. *)
Fixpoint split_from (cur : option string) (s : string) : list string :=
  match s with
  | "" => match cur with Some w => [w] | None => [] end
  | String c r =>
      if is_space c
      then match cur with Some w => w :: split_from None r | None => split_from None r end
      else split_from (Some (match cur with Some w => w ++ String c "" | None => String c "" end)) r
  end.

Definition split (s : string) : list string := split_from None s.

(** [s[len(p):]] when [s.startswith(p)] *)
Fixpoint after_prefix (p s : string) : option string :=
  match p, s with
  | "", _ => Some s
  | String a p', String b s' => if Ascii.eqb a b then after_prefix p' s' else None
  | String _ _, "" => None
  end.

Definition startswith (s p : string) : bool :=
  match after_prefix p s with Some _ => true | None => false end.

(** What follows the first occurrence of [p] in [s]. *)
Fixpoint after_first (p s : string) : option string :=
  match after_prefix p s with
  | Some r => Some r
  | None => match s with
            | "" => None
            | String _ s' => after_first p s'
            end
  end.

(** [p in s] *)
Definition contains (p s : string) : bool :=
  match after_first p s with Some _ => true | None => false end.

(** What precedes the last occurrence of the character [c] in [s]. *)
Fixpoint before_last (c : ascii) (s : string) : option string :=
  match s with
  | "" => None
  | String a r =>
      match before_last c r with
      | Some g => Some (String a g)
      | None => if Ascii.eqb a c then Some "" else None
      end
  end.

(** The parity of [s.count(DQ)]: true when odd. *)
Fixpoint odd_quotes (s : string) : bool :=
  match s with
  | "" => false
  | String c r => if Ascii.eqb c dquote then negb (odd_quotes r) else odd_quotes r
  end.

(** [s[1:-1]] *)
Fixpoint drop_last (s : string) : string :=
  match s with
  | "" => ""
  | String c "" => ""
  | String c r => String c (drop_last r)
  end.

Definition slice_1_m1 (s : string) : string :=
  match s with
  | "" => ""
  | String _ r => drop_last r
  end.

Fixpoint all_space (s : string) : bool :=
  match s with
  | "" => true
  | String c r => is_space c && all_space r
  end.

(** [text.replace(DQ, DQ + DQ)] and [text.replace(DQ + DQ, DQ)] *)
Fixpoint double_quotes (s : string) : string :=
  match s with
  | "" => ""
  | String c r =>
      if Ascii.eqb c dquote then String dquote (String dquote (double_quotes r))
      else String c (double_quotes r)
  end.

Fixpoint undouble_quotes (s : string) : string :=
  match s with
  | "" => ""
  | String c r =>
      match r with
      | String c' r' =>
          if Ascii.eqb c dquote && Ascii.eqb c' dquote
          then String dquote (undouble_quotes r')
          else String c (undouble_quotes r)
      | "" => String c ""
      end
  end.

(** [source.readline()] of a [codecs] reader: the line with its terminator,
    and the rest of the text; the empty string at the end of the text. *)
Fixpoint readline (source : string) : string * string :=
  match source with
  | "" => ("", "")
  | String c r =>
      if is_linebreak c then
        match r with
        | String c' r' =>
            if Ascii.eqb c (ascii_of_nat 13) && Ascii.eqb c' (ascii_of_nat 10)
            then (String c (String c' ""), r')
            else (String c "", r)
        | "" => (String c "", "")
        end
      else let (line, rest) := readline r in (String c line, rest)
  end.

(* ------------------------------------------------------------------ *)
(** ** Numbers in text *)

(** [str(n)] of a non-negative [int] *)
Definition format_N (n : N) : string := NilEmpty.string_of_uint (N.to_uint n).

Definition format_int (n : nat) : string := format_N (N.of_nat n).

(** ['{0}'.format(x)] of a float: a decimal literal of its exact value,
    [<mant>e-<expo>].  (Python writes the shortest literal that reads back
    to the float; [float] below reads every decimal literal.) *)
Definition format_float (x : float) : string :=
  (if (mant x <? 0)%Z then "-" else "") ++ format_N (Z.abs_N (mant x))
  ++ "e-" ++ format_N (N.of_nat (expo x)).

(** The longest prefix of digits, and what follows it. *)
Fixpoint span_digits (s : string) : string * string :=
  match s with
  | "" => ("", "")
  | String c r =>
      if is_digit c then let (ds, rest) := span_digits r in (String c ds, rest)
      else ("", s)
  end.

(** The number a string of digits denotes; [0] for the empty string. *)
Definition digits_value (s : string) : N :=
  match NilEmpty.uint_of_string s with
  | Some d => N.of_uint d
  | None => 0
  end.

(** An optional sign: [true] for [-]. *)
Definition span_sign (s : string) : bool * string :=
  match s with
  | String c r =>
      if Ascii.eqb c "-"%char then (true, r)
      else if Ascii.eqb c "+"%char then (false, r)
      else (false, s)
  | "" => (false, "")
  end.

Definition signed (neg : bool) (n : N) : Z :=
  if neg then (- Z.of_N n)%Z else Z.of_N n.

(** [int(s)] of a string: surrounding blanks, a sign, decimal digits. *)
Definition int_of_string (s : string) : option Z :=
  let (neg, s1) := span_sign (strip s) in
  let (ds, rest) := span_digits s1 in
  match ds, rest with
  | String _ _, "" => Some (signed neg (digits_value ds))
  | _, _ => None
  end.

(** The exponent part of a float literal: nothing, or [e] or [E], a sign
    and digits. *)
Definition exponent_of_string (s : string) : option Z :=
  match s with
  | "" => Some 0%Z
  | String c r =>
      if Ascii.eqb c "e"%char || Ascii.eqb c "E"%char then
        let (neg, r1) := span_sign r in
        let (ds, rest) := span_digits r1 in
        match ds, rest with
        | String _ _, "" => Some (signed neg (digits_value ds))
        | _, _ => None
        end
      else None
  end.

(** [float(s)] of a string: surrounding blanks, a sign, digits with an
    optional point, an optional exponent.  The literals [inf], [nan] and
    digit-grouping underscores are outside the model. *)
Definition float_of_string (s : string) : option float :=
  let (neg, s1) := span_sign (strip s) in
  let (ip, r1) := span_digits s1 in
  let (fp, r2) := match r1 with
                  | String c r =>
                      if Ascii.eqb c "."%char then span_digits r else ("", r1)
                  | "" => ("", "")
                  end in
  match ip ++ fp with
  | "" => None
  | digits =>
      match exponent_of_string r2 with
      | None => None
      | Some e =>
          let m := signed neg (digits_value digits) in
          let shift := (Z.of_nat (String.length fp) - e)%Z in
          if (shift <? 0)%Z
          then Some (mkfloat (m * Zpos (pow10 (Z.to_nat (- shift)))) 0)
          else Some (mkfloat m (Z.to_nat shift))
      end
  end.

Definition float_ (s : string) : py float :=
  match float_of_string s with
  | Some x => ret x
  | None => raise (ValueError [AStr ("could not convert string to float: " ++ s)])
  end.

Definition int_ (s : string) : py Z :=
  match int_of_string s with
  | Some z => ret z
  | None => raise (ValueError [AStr ("invalid literal for int() with base 10: " ++ s)])
  end.

(* ================================================================== *)
(** * [utils.py] *)
(* ================================================================== *)

Definition DEFAULT_TEXTGRID_PRECISION : nat := 5.
Definition DEFAULT_MLF_PRECISION : nat := 5.

(** ['{0}'.format(name)] of the name of a tier: [None] is written as the
    word None. *)
Definition format_name (name : option string) : string :=
  match name with
  | Some s => s
  | None => "None"
  end.

(** [_formatMark] *)
Definition formatMark (text : string) : string := double_quotes text.

(** [decode] *)
Definition decode (s : string) : string := s.

(** What follows the match of [^\s*(text|mark) = DQ] at the start of
    [line], if it matches. *)
Definition entry_start (line : string) : option string :=
  match after_prefix ("text = " ++ DQ) (lstrip line) with
  | Some r => Some r
  | None => after_prefix ("mark = " ++ DQ) (lstrip line)
  end.

(** The group of [(.*?)DQ\s*$] with [re.DOTALL]: the shortest prefix that
    a double quote and nothing but blanks follow. *)
Fixpoint lazy_entry (s : string) : option string :=
  match s with
  | "" => None
  | String c r =>
      if Ascii.eqb c dquote && all_space r then Some ""
      else match lazy_entry r with
           | Some g => Some (String c g)
           | None => None
           end
  end.

(** The loop of [_getMark] that reads on until the number of double quotes
    is even; every round takes a non-empty line off [text], so
    [String.length text] rounds suffice. *)
Fixpoint getMark_loop (n : nat) (line text : string) : py (string * string) :=
  if odd_quotes line then
    match n with
    | O => raise (EOFError ("Bad entry: " ++ substring 0 20 line ++ "..."))
    | S n =>
        let next_line := fst (readline text) in
        match next_line with
        | "" => raise (EOFError ("Bad entry: " ++ substring 0 20 line ++ "..."))
        | _ => getMark_loop n (line ++ next_line) (snd (readline text))
        end
    end
  else ret (line, text).

(** [_getMark]: the mark, and the rest of the text. *)
Definition getMark (text : string) (short : bool) : py (string * string) :=
  let line := fst (readline text) in
  let text := snd (readline text) in
  raise_if (negb short && match entry_start line with Some _ => false | None => true end)
           (ValueError [AStr ("Bad entry: " ++ line)]) ;;
  '(line, text) <- getMark_loop (String.length text) line text ;;
  match (if short then after_prefix DQ line else entry_start line) with
  | Some r =>
      match lazy_entry r with
      | Some g => ret (undouble_quotes g, text)
      | None => raise AttributeError         (* entry is None *)
      end
  | None => raise AttributeError
  end.

(** What [parse_line] returns: a string or a rounded float. *)
Inductive value : Type :=
| VStr (s : string)
| VFloat (x : float).

(** [round(x, to_round)]; [parse_header] passes [''] for [to_round]
    ([None] here), which [round] rejects. *)
Definition round_ (x : float) (to_round : option nat) : py float :=
  match to_round with
  | Some n => ret (round x n)
  | None => raise TypeError
  end.

(** The group of the pattern of a quoted value matched at the start of
    [line]: at least one character and as few as possible, [ = ], a double
    quote, the group with as many characters as possible, a double quote. *)
Definition re_key_quoted (line : string) : option string :=
  match line with
  | "" => None
  | String _ r =>
      match after_first (" = " ++ DQ) r with
      | Some v => before_last dquote v
      | None => None
      end
  end.

(** The group of the pattern of a bare value matched at the start of
    [line]: at least one character and as few as possible, [ = ], the group
    with the rest of the line. *)
Definition re_key_value (line : string) : option string :=
  match line with
  | "" => None
  | String _ r => after_first " = " r
  end.

(** [parse_line] *)
Definition parse_line (line : string) (short : bool) (to_round : option nat) : py value :=
  let line := strip line in
  if short then
    if contains DQ line then ret (VStr (slice_1_m1 line))
    else x <- float_ line ;; r <- round_ x to_round ;; ret (VFloat r)
  else if contains DQ line then
    match re_key_quoted line with
    | Some g => ret (VStr g)
    | None => raise AttributeError           (* m is None *)
    end
  else
    match re_key_value line with
    | Some g => x <- float_ g ;; r <- round_ x to_round ;; ret (VFloat r)
    | None => raise AttributeError
    end.

(** The longest prefix of characters of the class [[\w ]], and the rest. *)
Fixpoint span_word_space (s : string) : string * string :=
  match s with
  | "" => ("", "")
  | String c r =>
      if is_word c || Ascii.eqb c " "%char
      then let (g, rest) := span_word_space r in (String c g, rest)
      else ("", s)
  end.

(** The group of [File type = DQ([\w ]+)DQ] matched at the start of
    [header] *)
Definition re_file_type (header : string) : option string :=
  match after_prefix ("File type = " ++ DQ) header with
  | Some r =>
      match span_word_space r with
      | (String c g, String q _) => if Ascii.eqb q dquote then Some (String c g) else None
      | _ => None
      end
  | None => None
  end.

Definition bad_header : exn :=
  TextGridError
    "The file could not be parsed as a Praat text file as it is lacking a proper header.".

(** [parse_header]: the file type, the short flag, and the rest of the
    text. *)
Definition parse_header (source : string) : py (value * bool * string) :=
  let header := fst (readline source) in
  let source := snd (readline source) in
  match re_file_type header with
  | None => raise bad_header
  | Some g =>
      if negb (startswith g "ooTextFile") then raise bad_header
      else
        let short := contains "short" g in
        file_type <- parse_line (fst (readline source)) short None ;;
        let source := snd (readline source) in
        let source := snd (readline source) in          (* header junk *)
        ret (file_type, short, source)
  end.

(** The uses of a parsed value: as a time or a count (a float), as a name
    (a string).  Python would carry a value of the other type on, up to
    the first operation that rejects it; the model rejects it here. *)
Definition as_float (v : value) : py float :=
  match v with
  | VFloat x => ret x
  | VStr _ => raise TypeError
  end.

Definition as_str (v : value) : py string :=
  match v with
  | VStr s => ret s
  | VFloat _ => raise TypeError
  end.

(** [v == s] for a string literal [s] *)
Definition value_is (v : value) (s : string) : bool :=
  match v with
  | VStr s' => String.eqb s' s
  | VFloat _ => false
  end.

(** [int(v)] *)
Definition int_of_value (v : value) : py Z :=
  match v with
  | VFloat x => ret (int x)
  | VStr s => int_ s
  end.

(* ================================================================== *)
(** * [textgrid_data.py]: [TextGrid.read] and [TextGrid.write] *)
(* ================================================================== *)

(** [source] is the decoded text of the file, [sink] the text written. *)

(** [parse_line(source.readline(), short, round_digits)] used as a float,
    as a string, as a count: the value and the rest of the text. *)
Definition read_float (source : string) (short : bool) (round_digits : nat)
  : py (float * string) :=
  v <- parse_line (fst (readline source)) short (Some round_digits) ;;
  x <- as_float v ;;
  ret (x, snd (readline source)).

Definition read_str (source : string) (short : bool) (round_digits : nat)
  : py (string * string) :=
  v <- parse_line (fst (readline source)) short (Some round_digits) ;;
  s <- as_str v ;;
  ret (s, snd (readline source)).

Definition read_count (source : string) (short : bool) (round_digits : nat)
  : py (nat * string) :=
  v <- parse_line (fst (readline source)) short (Some round_digits) ;;
  n <- int_of_value v ;;
  ret (Z.to_nat n, snd (readline source)).

(** [source.readline()] whose line is dropped *)
Definition skip_line (source : string) : string := snd (readline source).

(** The loop [for j in range(n)] over the intervals of a tier. *)
Fixpoint read_intervals (n : nat) (short : bool) (round_digits : nat)
    (itie : IntervalTier.t) (source : string) : py (IntervalTier.t * string) :=
  match n with
  | O => ret (itie, source)
  | S n =>
      let source := if short then source else skip_line source in    (* header junk *)
      '(jmin, source) <- read_float source short round_digits ;;
      '(jmax, source) <- read_float source short round_digits ;;
      '(jmrk, source) <- getMark source short ;;
      itie <- (if ltb jmin jmax                                        (* non-null *)
               then interval <- Interval_init jmin jmax jmrk ;;
                    IntervalTier_addInterval itie interval
               else ret itie) ;;
      read_intervals n short round_digits itie source
  end.

(** The loop [for j in range(n)] over the points of a tier. *)
Fixpoint read_points (n : nat) (short : bool) (round_digits : nat)
    (itie : PointTier.t) (source : string) : py (PointTier.t * string) :=
  match n with
  | O => ret (itie, source)
  | S n =>
      let source := skip_line source in                               (* header junk *)
      '(jtim, source) <- read_float source short round_digits ;;
      '(jmrk, source) <- getMark source short ;;
      itie <- PointTier_addPoint itie (Point_init jtim jmrk) ;;
      read_points n short round_digits itie source
  end.

(** The loop [for i in range(m)] over the tiers. *)
Fixpoint read_tiers (m : nat) (short : bool) (round_digits : nat)
    (self : TextGrid.t) (source : string) : py TextGrid.t :=
  match m with
  | O => ret self
  | S m =>
      let source := if short then source else skip_line source in
      cls <- parse_line (fst (readline source)) short (Some round_digits) ;;
      let source := snd (readline source) in
      if value_is cls "IntervalTier" then
        '(inam, source) <- read_str source short round_digits ;;
        '(imin, source) <- read_float source short round_digits ;;
        '(imax, source) <- read_float source short round_digits ;;
        let itie := set_IntervalTier_strict (TextGrid.strict self)
                      (IntervalTier_init (Some inam) imin (Some imax)) in
        '(n, source) <- read_count source short round_digits ;;
        '(itie, source) <- read_intervals n short round_digits itie source ;;
        self <- TextGrid_append self (ITier itie) ;;
        read_tiers m short round_digits self source
      else                                                            (* pointTier *)
        '(inam, source) <- read_str source short round_digits ;;
        '(imin, source) <- read_float source short round_digits ;;
        '(imax, source) <- read_float source short round_digits ;;
        let itie := PointTier_init (Some inam) (float_of_Z 0) None in
        '(n, source) <- read_count source short round_digits ;;
        '(itie, source) <- read_points n short round_digits itie source ;;
        self <- TextGrid_append self (PTier itie) ;;
        read_tiers m short round_digits self source
  end.

Definition not_a_TextGrid : exn :=
  TextGridError
    "The file could not be parsed as a TextGrid as it is lacking a proper header.".

(** [TextGrid.read] on the text of the file *)
Definition TextGrid_read (self : TextGrid.t) (source : string) (round_digits : nat)
  : py TextGrid.t :=
  '(file_type, short, source) <- parse_header source ;;
  raise_if (negb (value_is file_type "TextGrid")) not_a_TextGrid ;;
  let first_line_beside_header := fst (readline source) in
  let source := snd (readline source) in
  let short :=
    match outcome (parse_line first_line_beside_header short (Some round_digits)) with
    | inr _ => short
    | inl _ => true                                                   (* except Exception *)
    end in
  minTime <- (v <- parse_line first_line_beside_header short (Some round_digits) ;;
              as_float v) ;;
  '(maxTime, source) <- read_float source short round_digits ;;
  let source := skip_line source in                                   (* more header junk *)
  m <- (if short then int_ (strip (fst (readline source)))
        else match nth_error (split (strip (fst (readline source)))) 2 with
             | Some field => int_ field
             | None => raise IndexError
             end) ;;
  let source := snd (readline source) in
  let source := if short then source else skip_line source in
  read_tiers (Z.to_nat m) short round_digits
    (TextGrid.mk (TextGrid.name self) minTime (Some maxTime) (TextGrid.tiers self)
       (TextGrid.strict self))
    source.

(** [TextGrid.fromFile] *)
Definition TextGrid_fromFile (source : string) (name : option string) : py TextGrid.t :=
  TextGrid_read (TextGrid_init name (float_of_Z 0) None true) source
    DEFAULT_TEXTGRID_PRECISION.

(* ------------------------------------------------------------------ *)

(** [print(s, file=sink)] *)
Definition print (s : string) : string := s ++ NL.

(** [t.maxTime if t.maxTime else t[-1].maxTime] *)
Definition tier_end (t : tier) : py float :=
  match t with
  | ITier t =>
      match IntervalTier.maxTime t with
      | Some x =>
          if truthy (Some x) then ret x
          else match last (map Some (IntervalTier.intervals t)) None with
               | Some i => ret (Interval.maxTime i)
               | None => raise IndexError
               end
      | None =>
          match last (map Some (IntervalTier.intervals t)) None with
          | Some i => ret (Interval.maxTime i)
          | None => raise IndexError
          end
      end
  | PTier t =>
      match PointTier.maxTime t with
      | Some x =>
          if truthy (Some x) then ret x
          else match PointTier.points t with
               | [] => raise IndexError
               | _ => raise AttributeError                 (* a Point has no maxTime *)
               end
      | None =>
          match PointTier.points t with
          | [] => raise IndexError
          | _ => raise AttributeError
          end
      end
  end.

Fixpoint tier_ends (tiers : list tier) : py (list float) :=
  match tiers with
  | [] => ret []
  | t :: ts => x <- tier_end t ;; xs <- tier_ends ts ;; ret (x :: xs)
  end.

(** The [maxT] of [TextGrid.write] *)
Definition write_maxT (self : TextGrid.t) : py float :=
  match TextGrid.maxTime self with
  | Some x =>
      if truthy (Some x) then ret x
      else xs <- tier_ends (TextGrid.tiers self) ;;
           match xs with
           | [] => raise (ValueError [AStr "max() arg is an empty sequence"])
           | x :: xs => ret (list_max x xs)
           end
  | None =>
      xs <- tier_ends (TextGrid.tiers self) ;;
      match xs with
      | [] => raise (ValueError [AStr "max() arg is an empty sequence"])
      | x :: xs => ret (list_max x xs)
      end
  end.

(** The loop [for (j, interval) in enumerate(output, 1)], from the index
    [j] on. *)
Fixpoint write_intervals (j : nat) (output : list Interval.t) : string :=
  match output with
  | [] => ""
  | interval :: output =>
      print (TAB ++ TAB ++ TAB ++ "intervals [" ++ format_int j ++ "]:")
      ++ print (TAB ++ TAB ++ TAB ++ TAB ++ "xmin = " ++ format_float (Interval.minTime interval))
      ++ print (TAB ++ TAB ++ TAB ++ TAB ++ "xmax = " ++ format_float (Interval.maxTime interval))
      ++ print (TAB ++ TAB ++ TAB ++ TAB ++ "text = " ++ DQ
                ++ formatMark (Interval.mark interval) ++ DQ)
      ++ write_intervals (S j) output
  end.

(** The loop [for (k, point) in enumerate(tier, 1)], from the index [k]
    on. *)
Fixpoint write_points (k : nat) (points : list Point.t) : string :=
  match points with
  | [] => ""
  | point :: points =>
      print (TAB ++ TAB ++ TAB ++ "points [" ++ format_int k ++ "]:")
      ++ print (TAB ++ TAB ++ TAB ++ TAB ++ "time = " ++ format_float (Point.time point))
      ++ print (TAB ++ TAB ++ TAB ++ TAB ++ "mark = " ++ DQ
                ++ formatMark (Point.mark point) ++ DQ)
      ++ write_points (S k) points
  end.

(** The body of the loop over the tiers, for the tier of index [i]. *)
Definition write_tier (i : nat) (maxT : float) (null : string) (t : tier) : py string :=
  match t with
  | ITier t =>
      output <- IntervalTier_fillInTheGaps t null ;;
      ret (print (TAB ++ "item [" ++ format_int i ++ "]:")
           ++ print (TAB ++ TAB ++ "class = " ++ DQ ++ "IntervalTier" ++ DQ)
           ++ print (TAB ++ TAB ++ "name = " ++ DQ ++ format_name (IntervalTier.name t) ++ DQ)
           ++ print (TAB ++ TAB ++ "xmin = " ++ format_float (IntervalTier.minTime t))
           ++ print (TAB ++ TAB ++ "xmax = " ++ format_float maxT)
           ++ print (TAB ++ TAB ++ "intervals: size = " ++ format_int (List.length output))
           ++ write_intervals 1 output)
  | PTier t =>
      ret (print (TAB ++ "item [" ++ format_int i ++ "]:")
           ++ print (TAB ++ TAB ++ "class = " ++ DQ ++ "TextTier" ++ DQ)
           ++ print (TAB ++ TAB ++ "name = " ++ DQ ++ format_name (PointTier.name t) ++ DQ)
           ++ print (TAB ++ TAB ++ "xmin = " ++ format_float (PointTier.minTime t))
           ++ print (TAB ++ TAB ++ "xmax = " ++ format_float maxT)
           ++ print (TAB ++ TAB ++ "points: size = " ++ format_int (List.length (PointTier.points t)))
           ++ write_points 1 (PointTier.points t))
  end.

(** The loop [for (i, tier) in enumerate(self.tiers, 1)], from the index
    [i] on. *)
Fixpoint write_tiers (i : nat) (maxT : float) (null : string) (tiers : list tier)
  : py string :=
  match tiers with
  | [] => ret ""
  | t :: tiers =>
      s <- write_tier i maxT null t ;;
      rest <- write_tiers (S i) maxT null tiers ;;
      ret (s ++ rest)
  end.

(** [TextGrid.write]: the text written to the sink. *)
Definition TextGrid_write (self : TextGrid.t) (null : string) : py string :=
  maxT <- write_maxT self ;;
  body <- write_tiers 1 maxT null (TextGrid.tiers self) ;;
  ret (print ("File type = " ++ DQ ++ "ooTextFile" ++ DQ)
       ++ print ("Object class = " ++ DQ ++ "TextGrid" ++ DQ ++ NL)
       ++ print ("xmin = " ++ format_float (TextGrid.minTime self))
       ++ print ("xmax = " ++ format_float maxT)
       ++ print "tiers? <exists>"
       ++ print ("size = " ++ format_int (List.length (TextGrid.tiers self)))
       ++ print "item []:"
       ++ body).

(* ================================================================== *)
(** * [mlf.py] *)
(* ================================================================== *)

(** The lines that [readline] yields in turn on a file opened in text
    mode, on the text as the file holds it.  The newlines are universal: a
    line feed, a carriage return, and a carriage return with the line feed
    that follows it each end a line, which is returned with one line feed
    at its end.  [cur] is the line being read. *)
Fixpoint lines_from (cur : string) (s : string) : list string :=
  match s with
  | "" => match cur with "" => [] | _ => [cur] end
  | String c r =>
      if Ascii.eqb c (ascii_of_nat 10)
      then (cur ++ String c "") :: lines_from "" r
      else if Ascii.eqb c (ascii_of_nat 13)
      then (cur ++ NL)
           :: match r with
              | String c' r' =>
                  if Ascii.eqb c' (ascii_of_nat 10) then lines_from "" r'
                  else lines_from "" r
              | "" => []
              end
      else lines_from (cur ++ String c "") r
  end.

Definition readlines (s : string) : list string := lines_from "" s.

(** The group of the pattern of a quoted file name matched at the start of
    [s]: a double quote, as many characters as possible, a double quote. *)
Definition re_quoted_name (s : string) : option string :=
  match s with
  | "" => None
  | String c r => if Ascii.eqb c dquote then before_last dquote r else None
  end.

(** [round(float(field) / samplerate, round_digits)] *)
Definition sample_time (field : string) (samplerate : float) (round_digits : nat)
  : py float :=
  x <- float_ field ;;
  raise_if (eqb samplerate 0) ZeroDivisionError ;;
  ret (round (x / samplerate) round_digits).

(** The variables of the loop over the lines of one utterance. *)
Record utterance : Type := mk_utterance
  { grid : TextGrid.t;
    phon : IntervalTier.t;
    word : IntervalTier.t;
    wmrk : string;
    wsrt : float;
    wend : float }.

(** The two loops of [MLF.read] as states: the outer loop waits for the
    quoted name of an utterance, the inner loop reads its records. *)
Inductive state : Type :=
| AWAITING_UTTERANCE
| IN_UTTERANCE (u : utterance).

Definition nonempty (s : string) : bool :=
  match s with "" => false | _ => true end.

(** What one [source.readline()] leads to: the loops go on in a state, or
    [read] returns. *)
Inductive progress : Type :=
| Continue (grids : list TextGrid.t) (st : state)
| Return (grids : list TextGrid.t).

(** The [else] branch of the inner loop ("it's a period"), with the two
    [grid.append] that follow the [break]; [self.grids] holds the grid
    object itself, so the tiers appended afterwards are in it. *)
Definition end_utterance (grids : list TextGrid.t) (u : utterance)
  : py (list TextGrid.t) :=
  word <- IntervalTier_add (word u) (wsrt u) (wend u) (wmrk u) ;;
  grid <- TextGrid_append (grid u) (ITier (phon u)) ;;
  grid <- TextGrid_append grid (ITier word) ;;
  ret (grids ++ [grid])%list.

(** One iteration: the line read, in the state [st]. *)
Definition read_line (samplerate : float) (round_digits : nat)
    (grids : list TextGrid.t) (st : state) (line : string) : py progress :=
  match st with
  | AWAITING_UTTERANCE =>
      match re_quoted_name (rstrip line) with
      | Some name =>
          ret (Continue grids
                 (IN_UTTERANCE
                    (mk_utterance (TextGrid_init (Some name) (float_of_Z 0) None true)
                       (IntervalTier_init (Some "phones") (float_of_Z 0) None)
                       (IntervalTier_init (Some "words") (float_of_Z 0) None)
                       "" (float_of_Z 0) (float_of_Z 0))))
      | None => ret (Return grids)
      end
  | IN_UTTERANCE u =>
      match split (rstrip line) with
      | [f0; f1; f2; f3] =>                                     (* word on this baby *)
          pmin <- sample_time f0 samplerate round_digits ;;
          pmax <- sample_time f1 samplerate round_digits ;;
          raise_if (eqb pmin pmax) (ValueError [AStr "null duration interval"]) ;;
          phon <- IntervalTier_add (phon u) pmin pmax f2 ;;
          word <- (if nonempty (wmrk u)
                   then IntervalTier_add (word u) (wsrt u) (wend u) (wmrk u)
                   else ret (word u)) ;;
          ret (Continue grids
                 (IN_UTTERANCE (mk_utterance (grid u) phon word (decode f3) pmin pmax)))
      | [f0; f1; f2] =>                                         (* just phone *)
          pmin <- sample_time f0 samplerate round_digits ;;
          pmax <- sample_time f1 samplerate round_digits ;;
          if String.eqb f2 "sp" && negb (eqb pmin pmax) then
            word <- (if nonempty (wmrk u)
                     then IntervalTier_add (word u) (wsrt u) (wend u) (wmrk u)
                     else ret (word u)) ;;
            ret (Continue grids
                   (IN_UTTERANCE (mk_utterance (grid u) (phon u) word (decode f2) pmin pmax)))
          else if negb (eqb pmin pmax) then
            phon <- IntervalTier_add (phon u) pmin pmax f2 ;;
            ret (Continue grids
                   (IN_UTTERANCE (mk_utterance (grid u) phon (word u) (wmrk u) (wsrt u) pmax)))
          else
            ret (Continue grids
                   (IN_UTTERANCE (mk_utterance (grid u) (phon u) (word u) (wmrk u) (wsrt u) pmax)))
      | _ =>                                                    (* it's a period *)
          grids <- end_utterance grids u ;;
          ret (Continue grids AWAITING_UTTERANCE)
      end
  end.

(** At the end of the file [readline] returns [''] for ever: an open
    utterance ends as on a period, and the outer loop, reading [''] for a
    name, stops ([read_eof_is_read_line]). *)
Definition read_eof (grids : list TextGrid.t) (st : state) : py (list TextGrid.t) :=
  match st with
  | AWAITING_UTTERANCE => ret grids
  | IN_UTTERANCE u => end_utterance grids u
  end.

(** The loops over the lines that are left. *)
Fixpoint read_lines (samplerate : float) (round_digits : nat)
    (grids : list TextGrid.t) (st : state) (lines : list string)
  : py (list TextGrid.t) :=
  match lines with
  | [] => read_eof grids st
  | line :: lines =>
      p <- read_line samplerate round_digits grids st line ;;
      match p with
      | Return grids => ret grids
      | Continue grids st => read_lines samplerate round_digits grids st lines
      end
  end.

(** [MLF.read] on the text of the file; [self.grids] is the result. *)
Definition MLF_read (source : string) (samplerate : float) (round_digits : nat)
  : py (list TextGrid.t) :=
  match readlines source with
  | [] => read_eof [] AWAITING_UTTERANCE
  | header :: lines => read_lines samplerate round_digits [] AWAITING_UTTERANCE lines
  end.

(** [MLF.__init__] with the default [samplerate=10e6] *)
Definition MLF_init (source : string) : py (list TextGrid.t) :=
  MLF_read source (float_of_Z 10000000) DEFAULT_MLF_PRECISION.

(* ================================================================== *)
(** * Further methods *)
(* ================================================================== *)

(** [IntervalTier.intervalContaining] *)
Definition IntervalTier_intervalContaining (self : IntervalTier.t) (time : float)
  : py (option Interval.t) :=
  i <- IntervalTier_indexContaining self time ;;
  match i with
  | Some i =>
      match nth_error (IntervalTier.intervals self) i with
      | Some e => ret (Some e)
      | None => raise IndexError
      end
  | None => ret None
  end.

(** [all([a == b for a, b in zip(l1, l2)])] *)
Fixpoint zip_all {A B : Type} (eq : A -> B -> bool) (l1 : list A) (l2 : list B) : bool :=
  match l1, l2 with
  | a :: l1, b :: l2 => eq a b && zip_all eq l1 l2
  | _, _ => true
  end.

(** [IntervalTier.__eq__], [PointTier.__eq__] with a tier of the same
    class *)
Definition IntervalTier_eq (self other : IntervalTier.t) : bool :=
  zip_all (fun a b => Interval_eq a (OInterval b))
    (IntervalTier.intervals self) (IntervalTier.intervals other).

Definition PointTier_eq (self other : PointTier.t) : bool :=
  zip_all (fun a b => Point_eq a (OPoint b))
    (PointTier.points self) (PointTier.points other).

(** [PointTier.removePoint], [PointTier.remove] *)
Definition PointTier_removePoint (self : PointTier.t) (point : Point.t) : py PointTier.t :=
  match list_remove (fun e => Point_eq e (OPoint point)) (PointTier.points self) with
  | Some l => ret (set_points self l)
  | None => raise (ValueError [AStr "list.remove(x): x not in list"])
  end.

Definition PointTier_remove (self : PointTier.t) (time : float) (mark : string)
  : py PointTier.t :=
  PointTier_removePoint self (Point_init time mark).

(** [a.pop(i)]: the element and the list that is left; a negative index
    counts from the end. *)
Definition list_pop {A : Type} (i : Z) (a : list A) : option (A * list A) :=
  let n := Z.of_nat (List.length a) in
  let j := if (i <? 0)%Z then (i + n)%Z else i in
  if (j <? 0)%Z || (n <=? j)%Z then None
  else match nth_error a (Z.to_nat j) with
       | Some x => Some (x, (firstn (Z.to_nat j) a ++ skipn (S (Z.to_nat j)) a)%list)
       | None => None
       end.

(** [TextGrid.pop]: [self.tiers.pop(i) if i else self.tiers.pop()]; the
    tier returned, and the grid that is left. *)
Definition TextGrid_pop (self : TextGrid.t) (i : option Z) : py (tier * TextGrid.t) :=
  let popped :=
    match i with
    | Some i => if (i =? 0)%Z then list_pop (-1) (TextGrid.tiers self)
                else list_pop i (TextGrid.tiers self)
    | None => list_pop (-1) (TextGrid.tiers self)
    end in
  match popped with
  | Some (t, l) => ret (t, set_tiers self l)
  | None => raise IndexError
  end.

(* ------------------------------------------------------------------ *)
(** ** The file of one tier *)

Definition not_an_IntervalTier : exn :=
  TextGridError
    "The file could not be parsed as a IntervalTier as it is lacking a proper header.".

Definition not_a_PointTier : exn :=
  TextGridError
    "The file could not be parsed as a PointTier as it is lacking a proper header.".

(** The loop [for i in range(n)] of [IntervalTier.read] *)
Fixpoint IntervalTier_read_loop (n : nat) (short : bool) (round_digits : nat)
    (self : IntervalTier.t) (source : string) : py IntervalTier.t :=
  match n with
  | O => ret self
  | S n =>
      let source := skip_line source in                               (* header *)
      '(imin, source) <- read_float source short round_digits ;;
      '(imax, source) <- read_float source short round_digits ;;
      '(imrk, source) <- getMark source short ;;
      interval <- Interval_init imin imax imrk ;;
      IntervalTier_read_loop n short round_digits
        (set_intervals self (IntervalTier.intervals self ++ [interval])%list) source
  end.

(** [IntervalTier.read] on the text of the file *)
Definition IntervalTier_read (self : IntervalTier.t) (source : string) (round_digits : nat)
  : py IntervalTier.t :=
  '(file_type, short, source) <- parse_header source ;;
  raise_if (negb (value_is file_type "IntervalTier")) not_an_IntervalTier ;;
  '(minTime, source) <- read_float source short round_digits ;;
  '(maxTime, source) <- read_float source short round_digits ;;
  '(n, source) <- read_count source short round_digits ;;
  IntervalTier_read_loop n short round_digits
    (IntervalTier.mk (IntervalTier.name self) minTime (Some maxTime)
       (IntervalTier.intervals self) (IntervalTier.strict self))
    source.

(** [IntervalTier.fromFile] *)
Definition IntervalTier_fromFile (source : string) (name : option string) : py IntervalTier.t :=
  IntervalTier_read (IntervalTier_init name (float_of_Z 0) None) source
    DEFAULT_TEXTGRID_PRECISION.

(** The loop [for (i, interval) in enumerate(output, 1)] of
    [IntervalTier.write], from the index [i] on. *)
Fixpoint IntervalTier_write_loop (i : nat) (output : list Interval.t) : string :=
  match output with
  | [] => ""
  | interval :: output =>
      print ("intervals [" ++ format_int i ++ "]:")
      ++ print (TAB ++ "xmin = " ++ format_float (Interval.minTime interval))
      ++ print (TAB ++ "xmax = " ++ format_float (Interval.maxTime interval))
      ++ print (TAB ++ "text = " ++ DQ ++ double_quotes (Interval.mark interval) ++ DQ)
      ++ IntervalTier_write_loop (S i) output
  end.

(** [IntervalTier.write]: the text written to the sink. *)
Definition IntervalTier_write (self : IntervalTier.t) (null : string) : py string :=
  maxT <- tier_end (ITier self) ;;
  output <- IntervalTier_fillInTheGaps self null ;;
  ret (print ("File type = " ++ DQ ++ "ooTextFile" ++ DQ)
       ++ print ("Object class = " ++ DQ ++ "IntervalTier" ++ DQ ++ NL)
       ++ print ("xmin = " ++ format_float (IntervalTier.minTime self))
       ++ print ("xmax = " ++ format_float maxT)
       ++ print ("intervals: size = " ++ format_int (List.length output))
       ++ IntervalTier_write_loop 1 output).

(** The loop [for i in range(n)] of [PointTier.read] *)
Fixpoint PointTier_read_loop (n : nat) (short : bool) (round_digits : nat)
    (self : PointTier.t) (source : string) : py PointTier.t :=
  match n with
  | O => ret self
  | S n =>
      let source := skip_line source in                               (* header *)
      '(itim, source) <- read_float source short round_digits ;;
      '(imrk, source) <- getMark source short ;;
      PointTier_read_loop n short round_digits
        (set_points self (PointTier.points self ++ [Point_init itim imrk])%list) source
  end.

(** [PointTier.read] on the text of the file *)
Definition PointTier_read (self : PointTier.t) (source : string) (round_digits : nat)
  : py PointTier.t :=
  '(file_type, short, source) <- parse_header source ;;
  raise_if (negb (value_is file_type "TextTier")) not_a_PointTier ;;
  '(minTime, source) <- read_float source short round_digits ;;
  '(maxTime, source) <- read_float source short round_digits ;;
  '(n, source) <- read_count source short round_digits ;;
  PointTier_read_loop n short round_digits
    (PointTier.mk (PointTier.name self) minTime (Some maxTime)
       (PointTier.points self) (PointTier.strict self))
    source.

(** [PointTier.fromFile] *)
Definition PointTier_fromFile (source : string) (name : option string) : py PointTier.t :=
  PointTier_read (PointTier_init name (float_of_Z 0) None) source
    DEFAULT_TEXTGRID_PRECISION.

(** [self.maxTime if self.maxTime else self.points[-1].time] *)
Definition PointTier_end (self : PointTier.t) : py float :=
  if truthy (PointTier.maxTime self)
  then match PointTier.maxTime self with
       | Some x => ret x
       | None => raise IndexError
       end
  else match last (map Some (PointTier.points self)) None with
       | Some p => ret (Point.time p)
       | None => raise IndexError
       end.

(** The loop [for (i, point) in enumerate(self.points, 1)] of
    [PointTier.write], from the index [i] on. *)
Fixpoint PointTier_write_loop (i : nat) (points : list Point.t) : string :=
  match points with
  | [] => ""
  | point :: points =>
      print ("points [" ++ format_int i ++ "]:")
      ++ print (TAB ++ "time = " ++ format_float (Point.time point))
      ++ print (TAB ++ "mark = " ++ DQ ++ formatMark (Point.mark point) ++ DQ)
      ++ PointTier_write_loop (S i) points
  end.

(** [PointTier.write]: the text written to the sink. *)
Definition PointTier_write (self : PointTier.t) : py string :=
  maxT <- PointTier_end self ;;
  ret (print ("File type = " ++ DQ ++ "ooTextFile" ++ DQ)
       ++ print ("Object class = " ++ DQ ++ "TextTier" ++ DQ ++ NL)
       ++ print ("xmin = " ++ format_float (PointTier.minTime self))
       ++ print ("xmax = " ++ format_float maxT)
       ++ print ("points: size = " ++ format_int (List.length (PointTier.points self)))
       ++ PointTier_write_loop 1 (PointTier.points self)).

(** [IntervalTier.bounds], [PointTier.bounds] *)
Definition IntervalTier_bounds (self : IntervalTier.t) : py (float * float) :=
  maxT <- tier_end (ITier self) ;;
  ret (IntervalTier.minTime self, maxT).

Definition PointTier_bounds (self : PointTier.t) : py (float * float) :=
  maxT <- PointTier_end self ;;
  ret (PointTier.minTime self, maxT).

(* ================================================================== *)
(** * Specification *)
(* ================================================================== *)

Local Open Scope Q_scope.
Local Open Scope list_scope.

(** An interval of positive duration. *)
Definition valid (i : Interval.t) : Prop :=
  Interval.minTime i < Interval.maxTime i.

(** [a] ends before [b] starts. *)
Definition before (a b : Interval.t) : Prop :=
  Interval.maxTime a <= Interval.minTime b.

(** Intervals in ascending order that do not overlap. *)
Definition sorted_disjoint (l : list Interval.t) : Prop :=
  Forall valid l /\ StronglySorted before l.

(** The iteration order is ascending by start time. *)
Definition sorted_by_start (l : list Interval.t) : Prop :=
  StronglySorted (fun a b => Interval.minTime a < Interval.minTime b) l.

Definition weakly_sorted_by_start (l : list Interval.t) : Prop :=
  StronglySorted (fun a b => Interval.minTime a <= Interval.minTime b) l.

(** The overlap of two spans [(min, max)]. *)
Definition spans_overlap (a b : float * float) : Prop :=
  fst b < snd a /\ fst a < snd b.

Definition span (i : Interval.t) : float * float :=
  (Interval.minTime i, Interval.maxTime i).

Definition same_span (a b : Interval.t) : Prop :=
  Interval.minTime a == Interval.minTime b /\ Interval.maxTime a == Interval.maxTime b.

(** The interval lies within the bounds of the tier. *)
Definition within (self : IntervalTier.t) (min max : float) : Prop :=
  IntervalTier.minTime self <= min
  /\ match IntervalTier.maxTime self with
     | Some maxTime => max <= maxTime
     | None => True
     end.

(** Every interval of the tier carries the tier's [strict] flag. *)
Definition flag_propagated (self : IntervalTier.t) : Prop :=
  Forall (fun i => Interval.strict i = IntervalTier.strict self)
         (IntervalTier.intervals self).

(** The tier with the flag [b], on itself and on each of its intervals (as
    [TextGrid.append] leaves it): the same tier, strict or lenient. *)
Definition set_flags (b : bool) (self : IntervalTier.t) : IntervalTier.t :=
  IntervalTier.mk (IntervalTier.name self) (IntervalTier.minTime self)
    (IntervalTier.maxTime self)
    (map (set_Interval_strict b) (IntervalTier.intervals self)) b.

(** [for (min, max, mark) in ivs: self.add(min, max, mark)] *)
Fixpoint add_all (self : IntervalTier.t) (ivs : list (float * float * string))
  : py IntervalTier.t :=
  match ivs with
  | [] => ret self
  | (min, max, mark) :: ivs =>
      self <- IntervalTier_add self min max mark ;;
      add_all self ivs
  end.

(** What an interval holds, without its flag. *)
Definition entry (i : Interval.t) : float * float * string :=
  (Interval.minTime i, Interval.maxTime i, Interval.mark i).

(** The intervals [l] are, in order, those of the spans and marks [l']. *)
Definition same_entries (l : list Interval.t) (l' : list (Q * Q * string)) : Prop :=
  Forall2 (fun i e => Interval.minTime i == fst (fst e)
                      /\ Interval.maxTime i == snd (fst e)
                      /\ Interval.mark i = snd e) l l'.

(** The intervals [l] cover from [lo] to [hi] with no gap and no overlap:
    the first starts at [lo], each starts where the one before ends, the
    last ends at [hi]. *)
Fixpoint covers (lo : Q) (l : list Interval.t) (hi : Q) : Prop :=
  match l with
  | [] => lo == hi
  | i :: l => Interval.minTime i == lo /\ valid i /\ covers (Interval.maxTime i) l hi
  end.

(** The span of an entry [(min, max, mark)], and the entries that can be
    added: of positive duration, within the bounds of the tier. *)
Definition entry_span (e : float * float * string) : float * float := fst e.

Definition addable (self : IntervalTier.t) (e : float * float * string) : Prop :=
  fst (fst e) < snd (fst e) /\ within self (fst (fst e)) (snd (fst e)).

Definition disjoint_spans (a b : float * float * string) : Prop :=
  ~ spans_overlap (entry_span a) (entry_span b).

(** The two bound checks of [addInterval], and what it does once they
    have passed ([addInterval_checks]). *)
Definition too_early (self : IntervalTier.t) (x : Interval.t) : bool :=
  ltb (Interval.minTime x) (IntervalTier.minTime self).

Definition too_late (self : IntervalTier.t) (x : Interval.t) : bool :=
  match IntervalTier.maxTime self with
  | Some maxTime => truthy (Some maxTime) && gtb (Interval.maxTime x) maxTime
  | None => false
  end.

Definition place (self : IntervalTier.t) (x : Interval.t) : py IntervalTier.t :=
  i <- bisect_left (fun e => Interval_lt e (OInterval x)) (IntervalTier.intervals self) ;;
  match nth_error (IntervalTier.intervals self) i with
  | Some e => raise_if (Interval_eq e (OInterval x)) (ValueError [AInterval e])
  | None => ret tt
  end ;;
  ret (set_intervals self
         (list_insert i (set_Interval_strict (IntervalTier.strict self) x)
            (IntervalTier.intervals self))).

(** The scenario of the tier from 0 to 1 that holds [Interval(0.2, 0.5, "cat")]
    only. *)
Definition cat_tier : IntervalTier.t :=
  IntervalTier.mk (Some "word") (mkfloat 0 0) (Some (mkfloat 1 0))
    [Interval.mk (mkfloat 2 1) (mkfloat 5 1) "cat" true] true.

(** The text of lines, each ended by a line feed. *)
Fixpoint text_of_lines (lines : list string) : string :=
  match lines with
  | [] => ""%string
  | line :: lines => (line ++ NL ++ text_of_lines lines)%string
  end.

(** The scenario of the utterance of [k], [ae], [t cat], after the header
    and the quoted name of the label file. *)
Definition cat_mlf : string :=
  text_of_lines
    ["#!MLF!#"; DQ ++ "*/cat.lab" ++ DQ;
     "0 500000 k"; "500000 1200000 ae"; "1200000 1800000 t cat"; "."]%string.

(** The same utterance, ended by a record of two fields. *)
Definition cat_two_fields_mlf : string :=
  text_of_lines
    ["#!MLF!#"; DQ ++ "*/cat.lab" ++ DQ;
     "0 500000 k"; "500000 1200000 ae"; "1200000 1800000 t cat"; "x y"]%string.

(** An utterance without a record. *)
Definition empty_utterance_mlf : string :=
  text_of_lines ["#!MLF!#"; DQ ++ "*/cat.lab" ++ DQ; "."]%string.

(** An utterance of one record, without a word label. *)
Definition k_utterance_mlf : string :=
  text_of_lines ["#!MLF!#"; DQ ++ "*/k.lab" ++ DQ; "0 500000 k"; "."]%string.

(** The grid of the utterance [u] as the line that ends the utterance
    leaves it: the phones, and the words with the pending word added after
    them. *)
Definition sealed (u : utterance) : TextGrid.t :=
  set_tiers (grid u)
    (TextGrid.tiers (grid u)
     ++ [tier_set_strict (TextGrid.strict (grid u)) (ITier (phon u));
         tier_set_strict (TextGrid.strict (grid u))
           (ITier (set_intervals (word u)
                     (IntervalTier.intervals (word u)
                      ++ [Interval.mk (wsrt u) (wend u) (wmrk u)
                            (IntervalTier.strict (word u))])))]).

(** The number of fields of a line. *)
Definition fields (line : string) : nat := List.length (split (rstrip line)).

(** An interval of a TextGrid file, in the long form. *)
Definition interval_text (j : string) (xmin xmax : string) (text : string) : string :=
  text_of_lines
    [TAB ++ TAB ++ TAB ++ "intervals [" ++ j ++ "]:";
     TAB ++ TAB ++ TAB ++ TAB ++ "xmin = " ++ xmin;
     TAB ++ TAB ++ TAB ++ TAB ++ "xmax = " ++ xmax;
     TAB ++ TAB ++ TAB ++ TAB ++ "text = " ++ DQ ++ text ++ DQ]%string.

(** An utterance with the word [cat] pending from 0.12 to 0.18. *)
Definition cat_pending : utterance :=
  mk_utterance (TextGrid_init (Some "*/cat.lab"%string) (float_of_Z 0) None true)
    (IntervalTier_init (Some "phones") (float_of_Z 0) None)
    (IntervalTier_init (Some "words") (float_of_Z 0) None)
    "cat" (mkfloat 12000 5) (mkfloat 18000 5).

(* ------------------------------------------------------------------ *)
(** ** Written text and what is read back *)

(** [s] holds a line boundary. *)
Fixpoint has_linebreak (s : string) : bool :=
  match s with
  | EmptyString => false
  | String c r => is_linebreak c || has_linebreak r
  end.

(** No blank and no double quote. *)
Fixpoint plain (s : string) : bool :=
  match s with
  | EmptyString => true
  | String c r => negb (is_space c) && negb (Ascii.eqb c dquote) && plain r
  end.

(** Decimal digits only. *)
Fixpoint all_digits (s : string) : bool :=
  match s with
  | EmptyString => true
  | String c r => is_digit c && all_digits r
  end.

(** What does not start with a digit. *)
Definition no_digit_ahead (s : string) : bool :=
  match s with
  | EmptyString => true
  | String c _ => negb (is_digit c)
  end.

(** What a line starts with up to its bare value: blanks, a key without a
    double quote, and [ = ] for the first time at the very end. *)
Definition bare_key (pre : string) : bool :=
  match lstrip pre with
  | String a pre' =>
      negb (has_linebreak pre)
      && negb (contains DQ (String a pre'))
      && match after_first " = " pre' with
         | Some EmptyString => true
         | _ => false
         end
  | EmptyString => false
  end.

(** What a line starts with up to its quoted value: blanks, a key, and
    [ = ] with a double quote for the first time at the very end. *)
Definition quoted_key (pre : string) : bool :=
  match lstrip pre with
  | String a pre' =>
      negb (has_linebreak pre)
      && match after_first (" = " ++ DQ) pre' with
         | Some EmptyString => true
         | _ => false
         end
  | EmptyString => false
  end.

(** Line feed and carriage return *)
Definition LF : ascii := ascii_of_nat 10.
Definition CR : ascii := ascii_of_nat 13.

(** What a mark line starts with: blanks, then [text = ] or [mark = ] and
    a double quote. *)
Definition entry_key (pre : string) : bool :=
  negb (has_linebreak pre)
  && (String.eqb (lstrip pre) ("text = " ++ DQ) || String.eqb (lstrip pre) ("mark = " ++ DQ)).

(** What reading makes of a written time: it is rounded; the flag of a
    reread interval is that of its tier. *)
Definition round_interval (rd : nat) (strict : bool) (i : Interval.t) : Interval.t :=
  Interval.mk (round (Interval.minTime i) rd) (round (Interval.maxTime i) rd)
    (Interval.mark i) strict.

(** A point as [read] builds it, from the rounded time *)
Definition round_point (rd : nat) (p : Point.t) : Point.t :=
  Point_init (round (Point.time p) rd) (Point.mark p).

(** The intervals that [write] writes for a tier: [_fillInTheGaps] *)
Definition gap_filled (null : string) (t : IntervalTier.t) : list Interval.t :=
  match outcome (IntervalTier_fillInTheGaps t null) with
  | inr output => output
  | inl _ => []
  end.

(** What reading makes of a written tier: the name is kept, an interval
    tier holds the gap-filled intervals, every time is rounded, and the
    flags are those of the reading grid. *)
Definition reread (rd : nat) (strict : bool) (maxT : float) (null : string) (t : tier)
  : tier :=
  match t with
  | ITier t =>
      ITier (IntervalTier.mk (Some (format_name (IntervalTier.name t)))
               (round (IntervalTier.minTime t) rd) (Some (round maxT rd))
               (map (round_interval rd strict) (gap_filled null t)) strict)
  | PTier t =>
      PTier (PointTier.mk (Some (format_name (PointTier.name t))) (float_of_Z 0) None
               (map (fun p => set_Point_strict strict (round_point rd p))
                    (PointTier.points t))
               (Some strict))
  end.

(** The tiers whose written form reads back element by element. *)
Definition writable (rd : nat) (maxT : float) (null : string) (t : tier) : Prop :=
  match t with
  | ITier t =>
      has_linebreak (format_name (IntervalTier.name t)) = false
      /\ sorted_disjoint (IntervalTier.intervals t)
      /\ Forall (fun i => IntervalTier.minTime t <= Interval.minTime i
                          /\ Interval.maxTime i <= maxT)
                (IntervalTier.intervals t)
      /\ IntervalTier.minTime t <= maxT
      /\ match IntervalTier.maxTime t with Some x => Qof x <= maxT | None => True end
      /\ Forall (fun o => round (Interval.minTime o) rd < round (Interval.maxTime o) rd)
                (gap_filled null t)
  | PTier t =>
      has_linebreak (format_name (PointTier.name t)) = false
      /\ StronglySorted (fun a b => round (Point.time a) rd < round (Point.time b) rd)
                        (PointTier.points t)
      /\ Forall (fun p => 0 <= Point.time p) (PointTier.points t)
  end.

(** The number of elements written for a tier. *)
Definition written_len (null : string) (t : tier) : nat :=
  match t with
  | ITier t => List.length (gap_filled null t)
  | PTier t => List.length (PointTier.points t)
  end.

(** A tier that leaves no gap: its intervals chain from its [minTime] to
    its [maxTime], when it has one. *)
Definition gap_free (t : tier) : Prop :=
  match t with
  | ITier t =>
      exists hi,
        covers (IntervalTier.minTime t) (IntervalTier.intervals t) hi
        /\ match IntervalTier.maxTime t with Some x => Qof x <= hi | None => True end
  | PTier _ => True
  end.

(** The grid of the scenario: one tier, one interval. *)
Definition cat_grid : TextGrid.t :=
  TextGrid.mk None (mkfloat 0 0) (Some (mkfloat 1 0)) [ITier cat_tier] true.

(** A grid with a sparse interval tier, a point tier, and an interval
    tier that has no name and leaves no gap. *)
Definition cat_points_grid : TextGrid.t :=
  TextGrid.mk None (mkfloat 0 0) (Some (mkfloat 1 0))
    [ITier cat_tier;
     PTier (PointTier.mk (Some "tone") (mkfloat 0 0) None
              [Point.mk (mkfloat 25 2) "H" None; Point.mk (mkfloat 4 1) "L" None] None);
     ITier (IntervalTier.mk None (mkfloat 0 0) (Some (mkfloat 1 0))
              [Interval.mk (mkfloat 0 0) (mkfloat 1 0) "all" true] true)]
    true.

(** A grid of one tier that has no name and leaves no gap. *)
Definition unnamed_grid : TextGrid.t :=
  TextGrid.mk None (mkfloat 0 0) (Some (mkfloat 1 0))
    [ITier (IntervalTier.mk None (mkfloat 0 0) (Some (mkfloat 1 0))
              [Interval.mk (mkfloat 0 0) (mkfloat 1 0) "all" true] true)]
    true.

(* ------------------------------------------------------------------ *)
(** ** Further notions *)

(** Points in ascending order of time, no two at the same time. *)
Definition points_sorted (l : list Point.t) : Prop :=
  StronglySorted (fun a b => Point.time a < Point.time b) l.

(** The checks of the bounds in [addPoint] *)
Definition point_too_early (self : PointTier.t) (p : Point.t) : bool :=
  ltb (Point.time p) (PointTier.minTime self).

Definition point_too_late (self : PointTier.t) (p : Point.t) : bool :=
  truthy (PointTier.maxTime self)
  && match PointTier.maxTime self with
     | Some m => gtb (Point.time p) m
     | None => false
     end.

(** Equality of names is decidable. *)
Definition name_eq_dec (a b : option string) : {a = b} + {a <> b}.
Proof. decide equality. apply string_dec. Defined.

(** The tier and all its elements carry the flag [b]. *)
Definition tier_flags (b : bool) (t : tier) : Prop :=
  match t with
  | ITier t =>
      IntervalTier.strict t = b
      /\ Forall (fun i => Interval.strict i = b) (IntervalTier.intervals t)
  | PTier t =>
      PointTier.strict t = Some b
      /\ Forall (fun p => Point.strict p = Some b) (PointTier.points t)
  end.

(** [s] holds a newline of a file in text mode: a line feed or a carriage
    return. *)
Fixpoint has_newline (s : string) : bool :=
  match s with
  | EmptyString => false
  | String c r => Ascii.eqb c LF || Ascii.eqb c CR || has_newline r
  end.

(** A record of an utterance: fields with one blank between them, and the
    line feed. *)
Definition record3 (f0 f1 f2 : string) : string :=
  (f0 ++ " " ++ f1 ++ " " ++ f2 ++ NL)%string.

Definition record4 (f0 f1 f2 f3 : string) : string :=
  (f0 ++ " " ++ f1 ++ " " ++ f2 ++ " " ++ f3 ++ NL)%string.

(* ================================================================== *)
(** * Properties *)
(* ================================================================== *)

Unset Implicit Arguments.

(** ** Comparisons of times *)

Lemma ltb_true (x y : Q) : ltb x y = true <-> x < y.
Proof.
  unfold ltb. rewrite negb_true_iff, <- not_true_iff_false, Qle_bool_iff.
  split; [apply Qnot_le_lt | apply Qlt_not_le].
Qed.

Lemma ltb_false (x y : Q) : ltb x y = false <-> y <= x.
Proof.
  unfold ltb. rewrite negb_false_iff. apply Qle_bool_iff.
Qed.

Lemma geb_true (x y : Q) : geb x y = true <-> y <= x.
Proof. apply Qle_bool_iff. Qed.

Lemma geb_false (x y : Q) : geb x y = false <-> x < y.
Proof.
  unfold geb. rewrite <- not_true_iff_false, Qle_bool_iff.
  split; [apply Qnot_le_lt | apply Qlt_not_le].
Qed.

Lemma leb_true (x y : Q) : leb x y = true <-> x <= y.
Proof. apply Qle_bool_iff. Qed.

Lemma eqb_true (x y : Q) : eqb x y = true <-> x == y.
Proof. apply Qeq_bool_iff. Qed.

Lemma eqb_false (x y : Q) : eqb x y = false <-> ~ x == y.
Proof.
  unfold eqb. rewrite <- not_true_iff_false, Qeq_bool_iff. tauto.
Qed.

Lemma gtb_true (x y : Q) : gtb x y = true <-> y < x.
Proof. apply ltb_true. Qed.

Lemma gtb_false (x y : Q) : gtb x y = false <-> x <= y.
Proof. apply ltb_false. Qed.

(** Turns the boolean comparisons of the context and of the goal into
    propositions. *)
Ltac props :=
  repeat match goal with
    | H : ltb _ _ = true |- _ => apply ltb_true in H
    | H : ltb _ _ = false |- _ => apply ltb_false in H
    | H : gtb _ _ = true |- _ => apply gtb_true in H
    | H : gtb _ _ = false |- _ => apply gtb_false in H
    | H : geb _ _ = true |- _ => apply geb_true in H
    | H : geb _ _ = false |- _ => apply geb_false in H
    | H : leb _ _ = true |- _ => apply leb_true in H
    | H : eqb _ _ = true |- _ => apply eqb_true in H
    | H : eqb _ _ = false |- _ => apply eqb_false in H
    | |- ltb _ _ = true => apply ltb_true
    | |- ltb _ _ = false => apply ltb_false
    | |- gtb _ _ = true => apply gtb_true
    | |- gtb _ _ = false => apply gtb_false
    | |- geb _ _ = true => apply geb_true
    | |- geb _ _ = false => apply geb_false
    | |- leb _ _ = true => apply leb_true
    | |- eqb _ _ = true => apply eqb_true
    | |- eqb _ _ = false => apply eqb_false
    end.

(** ** The monad *)

Lemma bind_ret_l {A B} (a : A) (k : A -> py B) : bind (ret a) k = k a.
Proof. unfold bind, ret. destruct (k a). reflexivity. Qed.

Lemma bind_raise {A B} (e : exn) (k : A -> py B) : bind (raise e) k = raise e.
Proof. reflexivity. Qed.

Lemma bind_ret_r {A} (m : py A) : bind m (fun a => ret a) = m.
Proof.
  destruct m as [w [e | a]]; simpl; [reflexivity |].
  now rewrite app_nil_r.
Qed.

Lemma bind_assoc {A B C} (m : py A) (k : A -> py B) (h : B -> py C) :
  bind (bind m k) h = bind m (fun a => bind (k a) h).
Proof.
  destruct m as [w [e | a]]; simpl; [reflexivity |].
  destruct (k a) as [w' [e | b]]; simpl; [reflexivity |].
  destruct (h b) as [w'' r]. now rewrite app_assoc.
Qed.

Lemma bind_ext {A B} (m : py A) (k k' : A -> py B) :
  (forall a, k a = k' a) -> bind m k = bind m k'.
Proof.
  intros H. destruct m as [w [e | a]]; simpl; [reflexivity |]. now rewrite H.
Qed.

Lemma bind_value {A B} (w : list warning) (a : A) (k : A -> py B) :
  bind (w, inr a) k = (w ++ log (k a), outcome (k a)).
Proof. simpl. now destruct (k a). Qed.

Lemma raise_if_false (e : exn) : raise_if false e = ret tt.
Proof. reflexivity. Qed.

Lemma raise_if_true (e : exn) : raise_if true e = raise e.
Proof. reflexivity. Qed.

Lemma log_bind {A B} (m : py A) (k : A -> py B) :
  log m <> [] -> log (bind m k) <> [].
Proof.
  destruct m as [w [e | a]]; simpl; [auto |].
  destruct (k a); simpl. intros H E. apply app_eq_nil in E. tauto.
Qed.

(** ** [bisect_left] *)

Lemma mid_bounds (lo hi : nat) :
  (lo < hi)%nat -> (lo <= (lo + hi) / 2 < hi)%nat.
Proof.
  intros H. split.
  - apply Nat.div_le_lower_bound; lia.
  - apply Nat.Div0.div_lt_upper_bound; lia.
Qed.

Section BisectFacts.
Variable A : Type.
Variable lt : A -> py bool.

Lemma bisect_loop_O (a : list A) (lo hi : nat) :
  bisect_loop lt 0 a lo hi = ret lo.
Proof. simpl. now destruct (lo <? hi)%nat. Qed.

Lemma bisect_loop_S (n : nat) (a : list A) (lo hi : nat) :
  bisect_loop lt (S n) a lo hi =
  if (lo <? hi)%nat then
    match nth_error a ((lo + hi) / 2) with
    | None => raise IndexError
    | Some e =>
        b <- lt e ;;
        if b then bisect_loop lt n a ((lo + hi) / 2 + 1) hi
        else bisect_loop lt n a lo ((lo + hi) / 2)
    end
  else ret lo.
Proof. reflexivity. Qed.

(** The bound on the iterations does not matter once it is [hi - lo]. *)
Lemma bisect_loop_enough (n m : nat) (a : list A) :
  forall lo hi, (hi - lo <= n)%nat -> (hi - lo <= m)%nat ->
  bisect_loop lt n a lo hi = bisect_loop lt m a lo hi.
Proof.
  revert m. induction n as [| n IH]; intros m lo hi Hn Hm.
  - rewrite bisect_loop_O.
    destruct m; [now rewrite bisect_loop_O | rewrite bisect_loop_S].
    destruct (Nat.ltb_spec lo hi); [lia | reflexivity].
  - rewrite bisect_loop_S. destruct m as [| m].
    + rewrite bisect_loop_O. destruct (Nat.ltb_spec lo hi); [lia | reflexivity].
    + rewrite bisect_loop_S. destruct (Nat.ltb_spec lo hi) as [H | H]; [| reflexivity].
      pose proof (mid_bounds _ _ H) as Hmid.
      destruct (nth_error a ((lo + hi) / 2)); [| reflexivity].
      apply bind_ext. intros [|]; apply IH; lia.
Qed.

(** The loop, as the source writes it. *)
Lemma bisect_loop_unfold (a : list A) (lo hi : nat) :
  bisect_loop lt (hi - lo) a lo hi =
  if (lo <? hi)%nat then
    match nth_error a ((lo + hi) / 2) with
    | None => raise IndexError
    | Some e =>
        b <- lt e ;;
        if b then bisect_loop lt (hi - ((lo + hi) / 2 + 1)) a ((lo + hi) / 2 + 1) hi
        else bisect_loop lt ((lo + hi) / 2 - lo) a lo ((lo + hi) / 2)
    end
  else ret lo.
Proof.
  destruct (Nat.ltb_spec lo hi) as [H | H].
  - destruct (hi - lo)%nat as [| n] eqn:E; [lia |].
    rewrite bisect_loop_S. destruct (Nat.ltb_spec lo hi); [| lia].
    pose proof (mid_bounds _ _ H) as Hmid.
    destruct (nth_error a ((lo + hi) / 2)); [| reflexivity].
    apply bind_ext. intros [|]; apply bisect_loop_enough; lia.
  - replace (hi - lo)%nat with 0%nat by lia. apply bisect_loop_O.
Qed.

(** On a list that splits into elements below the searched value and
    elements not below it, compared without a warning or an exception,
    the search returns the length of the first part. *)
Lemma bisect_loop_split (below rest : list A) :
  (forall e, In e below -> lt e = ret true) ->
  (forall e, In e rest -> lt e = ret false) ->
  forall n lo hi,
    (lo <= length below <= hi)%nat -> (hi <= length (below ++ rest))%nat ->
    (hi - lo <= n)%nat ->
    bisect_loop lt n (below ++ rest) lo hi = ret (length below).
Proof.
  intros Hb Hr. induction n as [| n IH]; intros lo hi Hlo Hhi Hn.
  - rewrite bisect_loop_O. unfold ret. do 2 f_equal. lia.
  - rewrite bisect_loop_S.
    destruct (Nat.ltb_spec lo hi) as [H | H]; [| unfold ret; do 2 f_equal; lia].
    pose proof (mid_bounds _ _ H) as Hmid.
    set (mid := ((lo + hi) / 2)%nat) in *.
    destruct (nth_error (below ++ rest) mid) as [e |] eqn:E.
    + destruct (Nat.lt_ge_cases mid (length below)) as [Hm | Hm].
      * rewrite nth_error_app1 in E by assumption.
        rewrite (Hb e (nth_error_In _ _ E)), bind_ret_l. apply IH; lia.
      * rewrite nth_error_app2 in E by assumption.
        rewrite (Hr e (nth_error_In _ _ E)), bind_ret_l. apply IH; lia.
    + apply nth_error_None in E. lia.
Qed.

Lemma bisect_left_split (below rest : list A) :
  (forall e, In e below -> lt e = ret true) ->
  (forall e, In e rest -> lt e = ret false) ->
  bisect_left lt (below ++ rest) = ret (length below).
Proof.
  intros Hb Hr. unfold bisect_left.
  apply bisect_loop_split; auto; rewrite ?length_app; lia.
Qed.

(** When a non-empty middle part separates the two, the search compares
    an element of the middle part before anything is logged or
    raised. *)
Lemma bisect_loop_probe (below middle rest : list A) :
  (forall e, In e below -> lt e = ret true) ->
  (forall e, In e rest -> lt e = ret false) ->
  middle <> [] ->
  forall n lo hi,
    (lo <= length below)%nat -> (length below + length middle <= hi)%nat ->
    (hi <= length (below ++ middle ++ rest))%nat -> (hi - lo <= n)%nat ->
    exists e k, In e middle /\
      bisect_loop lt n (below ++ middle ++ rest) lo hi = bind (lt e) k.
Proof.
  intros Hb Hr Hm. induction n as [| n IH]; intros lo hi Hlo Hmi Hhi Hn.
  - destruct middle; [congruence | simpl in Hmi; lia].
  - assert (Hne : length middle <> 0%nat) by (destruct middle; simpl; congruence).
    rewrite bisect_loop_S. destruct (Nat.ltb_spec lo hi) as [H | H]; [| lia].
    pose proof (mid_bounds _ _ H) as Hmid.
    set (mid := ((lo + hi) / 2)%nat) in *.
    destruct (nth_error (below ++ middle ++ rest) mid) as [e |] eqn:E.
    + destruct (Nat.lt_ge_cases mid (length below)) as [Hl | Hl].
      * rewrite nth_error_app1 in E by assumption.
        rewrite (Hb e (nth_error_In _ _ E)), bind_ret_l. apply IH; lia.
      * rewrite nth_error_app2 in E by assumption.
        destruct (Nat.lt_ge_cases (mid - length below) (length middle)) as [Hl' | Hl'].
        -- rewrite nth_error_app1 in E by assumption.
           exists e. eexists. split; [eapply nth_error_In; eassumption | reflexivity].
        -- rewrite nth_error_app2 in E by assumption.
           rewrite (Hr e (nth_error_In _ _ E)), bind_ret_l. apply IH; lia.
    + apply nth_error_None in E. lia.
Qed.

(** When no comparison raises, the search raises nothing and returns
    the length of the part below, whatever is logged. *)
Lemma bisect_loop_outcome (p : A -> bool) (below rest : list A) :
  (forall e, In e (below ++ rest) -> outcome (lt e) = inr (p e)) ->
  (forall e, In e below -> p e = true) ->
  (forall e, In e rest -> p e = false) ->
  forall n lo hi,
    (lo <= length below <= hi)%nat -> (hi <= length (below ++ rest))%nat ->
    (hi - lo <= n)%nat ->
    outcome (bisect_loop lt n (below ++ rest) lo hi) = inr (length below).
Proof.
  intros Ho Hb Hr. induction n as [| n IH]; intros lo hi Hlo Hhi Hn.
  - rewrite bisect_loop_O. simpl. do 2 f_equal. lia.
  - rewrite bisect_loop_S.
    destruct (Nat.ltb_spec lo hi) as [H | H]; [| simpl; do 2 f_equal; lia].
    pose proof (mid_bounds _ _ H) as Hmid.
    set (mid := ((lo + hi) / 2)%nat) in *.
    destruct (nth_error (below ++ rest) mid) as [e |] eqn:E.
    + pose proof (Ho e (nth_error_In _ _ E)) as Hoe.
      destruct (lt e) as [w [x | b]]; simpl in Hoe; [discriminate |].
      injection Hoe as ->.
      destruct (Nat.lt_ge_cases mid (length below)) as [Hm | Hm].
      * rewrite nth_error_app1 in E by assumption.
        rewrite (Hb e (nth_error_In _ _ E)). simpl.
        specialize (IH (mid + 1)%nat hi).
        destruct (bisect_loop lt n (below ++ rest) (mid + 1) hi). simpl in *.
        apply IH; lia.
      * rewrite nth_error_app2 in E by assumption.
        rewrite (Hr e (nth_error_In _ _ E)). simpl.
        specialize (IH lo mid).
        destruct (bisect_loop lt n (below ++ rest) lo mid). simpl in *.
        apply IH; lia.
    + apply nth_error_None in E. lia.
Qed.

Lemma list_insert_app (x : A) (l1 l2 : list A) :
  list_insert (length l1) x (l1 ++ l2) = l1 ++ x :: l2.
Proof.
  unfold list_insert.
  rewrite firstn_app, skipn_app, Nat.sub_diag, firstn_all, skipn_all.
  simpl. now rewrite app_nil_r.
Qed.

Lemma nth_error_split (l1 l2 : list A) :
  nth_error (l1 ++ l2) (length l1) = hd_error l2.
Proof.
  rewrite nth_error_app2, Nat.sub_diag by lia. now destruct l2.
Qed.
End BisectFacts.

(** ** Sorted lists *)

Lemma StronglySorted_app {A} (R : A -> A -> Prop) (l1 l2 : list A) :
  StronglySorted R l1 -> StronglySorted R l2 ->
  (forall a b, In a l1 -> In b l2 -> R a b) ->
  StronglySorted R (l1 ++ l2).
Proof.
  induction l1 as [| x l1 IH]; intros H1 H2 H; simpl; [assumption |].
  inversion H1; subst. constructor.
  - apply IH; auto. intros; apply H; simpl; auto.
  - apply Forall_app. split; [assumption |].
    apply Forall_forall. intros b Hb. apply H; simpl; auto.
Qed.

Lemma StronglySorted_app_inv {A} (R : A -> A -> Prop) (l1 l2 : list A) :
  StronglySorted R (l1 ++ l2) ->
  StronglySorted R l1 /\ StronglySorted R l2 /\
  (forall a b, In a l1 -> In b l2 -> R a b).
Proof.
  induction l1 as [| x l1 IH]; simpl; intros H.
  - repeat split; [constructor | assumption | contradiction].
  - inversion H; subst. destruct (IH H2) as (S1 & S2 & S12).
    apply Forall_app in H3 as [F1 F2]. repeat split; auto.
    + constructor; assumption.
    + intros a b [-> | Ha] Hb; [| auto].
      rewrite Forall_forall in F2. auto.
Qed.

Lemma StronglySorted_weaken {A} (R R' : A -> A -> Prop) (l : list A) :
  (forall a b, In a l -> In b l -> R a b -> R' a b) ->
  StronglySorted R l -> StronglySorted R' l.
Proof.
  induction l as [| x l IH]; intros H S; [constructor |].
  inversion S; subst. constructor.
  - apply IH; auto. intros; apply H; simpl; auto.
  - rewrite Forall_forall in *. intros b Hb. apply H; simpl; auto.
Qed.

(** ** Intervals *)

Lemma overlaps_true (a b : Interval.t) :
  Interval_overlaps a b = true <-> spans_overlap (span a) (span b).
Proof.
  unfold Interval_overlaps, spans_overlap, span. simpl.
  rewrite andb_true_iff, !ltb_true. tauto.
Qed.

Lemma overlaps_false (a b : Interval.t) :
  Interval_overlaps a b = false <-> before a b \/ before b a.
Proof.
  unfold Interval_overlaps, before.
  rewrite andb_false_iff, !ltb_false. tauto.
Qed.

Lemma overlaps_sym (a b : Interval.t) :
  Interval_overlaps a b = Interval_overlaps b a.
Proof. unfold Interval_overlaps. apply andb_comm. Qed.

Lemma Interval_init_ok (minTime maxTime : float) (mark : string) :
  minTime < maxTime ->
  Interval_init minTime maxTime mark = ret (Interval.mk minTime maxTime mark true).
Proof.
  intros H. unfold Interval_init.
  destruct (geb minTime maxTime) eqn:E; [props; lra | reflexivity].
Qed.

Lemma Interval_init_degenerate (minTime maxTime : float) (mark : string) :
  maxTime <= minTime ->
  Interval_init minTime maxTime mark
  = raise (ValueError [AFloat minTime; AFloat maxTime]).
Proof.
  intros H. unfold Interval_init.
  destruct (geb minTime maxTime) eqn:E; [reflexivity | props; lra].
Qed.

Lemma Interval_lt_before (e x : Interval.t) :
  valid e -> before e x -> Interval_lt e (OInterval x) = ret true.
Proof.
  unfold valid, before. intros V B. unfold Interval_lt.
  assert (O : Interval_overlaps e x = false) by (apply overlaps_false; now left).
  rewrite O, andb_false_r. f_equal. f_equal. props. lra.
Qed.

Lemma Interval_lt_after (e x : Interval.t) :
  valid x -> before x e -> Interval_lt e (OInterval x) = ret false.
Proof.
  unfold valid, before. intros V B. unfold Interval_lt.
  assert (O : Interval_overlaps e x = false) by (apply overlaps_false; now right).
  rewrite O, andb_false_r. f_equal. f_equal. props. lra.
Qed.

Lemma Interval_lt_overlap_strict (e x : Interval.t) :
  Interval.strict e = true -> Interval_overlaps e x = true ->
  Interval_lt e (OInterval x) = raise (ValueError [AInterval e; AInterval x]).
Proof. intros S O. unfold Interval_lt. now rewrite S, O. Qed.

Lemma Interval_lt_overlap_lenient (e x : Interval.t) :
  Interval.strict e = false -> Interval_overlaps e x = true ->
  Interval_lt e (OInterval x)
  = ([overlap_warning e], inr (ltb (Interval.minTime e) (Interval.minTime x))).
Proof. intros S O. unfold Interval_lt. now rewrite S, O. Qed.

Lemma Interval_lt_lenient_outcome (e x : Interval.t) :
  Interval.strict e = false ->
  outcome (Interval_lt e (OInterval x))
  = inr (ltb (Interval.minTime e) (Interval.minTime x)).
Proof.
  intros S. unfold Interval_lt. rewrite S. simpl.
  now destruct (Interval_overlaps e x).
Qed.

(** A sorted list without overlaps splits, for an interval [x], into the
    intervals before [x], those that overlap [x] and those after [x]. *)
Lemma sorted_disjoint_split (x : Interval.t) (l : list Interval.t) :
  valid x -> sorted_disjoint l ->
  exists l1 l2 l3,
    l = l1 ++ l2 ++ l3
    /\ Forall (fun e => before e x) l1
    /\ Forall (fun e => Interval_overlaps e x = true) l2
    /\ Forall (fun e => before x e) l3.
Proof.
  intros Vx [V S]. induction l as [| e l IH].
  - exists [], [], []. repeat split; constructor.
  - inversion V as [| ? ? Ve Vl]; subst. inversion S as [| ? ? Sl Fe]; subst.
    destruct (IH Vl Sl) as (l1 & l2 & l3 & -> & F1 & F2 & F3).
    destruct (Interval_overlaps e x) eqn:O.
    + (* e overlaps x: nothing after e is before x *)
      destruct l1 as [| a l1].
      * exists [], (e :: l2), l3. repeat split; auto.
      * exfalso. apply overlaps_true in O. destruct O as [O1 O2]. simpl in O1, O2.
        apply Forall_inv in Fe, F1, Vl. unfold valid, before in *. lra.
    + apply overlaps_false in O. destruct O as [O | O].
      * exists (e :: l1), l2, l3. repeat split; auto.
      * (* x is before e: so it is before all that follows e *)
        destruct l1 as [| a l1].
        -- destruct l2 as [| b l2].
           ++ exists [], [], (e :: l3). repeat split; auto.
           ++ exfalso. apply Forall_inv in Fe, F2.
              apply overlaps_true in F2. destruct F2 as [O1 O2]. simpl in O1, O2.
              unfold valid, before in *. lra.
        -- exfalso. apply Forall_inv in Fe, F1, Vl. unfold valid, before in *. lra.
Qed.

Lemma sorted_disjoint_by_start (l : list Interval.t) :
  sorted_disjoint l -> sorted_by_start l.
Proof.
  intros [V S]. unfold sorted_by_start.
  eapply StronglySorted_weaken; [| exact S].
  intros a b Ha _ B. rewrite Forall_forall in V. specialize (V a Ha).
  unfold valid, before in *. lra.
Qed.

(** The list with [x] put between the intervals before it and those after
    it is sorted and without overlaps. *)
Lemma sorted_disjoint_insert (x : Interval.t) (l1 l3 : list Interval.t) :
  valid x -> sorted_disjoint (l1 ++ l3) ->
  Forall (fun e => before e x) l1 -> Forall (fun e => before x e) l3 ->
  sorted_disjoint (l1 ++ x :: l3).
Proof.
  intros Vx [V S] F1 F3.
  apply Forall_app in V as [V1 V3].
  apply StronglySorted_app_inv in S as (S1 & S3 & S13).
  split.
  - apply Forall_app. split; [assumption | now constructor].
  - apply StronglySorted_app; [assumption | now constructor |].
    intros a b Ha [<- | Hb]; [| auto].
    rewrite Forall_forall in F1. auto.
Qed.

(** ** [IntervalTier.addInterval] *)

Lemma addInterval_checks (self : IntervalTier.t) (x : Interval.t) :
  IntervalTier_addInterval self x =
  if too_early self x then raise (ValueError [AFloat (IntervalTier.minTime self)])
  else if too_late self x
       then match IntervalTier.maxTime self with
            | Some maxTime => raise (ValueError [AFloat maxTime])
            | None => place self x
            end
       else place self x.
Proof.
  unfold IntervalTier_addInterval, too_early, too_late, place.
  destruct (ltb (Interval.minTime x) (IntervalTier.minTime self)); [reflexivity |].
  rewrite raise_if_false, bind_ret_l.
  destruct (IntervalTier.maxTime self) as [maxTime |].
  - destruct (truthy (Some maxTime) && gtb (Interval.maxTime x) maxTime);
      [reflexivity | now rewrite raise_if_false, bind_ret_l].
  - now rewrite bind_ret_l.
Qed.

Lemma within_checks (self : IntervalTier.t) (x : Interval.t) :
  within self (Interval.minTime x) (Interval.maxTime x) ->
  too_early self x = false /\ too_late self x = false.
Proof.
  intros [Hmin Hmax]. unfold too_early, too_late. split; [props; assumption |].
  destruct (IntervalTier.maxTime self) as [maxTime |]; [| reflexivity].
  apply andb_false_iff. right. props. assumption.
Qed.

Lemma addInterval_within (self : IntervalTier.t) (x : Interval.t) :
  within self (Interval.minTime x) (Interval.maxTime x) ->
  IntervalTier_addInterval self x = place self x.
Proof.
  intros W. destruct (within_checks self x W) as [E L].
  now rewrite addInterval_checks, E, L.
Qed.

(** An interval that overlaps nothing goes between the intervals before it
    and those after it; the flags play no part. *)
Lemma place_free (self : IntervalTier.t) (x : Interval.t) :
  valid x ->
  sorted_disjoint (IntervalTier.intervals self) ->
  Forall (fun e => Interval_overlaps e x = false) (IntervalTier.intervals self) ->
  exists l1 l3,
    IntervalTier.intervals self = l1 ++ l3
    /\ Forall (fun e => before e x) l1
    /\ Forall (fun e => before x e) l3
    /\ place self x
       = ret (set_intervals self
                (l1 ++ set_Interval_strict (IntervalTier.strict self) x :: l3)).
Proof.
  intros Vx SD Free.
  destruct (sorted_disjoint_split x _ Vx SD) as (l1 & l2 & l3 & E & F1 & F2 & F3).
  destruct l2 as [| b l2].
  - simpl in E. exists l1, l3. repeat split; auto.
    unfold place. rewrite E.
    destruct SD as [V _]. rewrite E in V. apply Forall_app in V as [V1 V3].
    rewrite bisect_left_split.
    + rewrite bind_ret_l, nth_error_split, list_insert_app.
      destruct l3 as [| c l3]; cbn [hd_error]; [now rewrite bind_ret_l |].
      apply Forall_inv in F3. unfold before, valid in *.
      unfold Interval_eq.
      replace (eqb (Interval.minTime c) (Interval.minTime x)) with false
        by (symmetry; props; lra).
      now rewrite raise_if_false, bind_ret_l.
    + intros e He. rewrite Forall_forall in V1, F1. now apply Interval_lt_before; auto.
    + intros e He. rewrite Forall_forall in F3. now apply Interval_lt_after; auto.
  - exfalso. rewrite E in Free. apply Forall_app in Free as [_ Free].
    apply Forall_inv in Free. apply Forall_inv in F2. congruence.
Qed.

(** In a sorted list without overlaps, an interval that overlaps some
    element meets one it overlaps in the search, before any other
    overlap. *)
Lemma bisect_left_meets_overlap (x : Interval.t) (l : list Interval.t) :
  valid x -> sorted_disjoint l ->
  Exists (fun e => Interval_overlaps e x = true) l ->
  exists b k,
    In b l /\ Interval_overlaps b x = true
    /\ bisect_left (fun e => Interval_lt e (OInterval x)) l
       = bind (Interval_lt b (OInterval x)) k.
Proof.
  intros Vx SD Ov.
  destruct (sorted_disjoint_split x _ Vx SD) as (l1 & l2 & l3 & E & F1 & F2 & F3).
  destruct SD as [V _]. rewrite E in V, Ov.
  apply Forall_app in V as [V1 V]. apply Forall_app in V as [V2 V3].
  assert (Hne : l2 <> []).
  { intros ->. simpl in Ov. apply Exists_app in Ov.
    rewrite !Exists_exists in Ov. rewrite Forall_forall in F1, F3.
    destruct Ov as [(e & He & O) | (e & He & O)].
    - assert (Interval_overlaps e x = false) by (apply overlaps_false; left; auto).
      congruence.
    - assert (Interval_overlaps e x = false) by (apply overlaps_false; right; auto).
      congruence. }
  assert (P : exists e k, In e l2 /\
            bisect_left (fun e => Interval_lt e (OInterval x)) (l1 ++ l2 ++ l3)
            = bind (Interval_lt e (OInterval x)) k).
  { unfold bisect_left. apply bisect_loop_probe; auto; rewrite ?length_app; try lia.
    - intros e He. rewrite Forall_forall in V1, F1. now apply Interval_lt_before; auto.
    - intros e He. rewrite Forall_forall in F3. now apply Interval_lt_after; auto. }
  destruct P as (b & k & Hb & P).
  exists b, k. repeat split.
  - rewrite E. apply in_or_app. right. apply in_or_app. now left.
  - rewrite Forall_forall in F2. auto.
  - now rewrite <- E in P.
Qed.

(** In a tier whose intervals are strict, that comparison raises with the
    two intervals. *)
Lemma place_overlap_raises (self : IntervalTier.t) (x : Interval.t) :
  valid x ->
  sorted_disjoint (IntervalTier.intervals self) ->
  Forall (fun e => Interval.strict e = true) (IntervalTier.intervals self) ->
  Exists (fun e => Interval_overlaps e x = true) (IntervalTier.intervals self) ->
  exists b,
    In b (IntervalTier.intervals self)
    /\ Interval_overlaps b x = true
    /\ place self x = raise (ValueError [AInterval b; AInterval x]).
Proof.
  intros Vx SD St Ov.
  destruct (bisect_left_meets_overlap x _ Vx SD Ov) as (b & k & Hb & Ob & P).
  exists b. repeat split; auto.
  unfold place. rewrite P.
  rewrite Interval_lt_overlap_strict; [reflexivity | | assumption].
  rewrite Forall_forall in St. auto.
Qed.

Lemma Forall_overlaps_dec (x : Interval.t) (l : list Interval.t) :
  Forall (fun e => Interval_overlaps e x = false) l
  \/ Exists (fun e => Interval_overlaps e x = true) l.
Proof.
  induction l as [| e l [IH | IH]].
  - left. constructor.
  - destruct (Interval_overlaps e x) eqn:O.
    + right. now constructor.
    + left. now constructor.
  - right. now constructor 2.
Qed.

(** A successful [addInterval] into a strict tier whose intervals are
    sorted, without overlaps and strict keeps them so, and logs
    nothing. *)
Lemma addInterval_keeps_sorted (self self' : IntervalTier.t) (x : Interval.t)
    (w : list warning) :
  valid x ->
  IntervalTier.strict self = true ->
  flag_propagated self ->
  sorted_disjoint (IntervalTier.intervals self) ->
  IntervalTier_addInterval self x = (w, inr self') ->
  w = []
  /\ sorted_disjoint (IntervalTier.intervals self')
  /\ flag_propagated self'
  /\ IntervalTier.strict self' = true
  /\ Permutation (IntervalTier.intervals self')
       (set_Interval_strict true x :: IntervalTier.intervals self).
Proof.
  intros Vx St FP SD R.
  assert (P : place self x = (w, inr self')).
  { rewrite addInterval_checks in R.
    destruct (too_early self x); [discriminate |].
    destruct (too_late self x); [| assumption].
    destruct (IntervalTier.maxTime self); [discriminate | assumption]. }
  clear R. unfold flag_propagated in FP. rewrite St in FP.
  destruct (Forall_overlaps_dec x (IntervalTier.intervals self)) as [Free | Ov].
  - destruct (place_free self x Vx SD Free) as (l1 & l3 & E & F1 & F3 & R).
    rewrite R in P. injection P as <- <-. rewrite St. simpl.
    split; [reflexivity |]. split; [| split; [| split]].
    + rewrite E in SD. now apply sorted_disjoint_insert.
    + unfold flag_propagated. simpl. rewrite St. rewrite E in FP.
      apply Forall_app in FP as [FP1 FP3]. apply Forall_app.
      split; [assumption | constructor; [reflexivity | assumption]].
    + assumption.
    + rewrite E. symmetry. apply Permutation_middle.
  - destruct (place_overlap_raises self x Vx SD FP Ov) as (b & _ & _ & R).
    rewrite R in P. discriminate.
Qed.

(** ** [IntervalTier.add] *)

Lemma add_is_addInterval (self : IntervalTier.t) (min max : float) (mark : string) :
  min < max ->
  IntervalTier_add self min max mark
  = IntervalTier_addInterval self
      (Interval.mk min max mark (IntervalTier.strict self)).
Proof.
  intros H. unfold IntervalTier_add. now rewrite Interval_init_ok, bind_ret_l.
Qed.

Lemma add_degenerate (self : IntervalTier.t) (min max : float) (mark : string) :
  max <= min ->
  IntervalTier_add self min max mark = raise (ValueError [AFloat min; AFloat max]).
Proof.
  intros H. unfold IntervalTier_add. now rewrite Interval_init_degenerate.
Qed.

(** Adding an entry that overlaps nothing in the tier. *)
Lemma add_free (self : IntervalTier.t) (e : float * float * string) :
  addable self e ->
  sorted_disjoint (IntervalTier.intervals self) ->
  Forall (fun i => ~ spans_overlap (span i) (entry_span e)) (IntervalTier.intervals self) ->
  exists l1 l3 x,
    IntervalTier.intervals self = l1 ++ l3
    /\ entry x = e
    /\ Interval.strict x = IntervalTier.strict self
    /\ sorted_disjoint (l1 ++ x :: l3)
    /\ IntervalTier_add self (fst (fst e)) (snd (fst e)) (snd e)
       = ret (set_intervals self (l1 ++ x :: l3)).
Proof.
  destruct e as [[min max] mark]. unfold addable. simpl. intros [V W] SD Free.
  set (x := Interval.mk min max mark (IntervalTier.strict self)).
  assert (Vx : valid x) by exact V.
  assert (Free' : Forall (fun i => Interval_overlaps i x = false)
                         (IntervalTier.intervals self)).
  { eapply Forall_impl; [| exact Free]. intros i Hi. simpl in Hi.
    apply not_true_is_false. intros O. apply Hi. now apply overlaps_true in O. }
  destruct (place_free self x Vx SD Free') as (l1 & l3 & E & F1 & F3 & R).
  exists l1, l3, x. repeat split; auto.
  - rewrite E in SD. destruct (sorted_disjoint_insert x l1 l3 Vx SD F1 F3). assumption.
  - rewrite E in SD. destruct (sorted_disjoint_insert x l1 l3 Vx SD F1 F3). assumption.
  - rewrite add_is_addInterval by assumption.
    rewrite addInterval_within by exact W. exact R.
Qed.

Lemma add_all_free (ivs : list (float * float * string)) :
  forall self,
    sorted_disjoint (IntervalTier.intervals self) ->
    Forall (addable self) ivs ->
    ForallOrdPairs disjoint_spans ivs ->
    Forall (fun e => Forall (fun i => ~ spans_overlap (span i) (entry_span e))
                       (IntervalTier.intervals self)) ivs ->
    exists t,
      add_all self ivs = ret t
      /\ IntervalTier.strict t = IntervalTier.strict self
      /\ sorted_disjoint (IntervalTier.intervals t)
      /\ Permutation (map entry (IntervalTier.intervals t))
           (map entry (IntervalTier.intervals self) ++ ivs).
Proof.
  induction ivs as [| e ivs IH]; intros self SD Ad Pw Free.
  - exists self. simpl. rewrite app_nil_r. auto.
  - inversion Ad as [| ? ? Ae Ar]; subst. inversion Pw as [| ? ? Pe Pr]; subst.
    inversion Free as [| ? ? Fe Fr]; subst.
    destruct (add_free self e Ae SD Fe) as (l1 & l3 & x & E & Ex & Sx & SD' & R).
    destruct (IH (set_intervals self (l1 ++ x :: l3))) as (t & Rt & St & SDt & Pt);
      auto.
    + simpl. apply Forall_forall. intros e' He'.
      apply Forall_app. rewrite Forall_forall in Fr. specialize (Fr e' He').
      rewrite E in Fr. apply Forall_app in Fr as [Fr1 Fr3].
      split; [assumption |]. constructor; [| assumption].
      rewrite Forall_forall in Pe. specialize (Pe e' He').
      unfold disjoint_spans in Pe. rewrite <- Ex in Pe. exact Pe.
    + exists t. split; [| split; [| split; [assumption |]]].
      * destruct e as [[min max] mark]. simpl in R |- *. now rewrite R, bind_ret_l.
      * exact St.
      * rewrite Pt. simpl. rewrite E, !map_app. simpl. rewrite Ex.
        rewrite <- !app_assoc. simpl. apply Permutation_app_head.
        apply Permutation_middle.
Qed.

Lemma ForallOrdPairs_firstn {A} (R : A -> A -> Prop) (l : list A) (k : nat) :
  ForallOrdPairs R l -> ForallOrdPairs R (firstn k l).
Proof.
  intros H. revert k. induction H as [| e l Fe Pl IH]; intros k.
  - rewrite firstn_nil. constructor.
  - destruct k; simpl; constructor; [| apply IH].
    rewrite <- (firstn_skipn k l) in Fe. now apply Forall_app in Fe.
Qed.

(** C2. Mutually non-overlapping intervals, each of positive duration and
    within the bounds of a new (strict) IntervalTier, are added in the order
    they come in, whatever it is: every add succeeds, and after each of them
    the tier iterates over the intervals added so far in ascending order of
    start time. *)
Theorem add_in_any_order_sorted
    (name : option string) (minTime : float) (maxTime : option float)
    (ivs : list (float * float * string)) :
  Forall (addable (IntervalTier_init name minTime maxTime)) ivs ->
  ForallOrdPairs disjoint_spans ivs ->
  forall k,
  exists t,
    add_all (IntervalTier_init name minTime maxTime) (firstn k ivs) = ret t
    /\ IntervalTier.strict t = true
    /\ sorted_by_start (IntervalTier.intervals t)
    /\ Permutation (map entry (IntervalTier.intervals t)) (firstn k ivs).
Proof.
  intros Ad Pw k.
  destruct (add_all_free (firstn k ivs) (IntervalTier_init name minTime maxTime))
    as (t & R & St & SD & P).
  - split; constructor.
  - rewrite <- (firstn_skipn k ivs) in Ad. now apply Forall_app in Ad.
  - now apply ForallOrdPairs_firstn.
  - apply Forall_forall. intros e _. constructor.
  - exists t. split; [exact R |]. split; [exact St |].
    split; [now apply sorted_disjoint_by_start | exact P].
Qed.

Lemma add_in_any_order_sorted_witness :
  exists t,
    add_all (IntervalTier_init (Some "w") (mkfloat 0 0) (Some (mkfloat 10 0)))
      (firstn 3 [(mkfloat 5 0, mkfloat 6 0, "c"%string);
                 (mkfloat 1 0, mkfloat 2 0, "a"%string);
                 (mkfloat 3 0, mkfloat 4 0, "b"%string)]) = ret t
    /\ IntervalTier.strict t = true
    /\ sorted_by_start (IntervalTier.intervals t)
    /\ Permutation (map entry (IntervalTier.intervals t))
         (firstn 3 [(mkfloat 5 0, mkfloat 6 0, "c"%string);
                    (mkfloat 1 0, mkfloat 2 0, "a"%string);
                    (mkfloat 3 0, mkfloat 4 0, "b"%string)]).
Proof.
  apply (add_in_any_order_sorted (Some "w"%string) (mkfloat 0 0) (Some (mkfloat 10 0))).
  - repeat constructor; simpl; unfold Qof, Qlt, Qle; simpl; lia.
  - repeat constructor; unfold disjoint_spans, spans_overlap; simpl;
      unfold Qof, Qlt; simpl; lia.
Defined.

(** ** Overlaps: strict and lenient tiers *)

(** A list in ascending order of start time splits at any time. *)
Lemma sorted_by_start_split (x : Q) (l : list Interval.t) :
  sorted_by_start l ->
  exists l1 l2,
    l = l1 ++ l2
    /\ Forall (fun e => Interval.minTime e < x) l1
    /\ Forall (fun e => x <= Interval.minTime e) l2.
Proof.
  induction l as [| e l IH]; intros S.
  - exists [], []. repeat split; constructor.
  - inversion S as [| ? ? Sl Fe]; subst.
    destruct (Qlt_le_dec (Interval.minTime e) x) as [H | H].
    + destruct (IH Sl) as (l1 & l2 & -> & F1 & F2).
      exists (e :: l1), l2. repeat split; auto.
    + exists [], (e :: l). repeat split; auto. constructor; [assumption |].
      eapply Forall_impl; [| exact Fe]. simpl. intros a Ha. lra.
Qed.

Lemma Interval_eq_same_span (e x : Interval.t) :
  Interval_eq e (OInterval x) = true <-> same_span e x.
Proof.
  unfold Interval_eq, same_span.
  destruct (eqb (Interval.minTime e) (Interval.minTime x)) eqn:E1;
    destruct (eqb (Interval.maxTime e) (Interval.maxTime x)) eqn:E2; props;
    split; intros H; try discriminate; try tauto.
Qed.

(** In a tier whose intervals are lenient no comparison raises: the new
    interval goes where the start times say, unless the interval there has
    its very bounds. *)
Lemma place_lenient (self : IntervalTier.t) (x : Interval.t) :
  sorted_by_start (IntervalTier.intervals self) ->
  Forall (fun e => Interval.strict e = false) (IntervalTier.intervals self) ->
  Forall (fun e => ~ same_span e x) (IntervalTier.intervals self) ->
  exists w l1 l2,
    IntervalTier.intervals self = l1 ++ l2
    /\ Forall (fun e => Interval.minTime e < Interval.minTime x) l1
    /\ Forall (fun e => Interval.minTime x <= Interval.minTime e) l2
    /\ place self x
       = (w, inr (set_intervals self
                    (l1 ++ set_Interval_strict (IntervalTier.strict self) x :: l2)))
    /\ w = log (bisect_left (fun e => Interval_lt e (OInterval x))
                  (IntervalTier.intervals self)).
Proof.
  intros S L N.
  destruct (sorted_by_start_split (Interval.minTime x) _ S) as (l1 & l2 & E & F1 & F2).
  assert (O : outcome (bisect_left (fun e => Interval_lt e (OInterval x))
                         (IntervalTier.intervals self)) = inr (length l1)).
  { rewrite E. unfold bisect_left.
    apply bisect_loop_outcome
      with (p := fun e => ltb (Interval.minTime e) (Interval.minTime x));
      rewrite ?length_app; try lia.
    - intros e He. apply Interval_lt_lenient_outcome.
      rewrite Forall_forall in L. apply L. now rewrite E.
    - intros e He. rewrite Forall_forall in F1. props. auto.
    - intros e He. rewrite Forall_forall in F2. props. auto. }
  unfold place.
  destruct (bisect_left (fun e => Interval_lt e (OInterval x))
              (IntervalTier.intervals self)) as [w o].
  simpl in O. subst o. exists w, l1, l2. repeat split; auto.
  rewrite bind_value, E, nth_error_split, list_insert_app.
  assert (K : (match hd_error l2 with
               | Some e => raise_if (Interval_eq e (OInterval x)) (ValueError [AInterval e])
               | None => ret tt
               end) = ret tt).
  { destruct l2 as [| c l2]; [reflexivity |]. cbn [hd_error].
    rewrite E in N. apply Forall_app in N as [_ N]. apply Forall_inv in N.
    destruct (Interval_eq c (OInterval x)) eqn:Q; [| reflexivity].
    apply Interval_eq_same_span in Q. contradiction. }
  rewrite K, bind_ret_l. simpl. now rewrite app_nil_r.
Qed.

Lemma weakly_sorted_insert (x : Interval.t) (l1 l2 : list Interval.t) :
  sorted_by_start (l1 ++ l2) ->
  Forall (fun e => Interval.minTime e < Interval.minTime x) l1 ->
  Forall (fun e => Interval.minTime x <= Interval.minTime e) l2 ->
  weakly_sorted_by_start (l1 ++ x :: l2).
Proof.
  intros S F1 F2. apply StronglySorted_app_inv in S as (S1 & S2 & S12).
  apply StronglySorted_app.
  - eapply StronglySorted_weaken; [| exact S1]. cbv beta. intros; lra.
  - constructor; [| assumption].
    eapply StronglySorted_weaken; [| exact S2]. cbv beta. intros; lra.
  - intros a b Ha [<- | Hb].
    + rewrite Forall_forall in F1. specialize (F1 a Ha). lra.
    + specialize (S12 a b Ha Hb). lra.
Qed.

(** In a tier whose intervals are lenient and in ascending order of start
    time, an interval that has the very bounds of an interval of the tier
    is compared, and then refused with that interval. *)
Lemma place_lenient_duplicate (self : IntervalTier.t) (x e : Interval.t) :
  sorted_by_start (IntervalTier.intervals self) ->
  Forall (fun e => Interval.strict e = false) (IntervalTier.intervals self) ->
  In e (IntervalTier.intervals self) -> same_span e x ->
  place self x
  = (log (bisect_left (fun e => Interval_lt e (OInterval x)) (IntervalTier.intervals self)),
     inl (ValueError [AInterval e])).
Proof.
  intros S L He [Q1 Q2].
  destruct (sorted_by_start_split (Interval.minTime x) _ S) as (l1 & l2 & E & F1 & F2).
  assert (O : outcome (bisect_left (fun e => Interval_lt e (OInterval x))
                         (IntervalTier.intervals self)) = inr (length l1)).
  { rewrite E. unfold bisect_left.
    apply bisect_loop_outcome
      with (p := fun e => ltb (Interval.minTime e) (Interval.minTime x));
      rewrite ?length_app; try lia.
    - intros a Ha. apply Interval_lt_lenient_outcome.
      rewrite Forall_forall in L. apply L. now rewrite E.
    - intros a Ha. rewrite Forall_forall in F1. props. auto.
    - intros a Ha. rewrite Forall_forall in F2. props. auto. }
  assert (H2 : exists l2', l2 = e :: l2').
  { rewrite E in He, S. apply in_app_or in He as [He | He].
    - exfalso. rewrite Forall_forall in F1. specialize (F1 e He). cbv beta in F1. lra.
    - destruct l2 as [| c l2']; [destruct He |]. exists l2'. f_equal.
      destruct He as [-> | He]; [reflexivity |]. exfalso.
      apply StronglySorted_app_inv in S as (_ & S2 & _).
      inversion S2 as [| ? ? _ F]; subst. rewrite Forall_forall in F.
      specialize (F e He). cbv beta in F.
      pose proof (Forall_inv F2) as Hc. cbv beta in Hc. lra. }
  destruct H2 as (l2' & ->).
  unfold place.
  destruct (bisect_left (fun e => Interval_lt e (OInterval x))
              (IntervalTier.intervals self)) as [w o].
  simpl in O. subst o. rewrite bind_value, E, nth_error_split. cbn [hd_error log fst].
  replace (Interval_eq e (OInterval x)) with true
    by (symmetry; apply Interval_eq_same_span; split; assumption).
  cbn. now rewrite app_nil_r.
Qed.

Lemma same_span_dec (x : Interval.t) (l : list Interval.t) :
  Exists (fun e => same_span e x) l \/ Forall (fun e => ~ same_span e x) l.
Proof.
  induction l as [| e l [IH | IH]].
  - right. constructor.
  - left. now constructor 2.
  - destruct (Interval_eq e (OInterval x)) eqn:Q.
    + left. constructor. now apply Interval_eq_same_span.
    + right. constructor; [| assumption]. intros H.
      apply Interval_eq_same_span in H. congruence.
Qed.

Lemma sorted_disjoint_set_flag (b : bool) (l : list Interval.t) :
  sorted_disjoint l -> sorted_disjoint (map (set_Interval_strict b) l).
Proof.
  intros [V S]. split.
  - apply Forall_map. exact V.
  - clear V. induction S as [| i l S IH F]; simpl; constructor; [assumption |].
    apply Forall_map. exact F.
Qed.

(** C3 (amended).  A tier holds intervals that are sorted and disjoint; an
    interval of positive duration within the bounds of the tier overlaps
    one of them.  Take the tier strict, its intervals carrying the flag:
    [addInterval] raises a [ValueError] with an interval it overlaps and
    the new interval.  Take the same tier lenient, its intervals carrying
    the flag: [addInterval] logs a warning, and then either raises a
    [ValueError] with the interval of the tier that has the very bounds of
    the new one, when there is one, or else succeeds and puts the interval
    where the start times say. *)
Theorem overlap_raises_or_warns (self : IntervalTier.t) (x : Interval.t) :
  valid x ->
  within self (Interval.minTime x) (Interval.maxTime x) ->
  sorted_disjoint (IntervalTier.intervals self) ->
  Exists (fun e => Interval_overlaps e x = true) (IntervalTier.intervals self) ->
  (exists b,
     In b (IntervalTier.intervals (set_flags true self))
     /\ Interval_overlaps b x = true
     /\ IntervalTier_addInterval (set_flags true self) x
        = raise (ValueError [AInterval b; AInterval x]))
  /\ (exists w,
        log (IntervalTier_addInterval (set_flags false self) x) = w
        /\ w <> []
        /\ ((exists e,
               In e (IntervalTier.intervals (set_flags false self))
               /\ same_span e x
               /\ IntervalTier_addInterval (set_flags false self) x
                  = (w, inl (ValueError [AInterval e])))
            \/ (Forall (fun e => ~ same_span e x) (IntervalTier.intervals self)
                /\ exists t,
                     IntervalTier_addInterval (set_flags false self) x = (w, inr t)
                     /\ weakly_sorted_by_start (IntervalTier.intervals t)
                     /\ Permutation (IntervalTier.intervals t)
                          (set_Interval_strict false x
                           :: IntervalTier.intervals (set_flags false self))))).
Proof.
  intros Vx W SD Ov.
  assert (SDb : forall b, sorted_disjoint (IntervalTier.intervals (set_flags b self)))
    by (intros b; now apply sorted_disjoint_set_flag).
  assert (Ovb : forall b, Exists (fun e => Interval_overlaps e x = true)
                            (IntervalTier.intervals (set_flags b self))).
  { intros b. cbn [set_flags IntervalTier.intervals]. apply Exists_exists.
    apply Exists_exists in Ov as (e & He & O).
    exists (set_Interval_strict b e). split; [now apply in_map | exact O]. }
  assert (FPb : forall b, Forall (fun e => Interval.strict e = b)
                            (IntervalTier.intervals (set_flags b self))).
  { intros b. apply Forall_map, Forall_forall. reflexivity. }
  assert (Wb : forall b, within (set_flags b self) (Interval.minTime x) (Interval.maxTime x))
    by (intros b; exact W).
  split.
  - rewrite addInterval_within by apply Wb.
    apply place_overlap_raises; auto.
  - rewrite addInterval_within by apply Wb.
    pose proof (sorted_disjoint_by_start _ (SDb false)) as S.
    assert (Hlog : log (bisect_left (fun e => Interval_lt e (OInterval x))
                          (IntervalTier.intervals (set_flags false self))) <> []).
    { destruct (bisect_left_meets_overlap x _ Vx (SDb false) (Ovb false))
        as (b & k & Hb & Ob & P).
      rewrite P. apply log_bind.
      rewrite Interval_lt_overlap_lenient; [discriminate | | assumption].
      pose proof (FPb false) as FP. rewrite Forall_forall in FP. auto. }
    destruct (same_span_dec x (IntervalTier.intervals (set_flags false self))) as [D | D].
    + apply Exists_exists in D as (e & He & Q).
      pose proof (place_lenient_duplicate (set_flags false self) x e S (FPb false) He Q)
        as R.
      eexists. split; [rewrite R; reflexivity |]. split; [exact Hlog |].
      left. exists e. split; [exact He |]. split; [exact Q | exact R].
    + destruct (place_lenient (set_flags false self) x S (FPb false) D)
        as (w & l1 & l2 & E & F1 & F2 & R & Hw).
      exists w. split; [now rewrite R |]. split; [now rewrite Hw |].
      right. split.
      * apply Forall_forall. intros e He Q. rewrite Forall_forall in D.
        apply (D (set_Interval_strict false e)); [now apply in_map | exact Q].
      * eexists. split; [exact R |].
        cbn [set_intervals IntervalTier.intervals]. split.
        -- rewrite E in S. now apply weakly_sorted_insert.
        -- rewrite E. symmetry. apply Permutation_middle.
Qed.

Lemma overlap_raises_or_warns_witness :
  let self := IntervalTier.mk (Some "w") (mkfloat 0 0) None
                [Interval.mk (mkfloat 0 0) (mkfloat 2 0) "a" true] true in
  let concl (x : Interval.t) :=
    (exists b,
       In b (IntervalTier.intervals (set_flags true self))
       /\ Interval_overlaps b x = true
       /\ IntervalTier_addInterval (set_flags true self) x
          = raise (ValueError [AInterval b; AInterval x]))
    /\ (exists w,
          log (IntervalTier_addInterval (set_flags false self) x) = w
          /\ w <> []
          /\ ((exists e,
                 In e (IntervalTier.intervals (set_flags false self))
                 /\ same_span e x
                 /\ IntervalTier_addInterval (set_flags false self) x
                    = (w, inl (ValueError [AInterval e])))
              \/ (Forall (fun e => ~ same_span e x) (IntervalTier.intervals self)
                  /\ exists t,
                       IntervalTier_addInterval (set_flags false self) x = (w, inr t)
                       /\ weakly_sorted_by_start (IntervalTier.intervals t)
                       /\ Permutation (IntervalTier.intervals t)
                            (set_Interval_strict false x
                             :: IntervalTier.intervals (set_flags false self))))) in
  concl (Interval.mk (mkfloat 1 0) (mkfloat 3 0) "b" true)
  /\ concl (Interval.mk (mkfloat 0 0) (mkfloat 2 0) "same" true).
Proof.
  intros self concl. split.
  - apply (overlap_raises_or_warns self (Interval.mk (mkfloat 1 0) (mkfloat 3 0) "b" true)).
    + unfold valid, Qof, Qlt; simpl; lia.
    + split; [unfold Qof, Qle; simpl; lia | exact I].
    + split; repeat constructor.
    + constructor. reflexivity.
  - apply (overlap_raises_or_warns self
             (Interval.mk (mkfloat 0 0) (mkfloat 2 0) "same" true)).
    + unfold valid, Qof, Qlt; simpl; lia.
    + split; [unfold Qof, Qle; simpl; lia | exact I].
    + split; repeat constructor.
    + constructor. reflexivity.
Defined.

(** C3, as stated, fails: a lenient tier holds the interval (0, 1); adding
    an interval with the same bounds, which overlaps it, raises. *)
Lemma lenient_duplicate_raises :
  let self := IntervalTier.mk (Some "w") (mkfloat 0 0) None
                [Interval.mk (mkfloat 0 0) (mkfloat 1 0) "a" false] false in
  let x := Interval.mk (mkfloat 0 0) (mkfloat 1 0) "b" false in
  Exists (fun e => Interval_overlaps e x = true) (IntervalTier.intervals self)
  /\ ~ (exists w t, IntervalTier_addInterval self x = (w, inr t)).
Proof.
  split.
  - constructor. reflexivity.
  - intros (w & t & H). vm_compute in H. discriminate.
Qed.

(** ** [IntervalTier._fillInTheGaps] *)

Lemma covers_end (lo : Q) (l : list Interval.t) (hi hi' : Q) :
  hi == hi' -> covers lo l hi -> covers lo l hi'.
Proof.
  intros E. revert lo. induction l as [| i l IH]; simpl; intros lo.
  - intros H. now rewrite H.
  - intros (H1 & H2 & H3). auto.
Qed.

Lemma covers_snoc (lo : Q) (l : list Interval.t) (hi : Q) (f : Interval.t) :
  covers lo l hi -> valid f -> Interval.minTime f == hi ->
  covers lo (l ++ [f]) (Interval.maxTime f).
Proof.
  revert lo. induction l as [| i l IH]; simpl; intros lo H V E.
  - split; [| split]; [now rewrite E, H | assumption | apply Qeq_refl].
  - destruct H as (H1 & H2 & H3). auto.
Qed.

Lemma covers_le (lo : Q) (l : list Interval.t) (hi : Q) :
  covers lo l hi -> lo <= hi.
Proof.
  revert lo. induction l as [| i l IH]; simpl; intros lo.
  - intros H. rewrite H. apply Qle_refl.
  - intros (H1 & H2 & H3). specialize (IH _ H3). unfold valid in H2. lra.
Qed.

(** The loop, from [prev_t] on: it raises nothing, and what it appends to
    [output] covers from [prev_t] to the end of the last interval. *)
Lemma fillInTheGaps_loop_covers (null : string) (l : list Interval.t) :
  forall (prev_t : float) (output : list Interval.t),
    Forall valid l -> StronglySorted before l ->
    Forall (fun i => prev_t <= Interval.minTime i) l ->
    exists (hi : float) (filled : list Interval.t),
      fillInTheGaps_loop null prev_t output l = ret (hi, output ++ filled)
      /\ covers prev_t filled hi
      /\ (forall m : Q, prev_t <= m -> Forall (fun i => Interval.maxTime i <= m) l -> hi <= m)
      /\ (forall i, In i l -> In i filled)
      /\ Forall (fun o => In o l \/ Interval.mark o = null /\ Interval.strict o = true) filled.
Proof.
  induction l as [| i l IH]; intros prev_t output V S F.
  - exists prev_t, []. simpl. rewrite app_nil_r.
    split; [reflexivity |]. split; [apply Qeq_refl |]. repeat split; auto.
  - inversion V as [| ? ? Vi Vl]; subst. inversion S as [| ? ? Sl Bi]; subst.
    inversion F as [| ? ? Fi Fl]; subst.
    destruct (IH (Interval.maxTime i) ((if ltb prev_t (Interval.minTime i)
                then output ++ [Interval.mk prev_t (Interval.minTime i) null true]
                else output) ++ [i]) Vl Sl Bi)
      as (hi & filled & R & C & M & I1 & I2).
    exists hi.
    exists ((if ltb prev_t (Interval.minTime i)
             then [Interval.mk prev_t (Interval.minTime i) null true] else [])
            ++ i :: filled).
    split; [| split; [| split; [| split]]].
    + cbn [fillInTheGaps_loop].
      destruct (ltb prev_t (Interval.minTime i)) eqn:E.
      * props. rewrite Interval_init_ok by assumption.
        rewrite !bind_ret_l, R. f_equal. f_equal.
        rewrite <- !app_assoc. reflexivity.
      * rewrite bind_ret_l, R. f_equal. f_equal.
        rewrite <- !app_assoc. reflexivity.
    + destruct (ltb prev_t (Interval.minTime i)) eqn:E; props; simpl.
      * repeat split; try assumption; apply Qeq_refl.
      * repeat split; try assumption. lra.
    + intros m Hm Fm. inversion Fm; subst. apply M; [| assumption].
      unfold valid in Vi. lra.
    + intros j [<- | Hj]; apply in_or_app; right; simpl; auto.
    + apply Forall_app. split.
      * destruct (ltb prev_t (Interval.minTime i)); constructor;
          [right; split; reflexivity | constructor].
      * constructor; [left; simpl; auto |].
        eapply Forall_impl; [| exact I2]. simpl. intros o [Ho | Ho]; auto.
Qed.

(** C7. For a tier with a [maxTime], whose intervals are sorted, without
    overlaps and within the bounds, [_fillInTheGaps] returns a sequence that
    covers from [minTime] to [maxTime] without a gap and without an overlap:
    the first interval starts at [minTime], each starts where the one before
    ends, the last ends at [maxTime].  The intervals of the tier are all in
    it, and what is not one of them has the filler mark.  For the tier from
    0 to 1 with Interval(0.2, 0.5, cat) only, it is (0, 0.2), (0.2, 0.5, cat),
    (0.5, 1). *)
Theorem fillInTheGaps_covers
    (self : IntervalTier.t) (null : string) (maxTime : float) :
  IntervalTier.maxTime self = Some maxTime ->
  IntervalTier.minTime self <= maxTime ->
  sorted_disjoint (IntervalTier.intervals self) ->
  Forall (fun i => within self (Interval.minTime i) (Interval.maxTime i))
         (IntervalTier.intervals self) ->
  (exists output,
     IntervalTier_fillInTheGaps self null = ret output
     /\ covers (IntervalTier.minTime self) output maxTime
     /\ (forall i, In i (IntervalTier.intervals self) -> In i output)
     /\ Forall (fun o => In o (IntervalTier.intervals self) \/ Interval.mark o = null)
               output)
  /\ (exists output,
        IntervalTier_fillInTheGaps cat_tier "" = ret output
        /\ same_entries output
             [(0, 0.2, ""%string); (0.2, 0.5, "cat"%string); (0.5, 1, ""%string)]).
Proof.
  intros Hmax Hle [V S] W. split.
  - destruct (fillInTheGaps_loop_covers null (IntervalTier.intervals self)
                (IntervalTier.minTime self) [] V S)
      as (hi & filled & R & C & M & I1 & I2).
    { eapply Forall_impl; [| exact W]. intros i [H _]. exact H. }
    assert (Hhi : hi <= maxTime).
    { apply M; [assumption |]. eapply Forall_impl; [| exact W].
      intros i [_ H]. now rewrite Hmax in H. }
    unfold IntervalTier_fillInTheGaps. rewrite R, bind_ret_l, Hmax. simpl app.
    destruct (ltb hi maxTime) eqn:E; props.
    + rewrite Interval_init_ok, bind_ret_l by assumption.
      eexists. split; [reflexivity |]. split; [| split].
      * apply (covers_snoc _ _ _ (Interval.mk hi maxTime null true) C); [exact E |].
        apply Qeq_refl.
      * intros i Hi. apply in_or_app. left. auto.
      * apply Forall_app. split.
        -- eapply Forall_impl; [| exact I2]. simpl. intros o [Ho | [Ho _]]; auto.
        -- constructor; [now right | constructor].
    + exists filled. split; [reflexivity |]. split; [| split].
      * apply (covers_end _ _ hi); [lra | assumption].
      * assumption.
      * eapply Forall_impl; [| exact I2]. simpl. intros o [Ho | [Ho _]]; auto.
  - eexists. split; [vm_compute; reflexivity |].
    repeat constructor; simpl; unfold Qof, Qeq; simpl; lia.
Qed.

Lemma fillInTheGaps_covers_witness :
  (exists output,
     IntervalTier_fillInTheGaps cat_tier "" = ret output
     /\ covers (IntervalTier.minTime cat_tier) output (mkfloat 1 0)
     /\ (forall i, In i (IntervalTier.intervals cat_tier) -> In i output)
     /\ Forall (fun o => In o (IntervalTier.intervals cat_tier)
                         \/ Interval.mark o = ""%string) output)
  /\ (exists output,
        IntervalTier_fillInTheGaps cat_tier "" = ret output
        /\ same_entries output
             [(0, 0.2, ""%string); (0.2, 0.5, "cat"%string); (0.5, 1, ""%string)]).
Proof.
  apply (fillInTheGaps_covers cat_tier "" (mkfloat 1 0)).
  - reflexivity.
  - unfold Qof, Qle; simpl; lia.
  - split; repeat constructor.
  - repeat constructor; simpl; unfold Qof, Qle; simpl; lia.
Defined.

(** ** The bound checks of [add] *)

(** C8, where the code departs from it: a tier from -1 to 0.0 has a
    [maxTime], yet [if self.maxTime] is false for 0.0 and the interval
    (-0.5, 0.5), which ends after it, is added; so is the point at 0.5. *)
Lemma zero_maxTime_not_enforced :
  (exists t,
     IntervalTier_add (IntervalTier_init (Some "t") (mkfloat (-1) 0) (Some (mkfloat 0 0)))
       (mkfloat (-5) 1) (mkfloat 5 1) "x" = ret t
     /\ IntervalTier.maxTime t = Some (mkfloat 0 0)
     /\ Exists (fun i => mkfloat 0 0 < Interval.maxTime i) (IntervalTier.intervals t))
  /\ (exists t,
        PointTier_add (PointTier_init (Some "t") (mkfloat (-1) 0) (Some (mkfloat 0 0)))
          (mkfloat 5 1) "x" = ret t
        /\ PointTier.maxTime t = Some (mkfloat 0 0)
        /\ Exists (fun p => mkfloat 0 0 < Point.time p) (PointTier.points t)).
Proof.
  split; eexists; (split; [vm_compute; reflexivity |]);
    (split; [reflexivity |]); constructor; reflexivity.
Qed.

(** ** [TextGrid.append] and [TextGrid.extend] *)

(** C6, where the code departs from it: [append] takes a tier that starts
    before the set; [extend] takes a tier that ends after the set, and
    leaves the flags of the tiers as they are. *)
Lemma append_extend_unchecked :
  (exists tg,
     TextGrid_append (TextGrid_init None (mkfloat 0 0) (Some (mkfloat 10 0)) true)
       (ITier (IntervalTier_init (Some "t") (mkfloat (-5) 0) (Some (mkfloat 8 0)))) = ret tg
     /\ Exists (fun t => tier_minTime t < TextGrid.minTime tg) (TextGrid.tiers tg))
  /\ (exists tg,
        TextGrid_extend (TextGrid_init None (mkfloat 0 0) (Some (mkfloat 10 0)) false)
          [ITier (IntervalTier_init (Some "t") (mkfloat 0 0) (Some (mkfloat 20 0)))] = ret tg
        /\ TextGrid.tiers tg
           = [ITier (IntervalTier.mk (Some "t") (mkfloat 0 0) (Some (mkfloat 20 0)) [] true)]).
Proof.
  split; eexists; (split; [vm_compute; reflexivity |]).
  - constructor. reflexivity.
  - reflexivity.
Qed.

(** ** [MLF.read] *)

(** In an utterance, a line whose number of fields is neither 3 nor 4 takes
    the last branch. *)
Lemma read_line_other_fields (samplerate : float) (round_digits : nat)
    (grids : list TextGrid.t) (u : utterance) (line : string) :
  fields line <> 3%nat -> fields line <> 4%nat ->
  read_line samplerate round_digits grids (IN_UTTERANCE u) line
  = (grids <- end_utterance grids u ;; ret (Continue grids AWAITING_UTTERANCE)).
Proof.
  unfold fields, read_line. intros H3 H4.
  destruct (split (rstrip line)) as [| a [| b [| c [| d [| e l]]]]];
    simpl in H3, H4; try reflexivity; congruence.
Qed.

(** At the end of the file the loops end as [read_eof] says. *)
Lemma read_eof_is_read_line (samplerate : float) (round_digits : nat)
    (grids : list TextGrid.t) (st : state) :
  read_eof grids st
  = (p <- read_line samplerate round_digits grids st "" ;;
     match p with
     | Return grids => ret grids
     | Continue grids st =>
         p <- read_line samplerate round_digits grids st "" ;;
         match p with
         | Return grids => ret grids
         | Continue grids _ => ret grids
         end
     end).
Proof.
  destruct st as [| u].
  - reflexivity.
  - rewrite read_line_other_fields by (vm_compute; discriminate).
    rewrite bind_assoc. unfold read_eof.
    rewrite <- (bind_ret_r (end_utterance grids u)) at 1.
    apply bind_ext. intros g. now rewrite bind_ret_l.
Qed.

Lemma end_utterance_degenerate (grids : list TextGrid.t) (u : utterance) :
  wend u <= wsrt u ->
  end_utterance grids u = raise (ValueError [AFloat (wsrt u); AFloat (wend u)]).
Proof.
  intros H. unfold end_utterance. now rewrite add_degenerate.
Qed.

(** C5 (amended). In an utterance, every line whose number of fields is
    neither 3 nor 4 ends the utterance as the line of a single period does:
    the pending word is added, the phone and word tiers are appended to the
    grid, the grid joins the result, and the reader waits for the next
    utterance.  No error is raised for the number of fields. *)
Theorem other_fields_end_utterance
    (samplerate : float) (round_digits : nat)
    (grids : list TextGrid.t) (u : utterance) (line : string) :
  fields line <> 3%nat -> fields line <> 4%nat ->
  read_line samplerate round_digits grids (IN_UTTERANCE u) line
  = read_line samplerate round_digits grids (IN_UTTERANCE u) "."
  /\ read_line samplerate round_digits grids (IN_UTTERANCE u) line
     = (word <- IntervalTier_add (word u) (wsrt u) (wend u) (wmrk u) ;;
        grid <- TextGrid_append (grid u) (ITier (phon u)) ;;
        grid <- TextGrid_append grid (ITier word) ;;
        ret (Continue (grids ++ [grid]) AWAITING_UTTERANCE)).
Proof.
  intros H3 H4. rewrite !read_line_other_fields
    by (assumption || (vm_compute; discriminate)).
  split; [reflexivity |].
  unfold end_utterance. rewrite !bind_assoc. apply bind_ext. intros w.
  rewrite !bind_assoc. apply bind_ext. intros g.
  rewrite !bind_assoc. apply bind_ext. intros g'. now rewrite bind_ret_l.
Qed.

Lemma other_fields_end_utterance_witness :
  read_line (float_of_Z 10000000) 5 [] (IN_UTTERANCE cat_pending) "x y"
  = read_line (float_of_Z 10000000) 5 [] (IN_UTTERANCE cat_pending) "."
  /\ read_line (float_of_Z 10000000) 5 [] (IN_UTTERANCE cat_pending) "x y"
     = (word <- IntervalTier_add (word cat_pending) (wsrt cat_pending)
                  (wend cat_pending) (wmrk cat_pending) ;;
        grid <- TextGrid_append (grid cat_pending) (ITier (phon cat_pending)) ;;
        grid <- TextGrid_append grid (ITier word) ;;
        ret (Continue ([] ++ [grid]) AWAITING_UTTERANCE)).
Proof.
  apply (other_fields_end_utterance (float_of_Z 10000000) 5 [] cat_pending "x y").
  - vm_compute. discriminate.
  - vm_compute. discriminate.
Defined.

(** C5, as stated, fails: an utterance ended by a record of two fields is
    read without an error, as if a period had ended it. *)
Lemma two_fields_no_error :
  fields "x y" = 2%nat
  /\ (exists grids, MLF_init cat_two_fields_mlf = ret grids)
  /\ MLF_init cat_two_fields_mlf = MLF_init cat_mlf.
Proof.
  split; [reflexivity |]. split; [eexists |]; vm_compute; reflexivity.
Qed.

(** C4 (amended). The utterance of the records [0 500000 k],
    [500000 1200000 ae], [1200000 1800000 t cat], ended by a period, read at
    the sample rate 10e6, gives one grid: its first tier holds the phones
    (0, 0.05, k), (0.05, 0.12, ae), (0.12, 0.18, t), its second tier the word
    (0.12, 0.18, cat), which starts at the record that carries its label. *)
Theorem cat_utterance :
  exists grid phones words,
    MLF_init cat_mlf = ret [grid]
    /\ TextGrid.tiers grid = [ITier phones; ITier words]
    /\ IntervalTier.name phones = Some "phones"%string
    /\ IntervalTier.name words = Some "words"%string
    /\ same_entries (IntervalTier.intervals phones)
         [(0, 0.05, "k"%string); (0.05, 0.12, "ae"%string); (0.12, 0.18, "t"%string)]
    /\ same_entries (IntervalTier.intervals words) [(0.12, 0.18, "cat"%string)].
Proof.
  do 3 eexists. split; [vm_compute; reflexivity |].
  split; [reflexivity |]. split; [reflexivity |]. split; [reflexivity |].
  split; repeat constructor.
Qed.

(** C4, as stated, fails: the word does not start at 0. *)
Lemma cat_word_not_from_zero :
  ~ (exists grid phones words,
       MLF_init cat_mlf = ret [grid]
       /\ TextGrid.tiers grid = [ITier phones; ITier words]
       /\ same_entries (IntervalTier.intervals phones)
            [(0, 0.05, "k"%string); (0.05, 0.12, "ae"%string); (0.12, 0.18, "t"%string)]
       /\ same_entries (IntervalTier.intervals words) [(0, 0.18, "cat"%string)]).
Proof.
  intros (grid & phones & words & R & T & _ & W).
  vm_compute in R. injection R as <-. simpl in T. injection T as _ <-.
  inversion W as [| ? ? ? ? [H _] _]; subst. simpl in H.
  vm_compute in H. discriminate.
Qed.

(** ** Degenerate intervals: on load and on construction *)

(** C9. In the loop of [TextGrid.read] over the intervals of a tier, an
    interval whose rounded minimum is not below its rounded maximum is left
    out: the tier goes on unchanged to the next interval, nothing is raised
    and nothing is logged for it.  [Interval] and [IntervalTier.add] raise
    a [ValueError] for the same bounds. *)
Theorem degenerate_dropped_on_read
    (n : nat) (short : bool) (round_digits : nat)
    (itie : IntervalTier.t) (source s1 s2 s3 : string)
    (jmin jmax : float) (jmrk : string) :
  read_float (if short then source else skip_line source) short round_digits
  = ret (jmin, s1) ->
  read_float s1 short round_digits = ret (jmax, s2) ->
  getMark s2 short = ret (jmrk, s3) ->
  jmax <= jmin ->
  read_intervals (S n) short round_digits itie source
  = read_intervals n short round_digits itie s3
  /\ Interval_init jmin jmax jmrk = raise (ValueError [AFloat jmin; AFloat jmax])
  /\ forall self,
       IntervalTier_add self jmin jmax jmrk
       = raise (ValueError [AFloat jmin; AFloat jmax]).
Proof.
  intros H1 H2 H3 Hd. split; [| split].
  - cbn [read_intervals]. rewrite H1, bind_ret_l, H2, bind_ret_l, H3, bind_ret_l.
    replace (ltb jmin jmax) with false by (symmetry; props; assumption).
    now rewrite bind_ret_l.
  - now apply Interval_init_degenerate.
  - intros self. now apply add_degenerate.
Qed.

Lemma degenerate_dropped_on_read_witness :
  let itie := IntervalTier_init (Some "word") (mkfloat 0 0) (Some (mkfloat 1 0)) in
  read_intervals 1 false 5 itie (interval_text "1" "0.5" "0.500001" "cat")
  = read_intervals 0 false 5 itie ""
  /\ Interval_init (mkfloat 50000 5) (mkfloat 50000 5) "cat"
     = raise (ValueError [AFloat (mkfloat 50000 5); AFloat (mkfloat 50000 5)])
  /\ forall self,
       IntervalTier_add self (mkfloat 50000 5) (mkfloat 50000 5) "cat"
       = raise (ValueError [AFloat (mkfloat 50000 5); AFloat (mkfloat 50000 5)]).
Proof.
  intros itie.
  apply (degenerate_dropped_on_read 0 false 5 itie
           (interval_text "1" "0.5" "0.500001" "cat")
           (text_of_lines
              [TAB ++ TAB ++ TAB ++ TAB ++ "xmax = 0.500001";
               TAB ++ TAB ++ TAB ++ TAB ++ "text = " ++ DQ ++ "cat" ++ DQ]%string)
           (text_of_lines
              [TAB ++ TAB ++ TAB ++ TAB ++ "text = " ++ DQ ++ "cat" ++ DQ]%string)
           ""%string).
  - vm_compute. reflexivity.
  - vm_compute. reflexivity.
  - vm_compute. reflexivity.
  - unfold Qof, Qle. simpl. lia.
Defined.

(* ------------------------------------------------------------------ *)
(** ** [TextGrid.write] then [TextGrid.read] *)

(** ** Strings *)

Lemma append_assoc (a b c : string) : ((a ++ b) ++ c = a ++ b ++ c)%string.
Proof. induction a as [| x a IH]; simpl; [reflexivity | now rewrite IH]. Qed.

Lemma append_nil_r (a : string) : (a ++ "" = a)%string.
Proof. induction a as [| x a IH]; simpl; [reflexivity | now rewrite IH]. Qed.

Lemma length_append (a b : string) :
  String.length (a ++ b) = (String.length a + String.length b)%nat.
Proof. induction a as [| x a IH]; simpl; [reflexivity | now rewrite IH]. Qed.

Lemma linebreak_is_space (c : ascii) : is_linebreak c = true -> is_space c = true.
Proof.
  destruct c as [[|] [|] [|] [|] [|] [|] [|] [|]]; vm_compute; congruence.
Qed.

Lemma plain_no_linebreak (s : string) : plain s = true -> has_linebreak s = false.
Proof.
  induction s as [| c s IH]; simpl; [reflexivity |].
  intros H. apply andb_true_iff in H as [H1 H2]. apply andb_true_iff in H1 as [H1 _].
  rewrite IH by assumption. rewrite orb_false_r.
  destruct (is_linebreak c) eqn:E; [| reflexivity].
  apply linebreak_is_space in E. now rewrite E in H1.
Qed.

Lemma has_linebreak_app (a b : string) :
  has_linebreak (a ++ b) = has_linebreak a || has_linebreak b.
Proof.
  induction a as [| x a IH]; simpl; [reflexivity |]. now rewrite IH, orb_assoc.
Qed.

Lemma plain_app (a b : string) : plain (a ++ b) = plain a && plain b.
Proof.
  induction a as [| x a IH]; simpl; [reflexivity |]. now rewrite IH, !andb_assoc.
Qed.

(** [readline] stops at the first line boundary. *)
Lemma readline_line (s rest : string) :
  has_linebreak s = false ->
  readline (s ++ NL ++ rest) = ((s ++ NL)%string, rest).
Proof.
  induction s as [| c s IH]; simpl; intros H.
  - destruct rest; reflexivity.
  - apply orb_false_iff in H as [H1 H2]. rewrite H1.
    simpl in IH. now rewrite IH.
Qed.

Lemma skip_line_line (s rest : string) :
  has_linebreak s = false -> skip_line (s ++ NL ++ rest) = rest.
Proof. intros H. unfold skip_line. now rewrite readline_line. Qed.

Lemma rstrip_concat (s t : string) (a : ascii) (t' : string) :
  rstrip t = String a t' -> rstrip (s ++ t) = (s ++ String a t')%string.
Proof.
  intros H. induction s as [| c s IH]; simpl; [assumption |].
  rewrite IH. destruct s; reflexivity.
Qed.

Lemma rstrip_all_space (s : string) : all_space s = true -> rstrip s = "".
Proof.
  induction s as [| c s IH]; simpl; [reflexivity |].
  intros H. apply andb_true_iff in H as [H1 H2]. now rewrite IH, H1.
Qed.

Lemma rstrip_plain (s : string) : plain s = true -> rstrip s = s.
Proof.
  induction s as [| c s IH]; simpl; [reflexivity |].
  intros H. apply andb_true_iff in H as [H1 H2]. apply andb_true_iff in H1 as [H1 _].
  rewrite IH by assumption. apply negb_true_iff in H1. rewrite H1.
  destruct s; reflexivity.
Qed.

Lemma lstrip_concat (s t : string) (a : ascii) (s' : string) :
  lstrip s = String a s' -> lstrip (s ++ t) = (String a s' ++ t)%string.
Proof.
  induction s as [| c s IH]; simpl; [discriminate |].
  destruct (is_space c); [assumption |]. intros H. injection H as <- <-. reflexivity.
Qed.

Lemma after_prefix_app (p s t r : string) :
  after_prefix p s = Some r -> after_prefix p (s ++ t) = Some (r ++ t)%string.
Proof.
  revert s. induction p as [| a p IH]; intros s; simpl.
  - intros H. injection H as <-. reflexivity.
  - destruct s as [| b s]; [discriminate |]. simpl.
    destruct (Ascii.eqb a b); [apply IH | discriminate].
Qed.

Lemma after_prefix_length (p s r : string) :
  after_prefix p s = Some r -> (String.length p <= String.length s)%nat.
Proof.
  revert s. induction p as [| a p IH]; intros s; simpl; [lia |].
  destruct s as [| b s]; [discriminate |]. simpl.
  destruct (Ascii.eqb a b); [| discriminate]. intros H. apply IH in H. lia.
Qed.

Lemma after_prefix_none_app (p s t : string) :
  after_prefix p s = None -> (String.length p <= String.length s)%nat ->
  after_prefix p (s ++ t) = None.
Proof.
  revert s. induction p as [| a p IH]; intros s; simpl; [discriminate |].
  destruct s as [| b s]; simpl; [lia |].
  destruct (Ascii.eqb a b); [| reflexivity]. intros H L. apply IH; [assumption | lia].
Qed.

Lemma after_first_length (p s r : string) :
  after_first p s = Some r -> (String.length p <= String.length s)%nat.
Proof.
  induction s as [| c s IH]; simpl.
  - destruct (after_prefix p "") eqn:E; [| discriminate].
    intros _. now apply after_prefix_length in E.
  - destruct (after_prefix p (String c s)) eqn:E.
    + intros _. now apply after_prefix_length in E.
    + intros H. apply IH in H. lia.
Qed.

(** The first occurrence in [s] is the first occurrence in [s ++ t]. *)
Lemma after_first_app (p s t r : string) :
  after_first p s = Some r -> after_first p (s ++ t) = Some (r ++ t)%string.
Proof.
  induction s as [| c s IH].
  - simpl. destruct (after_prefix p "") eqn:E; [| discriminate].
    intros H. injection H as <-.
    destruct p; [| discriminate]. simpl in E. injection E as <-.
    simpl. destruct t; reflexivity.
  - intros H. change ((String c s ++ t)%string) with (String c (s ++ t)).
    cbn [after_first] in H |- *.
    change (String c (s ++ t)) with (String c s ++ t)%string.
    destruct (after_prefix p (String c s)) eqn:E.
    + injection H as <-. now rewrite (after_prefix_app _ _ t _ E).
    + pose proof (after_first_length _ _ _ H) as L.
      rewrite after_prefix_none_app by (simpl; auto; lia).
      now apply IH.
Qed.

(** For a pattern of one character. *)
Lemma after_first_char_app (q : ascii) (s t : string) :
  after_first (String q "") (s ++ t)
  = match after_first (String q "") s with
    | Some r => Some (r ++ t)%string
    | None => after_first (String q "") t
    end.
Proof.
  induction s as [| c s IH].
  - simpl. destruct t; reflexivity.
  - change ((String c s ++ t)%string) with (String c (s ++ t)).
    cbn [after_first after_prefix]. destruct (Ascii.eqb q c); [reflexivity |].
    exact IH.
Qed.

Lemma contains_DQ_app (s t : string) :
  contains DQ (s ++ t) = contains DQ s || contains DQ t.
Proof.
  unfold contains, DQ. rewrite after_first_char_app.
  destruct (after_first (String dquote "") s); reflexivity.
Qed.

Lemma contains_DQ_plain (s : string) : plain s = true -> contains DQ s = false.
Proof.
  unfold contains, DQ. induction s as [| c s IH]; [reflexivity |].
  cbn [plain after_first after_prefix].
  intros H. apply andb_true_iff in H as [H1 H2]. apply andb_true_iff in H1 as [_ H1].
  apply negb_true_iff in H1. rewrite Ascii.eqb_sym, H1. now apply IH.
Qed.

Lemma before_last_snoc (s : string) :
  before_last dquote (s ++ DQ) = Some s.
Proof.
  induction s as [| c s IH]; [reflexivity |].
  change ((String c s ++ DQ)%string) with (String c (s ++ DQ)).
  cbn [before_last]. now rewrite IH.
Qed.

(** ** Numbers in text *)

Lemma digit_facts (c : ascii) :
  is_digit c = true ->
  is_space c = false /\ Ascii.eqb c dquote = false
  /\ Ascii.eqb c "-" = false /\ Ascii.eqb c "+" = false /\ Ascii.eqb c "." = false.
Proof.
  destruct c as [[|] [|] [|] [|] [|] [|] [|] [|]]; vm_compute; intros H;
    try discriminate H; repeat split.
Qed.

Lemma all_digits_plain (s : string) : all_digits s = true -> plain s = true.
Proof.
  induction s as [| c s IH]; [reflexivity |]. cbn [all_digits plain].
  intros H. apply andb_true_iff in H as [H1 H2].
  destruct (digit_facts c H1) as (E1 & E2 & _). now rewrite E1, E2, IH.
Qed.

Lemma string_of_uint_digits (d : Decimal.uint) :
  all_digits (NilEmpty.string_of_uint d) = true.
Proof. induction d; simpl; auto. Qed.

Lemma format_N_digits (n : N) : all_digits (format_N n) = true.
Proof. apply string_of_uint_digits. Qed.

Lemma format_N_nonempty (n : N) : exists c s, format_N n = String c s.
Proof.
  unfold format_N. destruct n as [| p].
  - simpl. eauto.
  - pose proof (DecimalPos.Unsigned.to_uint_nonnil p) as H.
    change (N.to_uint (N.pos p)) with (Pos.to_uint p).
    destruct (Pos.to_uint p); simpl; eauto. congruence.
Qed.

Lemma digits_value_format_N (n : N) : digits_value (format_N n) = n.
Proof.
  unfold digits_value, format_N. rewrite NilEmpty.usu.
  apply DecimalN.Unsigned.of_to.
Qed.

Lemma span_digits_app (s r : string) :
  all_digits s = true -> no_digit_ahead r = true ->
  span_digits (s ++ r) = (s, r).
Proof.
  intros Hs Hr. induction s as [| c s IH].
  - simpl. destruct r as [| c r]; [reflexivity |]. cbn [span_digits].
    simpl in Hr. apply negb_true_iff in Hr. now rewrite Hr.
  - cbn [all_digits] in Hs. apply andb_true_iff in Hs as [H1 H2].
    change ((String c s ++ r)%string) with (String c (s ++ r)).
    cbn [span_digits]. now rewrite H1, IH.
Qed.

Lemma span_digits_all (s : string) :
  all_digits s = true -> span_digits s = (s, ""%string).
Proof.
  intros H. rewrite <- (append_nil_r s) at 1. now apply span_digits_app.
Qed.

Lemma span_sign_digit (c : ascii) (s : string) :
  is_digit c = true -> span_sign (String c s) = (false, String c s).
Proof.
  intros H. destruct (digit_facts c H) as (_ & _ & E1 & E2 & _).
  unfold span_sign. now rewrite E1, E2.
Qed.

Lemma lstrip_plain (s : string) : plain s = true -> lstrip s = s.
Proof.
  destruct s as [| c s]; [reflexivity |]. cbn [plain lstrip].
  intros H. apply andb_true_iff in H as [H _]. apply andb_true_iff in H as [H _].
  apply negb_true_iff in H. now rewrite H.
Qed.

Lemma strip_plain (s : string) : plain s = true -> strip s = s.
Proof.
  intros H. unfold strip. rewrite rstrip_plain by assumption. now apply lstrip_plain.
Qed.

Lemma int_of_string_format_N (n : N) :
  int_of_string (format_N n) = Some (Z.of_N n).
Proof.
  unfold int_of_string.
  rewrite strip_plain by (apply all_digits_plain, format_N_digits).
  pose proof (format_N_digits n) as D. pose proof (digits_value_format_N n) as V.
  destruct (format_N_nonempty n) as (c & s & E). rewrite E in *.
  cbn [all_digits] in D. apply andb_true_iff in D as [D1 D2].
  rewrite span_sign_digit by assumption.
  rewrite span_digits_all by (cbn [all_digits]; now rewrite D1, D2).
  now rewrite V.
Qed.

Lemma float_of_string_format_N (n : N) :
  float_of_string (format_N n) = Some (mkfloat (Z.of_N n) 0).
Proof.
  unfold float_of_string.
  rewrite strip_plain by (apply all_digits_plain, format_N_digits).
  pose proof (format_N_digits n) as D. pose proof (digits_value_format_N n) as V.
  destruct (format_N_nonempty n) as (c & s & E). rewrite E in *.
  cbn [all_digits] in D. apply andb_true_iff in D as [D1 D2].
  rewrite span_sign_digit by assumption.
  rewrite span_digits_all by (cbn [all_digits]; now rewrite D1, D2).
  rewrite append_nil_r. cbn [exponent_of_string String.length].
  rewrite V. reflexivity.
Qed.

Lemma format_float_plain (x : float) : plain (format_float x) = true.
Proof.
  unfold format_float. rewrite !plain_app.
  rewrite (all_digits_plain _ (format_N_digits (Z.abs_N (mant x)))).
  rewrite (all_digits_plain _ (format_N_digits (N.of_nat (expo x)))).
  destruct (mant x <? 0)%Z; reflexivity.
Qed.

Lemma format_float_nonempty (x : float) : exists c s, format_float x = String c s.
Proof.
  unfold format_float. destruct (mant x <? 0)%Z; simpl; eauto.
  destruct (format_N_nonempty (Z.abs_N (mant x))) as (c & s & ->). simpl. eauto.
Qed.

Lemma exponent_of_format (n : N) :
  exponent_of_string ("e-" ++ format_N n) = Some (- Z.of_N n)%Z.
Proof.
  cbn [append exponent_of_string]. cbn [Ascii.eqb Bool.eqb orb].
  cbn [span_sign]. cbn [Ascii.eqb Bool.eqb].
  rewrite span_digits_all by apply format_N_digits.
  destruct (format_N_nonempty n) as (c & s & E).
  rewrite <- (digits_value_format_N n) at 2. rewrite E. reflexivity.
Qed.

(** A float reads back from what it is written as. *)
Lemma float_of_string_format_float (x : float) :
  float_of_string (format_float x) = Some x.
Proof.
  unfold float_of_string. rewrite strip_plain by apply format_float_plain.
  unfold format_float.
  pose proof (format_N_digits (Z.abs_N (mant x))) as D.
  destruct (format_N_nonempty (Z.abs_N (mant x))) as (c & s & E).
  assert (S1 : span_digits (format_N (Z.abs_N (mant x)) ++ "e-" ++ format_N (N.of_nat (expo x)))
               = (format_N (Z.abs_N (mant x)), ("e-" ++ format_N (N.of_nat (expo x)))%string)).
  { apply span_digits_app; [assumption | reflexivity]. }
  assert (M : forall neg,
    (let (ip, r1) := span_digits (format_N (Z.abs_N (mant x)) ++ "e-" ++ format_N (N.of_nat (expo x))) in
     let (fp, r2) := match r1 with
                     | String c r => if Ascii.eqb c "." then span_digits r else (""%string, r1)
                     | EmptyString => (""%string, ""%string)
                     end in
     match (ip ++ fp)%string with
     | EmptyString => None
     | String _ _ as digits =>
         match exponent_of_string r2 with
         | None => None
         | Some e =>
             let m := signed neg (digits_value digits) in
             let shift := (Z.of_nat (String.length fp) - e)%Z in
             if (shift <? 0)%Z
             then Some (mkfloat (m * Zpos (pow10 (Z.to_nat (- shift)))) 0)
             else Some (mkfloat m (Z.to_nat shift))
         end
     end) = Some (mkfloat (signed neg (Z.abs_N (mant x))) (expo x))).
  { intros neg. rewrite S1. cbn [append Ascii.eqb Bool.eqb].
    change (String "e" (String "-" (format_N (N.of_nat (expo x)))))
      with ("e-" ++ format_N (N.of_nat (expo x)))%string.
    rewrite append_nil_r, exponent_of_format.
    rewrite <- (digits_value_format_N (Z.abs_N (mant x))) at 2.
    rewrite E. cbn [String.length].
    replace (Z.of_nat 0 - - Z.of_N (N.of_nat (expo x)))%Z with (Z.of_nat (expo x)) by lia.
    destruct (Z.ltb_spec (Z.of_nat (expo x)) 0); [lia |].
    now rewrite Nat2Z.id. }
  destruct x as [m e]. cbn [mant expo] in *.
  destruct (Z.ltb_spec m 0) as [L | L].
  - cbn [append span_sign Ascii.eqb Bool.eqb]. rewrite M. do 2 f_equal.
    unfold signed. lia.
  - cbn [append].
    assert (SS : forall r, span_sign (format_N (Z.abs_N m) ++ r)
                           = (false, (format_N (Z.abs_N m) ++ r)%string)).
    { intros r. rewrite E in *. cbn [all_digits] in D.
      apply andb_true_iff in D as [D1 D2].
      change ((String c s ++ r)%string) with (String c (s ++ r)).
      now apply span_sign_digit. }
    rewrite SS, M. do 2 f_equal. unfold signed. lia.
Qed.

(** ** Rounding *)

Lemma round_half_even_bounds (q : Q) :
  (Qfloor q <= round_half_even q <= Qfloor q + 1)%Z.
Proof.
  unfold round_half_even.
  destruct (q - inject_Z (Qfloor q) ?= 1 # 2); [destruct (Z.even (Qfloor q)) | |]; lia.
Qed.

Lemma round_half_even_comp (q q' : Q) : q == q' -> round_half_even q = round_half_even q'.
Proof.
  intros E. unfold round_half_even. rewrite (Qfloor_comp _ _ E).
  assert (E' : q - inject_Z (Qfloor q') == q' - inject_Z (Qfloor q')) by now rewrite E.
  now rewrite (Qcompare_comp _ _ E' (1 # 2) (1 # 2) (Qeq_refl _)).
Qed.

Lemma round_half_even_mono (q q' : Q) :
  q <= q' -> (round_half_even q <= round_half_even q')%Z.
Proof.
  intros L. pose proof (Qfloor_resp_le _ _ L) as F.
  destruct (Z.eq_dec (Qfloor q) (Qfloor q')) as [E | N].
  - unfold round_half_even. rewrite <- E.
    destruct (Qcompare_spec (q - inject_Z (Qfloor q)) (1 # 2));
      destruct (Qcompare_spec (q' - inject_Z (Qfloor q)) (1 # 2));
      try destruct (Z.even (Qfloor q)); try lia; exfalso; lra.
  - pose proof (round_half_even_bounds q). pose proof (round_half_even_bounds q'). lia.
Qed.

Lemma pow10_pos (n : nat) : 0 < inject_Z (Zpos (pow10 n)).
Proof. unfold Qlt. simpl. lia. Qed.

Lemma Qof_round (x : Q) (n : nat) :
  Qof (round x n) == inject_Z (round_half_even (x * inject_Z (Zpos (pow10 n))))
                     / inject_Z (Zpos (pow10 n)).
Proof.
  unfold round, Qof. cbn [mant expo]. rewrite Qmake_Qdiv. reflexivity.
Qed.

(** [round] is monotone. *)
Lemma round_mono (x y : Q) (n : nat) : x <= y -> round x n <= round y n.
Proof.
  intros L. rewrite !Qof_round.
  pose proof (pow10_pos n) as P.
  apply Qmult_le_compat_r; [| apply Qlt_le_weak, Qinv_lt_0_compat, P].
  rewrite <- Zle_Qle. apply round_half_even_mono.
  apply Qmult_le_compat_r; [assumption | now apply Qlt_le_weak].
Qed.

Lemma round_comp (x y : Q) (n : nat) : x == y -> round x n = round y n.
Proof.
  intros E. unfold round. f_equal. apply round_half_even_comp. now rewrite E.
Qed.

Lemma round_half_even_Z (z : Z) : round_half_even (inject_Z z) = z.
Proof.
  unfold round_half_even. rewrite Qfloor_Z.
  assert (E : inject_Z z - inject_Z z == 0) by ring.
  now rewrite (Qcompare_comp _ _ E (1 # 2) (1 # 2) (Qeq_refl _)).
Qed.

(** A count written as an integer is read back through [round] and
    [int]. *)
Lemma int_round_Z (z : Z) (n : nat) :
  int (round (Qof (mkfloat z 0)) n) = z.
Proof.
  unfold round.
  assert (E : Qof (mkfloat z 0) * inject_Z (Zpos (pow10 n))
              == inject_Z (z * Zpos (pow10 n))).
  { unfold Qof. cbn [mant expo pow10]. rewrite inject_Z_mult. reflexivity. }
  rewrite (round_half_even_comp _ _ E), round_half_even_Z.
  unfold int, Qof. cbn [mant expo Qnum Qden].
  apply Z.quot_mul. lia.
Qed.

Lemma round_zero_le (x : Q) (n : nat) : 0 <= x -> 0 <= round x n.
Proof.
  intros H. pose proof (round_mono 0 x n H) as M.
  assert (E : Qof (round 0 n) == 0).
  { rewrite Qof_round. rewrite (round_half_even_comp (0 * _) (inject_Z 0)) by ring.
    rewrite round_half_even_Z. unfold Qdiv. ring. }
  rewrite E in M. exact M.
Qed.

(** ** Lines of a TextGrid file *)

Lemma readline_NL (rest : string) : readline (NL ++ rest) = (NL, rest).
Proof. destruct rest; reflexivity. Qed.

Lemma rstrip_NL (s : string) : rstrip (s ++ NL) = rstrip s.
Proof.
  induction s as [| c s IH]; [reflexivity |].
  change ((String c s ++ NL)%string) with (String c (s ++ NL)).
  cbn [rstrip]. now rewrite IH.
Qed.

Lemma plain_nonempty_rstrip (F : string) :
  plain F = true -> F <> ""%string ->
  exists c s, F = String c s /\ rstrip (F ++ NL) = String c s.
Proof.
  intros P N. destruct F as [| c s]; [congruence |].
  exists c, s. split; [reflexivity |]. rewrite rstrip_NL. now apply rstrip_plain.
Qed.

Lemma parse_line_bare (pre F : string) (rd : option nat) :
  bare_key pre = true -> plain F = true -> F <> ""%string ->
  parse_line (pre ++ F ++ NL) false rd
  = (x <- float_ F ;; r <- round_ x rd ;; ret (VFloat r)).
Proof.
  unfold bare_key. intros K P N.
  destruct (lstrip pre) as [| a pre'] eqn:L; [discriminate |].
  apply andb_true_iff in K as [K K3]. apply andb_true_iff in K as [_ K2].
  apply negb_true_iff in K2.
  destruct (after_first " = " pre') as [[| ? ?] |] eqn:A; try discriminate.
  destruct (plain_nonempty_rstrip F P N) as (c & s & E & R).
  unfold parse_line, strip.
  rewrite (rstrip_concat pre (F ++ NL) c s R), <- E.
  rewrite (lstrip_concat pre F a pre' L).
  rewrite contains_DQ_app, K2, (contains_DQ_plain F P).
  cbn [orb]. unfold re_key_value.
  change ((String a pre' ++ F)%string) with (String a (pre' ++ F)).
  cbv iota. now rewrite (after_first_app _ _ F _ A).
Qed.

Lemma parse_line_quoted (pre S : string) (rd : option nat) :
  quoted_key pre = true ->
  parse_line (pre ++ S ++ DQ ++ NL) false rd = ret (VStr S).
Proof.
  unfold quoted_key. intros K.
  destruct (lstrip pre) as [| a pre'] eqn:L; [discriminate |].
  apply andb_true_iff in K as [_ K].
  destruct (after_first (" = " ++ DQ) pre') as [[| ? ?] |] eqn:A; try discriminate.
  unfold parse_line, strip.
  assert (R : rstrip (S ++ DQ ++ NL) = (S ++ DQ)%string).
  { rewrite <- append_assoc, rstrip_NL.
    destruct S as [| c S].
    - reflexivity.
    - change ((String c S ++ DQ)%string) with (String c S ++ String dquote "")%string.
      now apply rstrip_concat. }
  assert (R' : exists c s, (S ++ DQ)%string = String c s).
  { destruct S; simpl; eauto. }
  destruct R' as (c & s & E). rewrite E in R.
  rewrite (rstrip_concat pre _ c s R), <- E.
  rewrite (lstrip_concat pre _ a pre' L).
  assert (C : contains DQ (String a pre' ++ S ++ DQ) = true).
  { rewrite !contains_DQ_app. replace (contains DQ DQ) with true by reflexivity.
    now rewrite !orb_true_r. }
  rewrite C. unfold re_key_quoted.
  change ((String a pre' ++ S ++ DQ)%string) with (String a (pre' ++ S ++ DQ)).
  cbv iota. rewrite (after_first_app _ _ _ _ A). cbn [append].
  now rewrite before_last_snoc.
Qed.

Lemma readline_written (pre V rest : string) :
  has_linebreak pre = false -> has_linebreak V = false ->
  readline (pre ++ V ++ NL ++ rest) = ((pre ++ V ++ NL)%string, rest).
Proof.
  intros H1 H2. rewrite <- !append_assoc. rewrite append_assoc.
  rewrite readline_line; [now rewrite !append_assoc |].
  now rewrite has_linebreak_app, H1, H2.
Qed.

Lemma bare_key_no_linebreak (pre : string) :
  bare_key pre = true -> has_linebreak pre = false.
Proof.
  unfold bare_key. destruct (lstrip pre); [discriminate |].
  intros K. apply andb_true_iff in K as [K _]. apply andb_true_iff in K as [K _].
  now apply negb_true_iff in K.
Qed.

Lemma quoted_key_no_linebreak (pre : string) :
  quoted_key pre = true -> has_linebreak pre = false.
Proof.
  unfold quoted_key. destruct (lstrip pre); [discriminate |].
  intros K. apply andb_true_iff in K as [K _]. now apply negb_true_iff in K.
Qed.

(** A float field, as written, is read back rounded. *)
Lemma read_float_written (pre : string) (x : float) (rest : string) (rd : nat) :
  bare_key pre = true ->
  read_float (pre ++ format_float x ++ NL ++ rest) false rd = ret (round x rd, rest).
Proof.
  intros K. unfold read_float.
  rewrite readline_written;
    [| now apply bare_key_no_linebreak
     | apply plain_no_linebreak, format_float_plain].
  cbn [fst snd].
  rewrite parse_line_bare; [| assumption | apply format_float_plain |].
  - unfold float_. rewrite float_of_string_format_float.
    now rewrite !bind_ret_l.
  - destruct (format_float_nonempty x) as (c & s & ->). discriminate.
Qed.

(** A count, as written, is read back. *)
Lemma read_count_written (pre : string) (n : nat) (rest : string) (rd : nat) :
  bare_key pre = true ->
  read_count (pre ++ format_int n ++ NL ++ rest) false rd = ret (n, rest).
Proof.
  intros K. unfold read_count, format_int.
  pose proof (all_digits_plain _ (format_N_digits (N.of_nat n))) as P.
  rewrite readline_written;
    [| now apply bare_key_no_linebreak | now apply plain_no_linebreak].
  cbn [fst snd].
  rewrite parse_line_bare; [| assumption | assumption |].
  - unfold float_. rewrite float_of_string_format_N.
    rewrite !bind_ret_l. cbn [round_]. rewrite !bind_ret_l.
    unfold int_of_value. rewrite bind_ret_l, int_round_Z, nat_N_Z, Nat2Z.id.
    reflexivity.
  - destruct (format_N_nonempty (N.of_nat n)) as (c & s & ->). discriminate.
Qed.

(** A name, as written, is read back when it holds no line boundary. *)
Lemma read_str_written (pre S rest : string) (rd : nat) :
  quoted_key pre = true -> has_linebreak S = false ->
  read_str (pre ++ S ++ DQ ++ NL ++ rest) false rd = ret (S, rest).
Proof.
  intros K H. unfold read_str.
  replace (pre ++ S ++ DQ ++ NL ++ rest)%string
    with (pre ++ (S ++ DQ) ++ NL ++ rest)%string by now rewrite !append_assoc.
  rewrite readline_written;
    [| now apply quoted_key_no_linebreak
     | now rewrite has_linebreak_app, H].
  cbn [fst snd]. rewrite append_assoc, parse_line_quoted by assumption.
  now rewrite !bind_ret_l.
Qed.

Lemma parse_class_written (pre S rest : string) (rd : option nat) :
  quoted_key pre = true -> has_linebreak S = false ->
  readline (pre ++ S ++ DQ ++ NL ++ rest) = ((pre ++ S ++ DQ ++ NL)%string, rest)
  /\ parse_line (pre ++ S ++ DQ ++ NL) false rd = ret (VStr S).
Proof.
  intros K H. split; [| now apply parse_line_quoted].
  replace (pre ++ S ++ DQ ++ NL ++ rest)%string
    with (pre ++ (S ++ DQ) ++ NL ++ rest)%string by now rewrite !append_assoc.
  rewrite readline_written;
    [now rewrite !append_assoc
    | now apply quoted_key_no_linebreak
    | now rewrite has_linebreak_app, H].
Qed.

(** ** Marks *)

Lemma linebreak_not_quote (c : ascii) :
  is_linebreak c = true -> Ascii.eqb c dquote = false.
Proof.
  destruct c as [[|] [|] [|] [|] [|] [|] [|] [|]]; vm_compute; congruence.
Qed.

Lemma quote_facts :
  is_linebreak dquote = false /\ is_space dquote = false /\ Ascii.eqb dquote LF = false.
Proof. repeat split. Qed.

Lemma double_quotes_cons (c : ascii) (s : string) :
  double_quotes (String c s)
  = if Ascii.eqb c dquote then String dquote (String dquote (double_quotes s))
    else String c (double_quotes s).
Proof. reflexivity. Qed.

Lemma double_quotes_app (a b : string) :
  double_quotes (a ++ b) = (double_quotes a ++ double_quotes b)%string.
Proof.
  induction a as [| c a IH]; [reflexivity |].
  change ((String c a ++ b)%string) with (String c (a ++ b)).
  rewrite !double_quotes_cons, IH. now destruct (Ascii.eqb c dquote).
Qed.

Lemma odd_quotes_cons (c : ascii) (s : string) :
  odd_quotes (String c s)
  = if Ascii.eqb c dquote then negb (odd_quotes s) else odd_quotes s.
Proof. reflexivity. Qed.

Lemma odd_quotes_app (a b : string) :
  odd_quotes (a ++ b) = xorb (odd_quotes a) (odd_quotes b).
Proof.
  induction a as [| c a IH]; [cbn [append odd_quotes]; now rewrite xorb_false_l |].
  change ((String c a ++ b)%string) with (String c (a ++ b)).
  rewrite !odd_quotes_cons, IH.
  destruct (Ascii.eqb c dquote), (odd_quotes a), (odd_quotes b); reflexivity.
Qed.

Lemma odd_quotes_double (m : string) : odd_quotes (double_quotes m) = false.
Proof.
  induction m as [| c m IH]; [reflexivity |].
  rewrite double_quotes_cons. destruct (Ascii.eqb c dquote) eqn:E.
  - rewrite !odd_quotes_cons, Ascii.eqb_refl, IH. reflexivity.
  - now rewrite odd_quotes_cons, E.
Qed.

Lemma has_linebreak_double (m : string) :
  has_linebreak (double_quotes m) = has_linebreak m.
Proof.
  induction m as [| c m IH]; [reflexivity |].
  rewrite double_quotes_cons. destruct (Ascii.eqb c dquote) eqn:E.
  - apply Ascii.eqb_eq in E. subst c. cbn [has_linebreak].
    rewrite IH. now destruct quote_facts as (-> & _).
  - cbn [has_linebreak]. now rewrite IH.
Qed.

Lemma length_double (m : string) :
  (String.length m <= String.length (double_quotes m))%nat.
Proof.
  induction m as [| c m IH]; [simpl; lia |].
  rewrite double_quotes_cons. destruct (Ascii.eqb c dquote); simpl; lia.
Qed.

Lemma undouble_quotes_cons (c a : ascii) (s : string) :
  undouble_quotes (String c (String a s))
  = if Ascii.eqb c dquote && Ascii.eqb a dquote
    then String dquote (undouble_quotes s)
    else String c (undouble_quotes (String a s)).
Proof. reflexivity. Qed.

Lemma undouble_double (m : string) : undouble_quotes (double_quotes m) = m.
Proof.
  induction m as [| c m IH]; [reflexivity |].
  rewrite double_quotes_cons. destruct (Ascii.eqb c dquote) eqn:E.
  - apply Ascii.eqb_eq in E. subst c.
    rewrite undouble_quotes_cons, Ascii.eqb_refl. cbn [andb]. now rewrite IH.
  - destruct (double_quotes m) as [| a s] eqn:D.
    + rewrite <- IH. reflexivity.
    + rewrite undouble_quotes_cons, E. cbn [andb]. now rewrite IH.
Qed.

Lemma all_space_quote (s t : string) : all_space (s ++ String dquote t) = false.
Proof.
  induction s as [| c s IH]; [reflexivity |].
  change ((String c s ++ String dquote t)%string) with (String c (s ++ String dquote t)).
  cbn [all_space]. rewrite IH. apply andb_false_r.
Qed.

Lemma lazy_entry_cons (c : ascii) (r : string) :
  lazy_entry (String c r)
  = if Ascii.eqb c dquote && all_space r then Some ""%string
    else match lazy_entry r with
         | Some g => Some (String c g)
         | None => None
         end.
Proof. reflexivity. Qed.

Lemma lazy_entry_double (m : string) :
  lazy_entry (double_quotes m ++ DQ ++ NL) = Some (double_quotes m).
Proof.
  induction m as [| c m IH]; [reflexivity |].
  rewrite double_quotes_cons. destruct (Ascii.eqb c dquote) eqn:E.
  - change ((String dquote (String dquote (double_quotes m)) ++ DQ ++ NL)%string)
      with (String dquote (String dquote (double_quotes m ++ DQ ++ NL))).
    rewrite lazy_entry_cons.
    replace (all_space (String dquote (double_quotes m ++ DQ ++ NL))) with false
      by reflexivity.
    rewrite andb_false_r, lazy_entry_cons.
    change (DQ ++ NL)%string with (String dquote NL) at 1.
    now rewrite all_space_quote, andb_false_r, IH.
  - change ((String c (double_quotes m) ++ DQ ++ NL)%string)
      with (String c (double_quotes m ++ DQ ++ NL)).
    rewrite lazy_entry_cons, E. cbn [andb]. now rewrite IH.
Qed.

(** [readline] over a prefix without a line boundary. *)
Lemma readline_app (p s : string) :
  has_linebreak p = false ->
  readline (p ++ s) = ((p ++ fst (readline s))%string, snd (readline s)).
Proof.
  induction p as [| c p IH]; intros H.
  - cbn [append]. now destruct (readline s).
  - cbn [has_linebreak] in H. apply orb_false_iff in H as [H1 H2].
    change ((String c p ++ s)%string) with (String c (p ++ s)).
    cbn [readline]. rewrite H1, IH by assumption. reflexivity.
Qed.

(** The first line of a doubled mark that holds a line boundary: the mark
    splits into what the line holds and a shorter rest. *)
Lemma readline_first_line (m : string) (tail : string) :
  has_linebreak m = true ->
  exists m1 m2,
    m = (m1 ++ m2)%string
    /\ (String.length m2 < String.length m)%nat
    /\ readline (double_quotes m ++ String dquote tail)
       = (double_quotes m1, (double_quotes m2 ++ String dquote tail)%string).
Proof.
  induction m as [| x m IH]; [discriminate |].
  cbn [has_linebreak]. destruct (is_linebreak x) eqn:L; intros H.
  - pose proof (linebreak_not_quote x L) as Q.
    rewrite double_quotes_cons, Q.
    change ((String x (double_quotes m) ++ String dquote tail)%string)
      with (String x (double_quotes m ++ String dquote tail)).
    cbn [readline]. rewrite L.
    destruct m as [| y m].
    + exists (String x ""), ""%string. repeat split; [simpl; lia |].
      rewrite double_quotes_cons, Q. cbn [double_quotes append].
      destruct (Ascii.eqb x (ascii_of_nat 13)); reflexivity.
    + rewrite double_quotes_cons. destruct (Ascii.eqb y dquote) eqn:Qy.
      * exists (String x ""), (String y m). repeat split; [simpl; lia |].
        change ((String dquote (String dquote (double_quotes m)) ++ String dquote tail)%string)
          with (String dquote (String dquote (double_quotes m) ++ String dquote tail)).
        cbv iota.
        replace (Ascii.eqb dquote (ascii_of_nat 10)) with false by reflexivity.
        rewrite andb_false_r. rewrite double_quotes_cons, Q, double_quotes_cons, Qy.
        reflexivity.
      * change ((String y (double_quotes m) ++ String dquote tail)%string)
          with (String y (double_quotes m ++ String dquote tail)).
        cbv iota.
        destruct (Ascii.eqb x (ascii_of_nat 13) && Ascii.eqb y (ascii_of_nat 10)) eqn:C.
        -- exists (String x (String y "")), m. repeat split; [simpl; lia |].
           rewrite double_quotes_cons, Q, double_quotes_cons, Qy. reflexivity.
        -- exists (String x ""), (String y m). repeat split; [simpl; lia |].
           rewrite double_quotes_cons, Q, double_quotes_cons, Qy. reflexivity.
  - cbn [orb] in H. destruct (IH H) as (m1 & m2 & E & Len & R).
    exists (String x m1), m2. split; [now rewrite E |]. split; [simpl; lia |].
    rewrite !double_quotes_cons. destruct (Ascii.eqb x dquote) eqn:Q.
    + change ((String dquote (String dquote (double_quotes m)) ++ String dquote tail)%string)
        with (String dquote (String dquote (double_quotes m ++ String dquote tail))).
      cbn [readline]. replace (is_linebreak dquote) with false by reflexivity.
      now rewrite R.
    + change ((String x (double_quotes m) ++ String dquote tail)%string)
        with (String x (double_quotes m ++ String dquote tail)).
      cbn [readline]. now rewrite L, R.
Qed.

Lemma getMark_loop_even (n : nat) (line text : string) :
  odd_quotes line = false -> getMark_loop n line text = ret (line, text).
Proof. intros H. destruct n; cbn [getMark_loop]; now rewrite H. Qed.

Lemma double_nonempty (m1 : string) :
  m1 <> ""%string -> exists c s, double_quotes m1 = String c s.
Proof.
  destruct m1 as [| c m1]; [congruence |]. intros _.
  rewrite double_quotes_cons. destruct (Ascii.eqb c dquote); eauto.
Qed.

(** The loop of [_getMark] on a doubled mark reads up to the closing
    double quote. *)
Lemma getMark_loop_written (k : nat) :
  forall (m acc : string) (fuel : nat) (rest : string),
    (String.length m <= k)%nat -> (String.length m < fuel)%nat ->
    odd_quotes acc = true ->
    getMark_loop fuel acc (double_quotes m ++ DQ ++ NL ++ rest)
    = ret ((acc ++ double_quotes m ++ DQ ++ NL)%string, rest).
Proof.
  induction k as [| k IH]; intros m acc fuel rest Hk Hf Ho.
  - destruct m; [| simpl in Hk; lia].
    destruct fuel as [| n]; [simpl in Hf; lia |].
    cbn [getMark_loop double_quotes append]. rewrite Ho.
    change (DQ ++ NL ++ rest)%string with ((DQ ++ NL) ++ rest)%string at 1 2.
    unfold DQ at 1 2. cbn [append]. 
    change (String dquote (NL ++ rest)) with (DQ ++ NL ++ rest)%string.
    rewrite (readline_line DQ rest eq_refl). cbn [fst snd].
    change ((DQ ++ NL)%string) with (String dquote NL).
    rewrite getMark_loop_even; [reflexivity |].
    rewrite odd_quotes_app, Ho. reflexivity.
  - destruct fuel as [| n]; [lia |].
    cbn [getMark_loop]. rewrite Ho.
    destruct (has_linebreak m) eqn:L.
    + destruct (readline_first_line m (NL ++ rest) L) as (m1 & m2 & E & Len & R).
      change (DQ ++ NL ++ rest)%string with (String dquote (NL ++ rest)).
      rewrite R. cbn [fst snd].
      assert (N1 : m1 <> ""%string).
      { intros ->. simpl in E. subst m2. lia. }
      destruct (double_nonempty m1 N1) as (c & s & E1). rewrite E1.
      rewrite <- E1.
      change (String dquote (NL ++ rest)) with (DQ ++ NL ++ rest)%string.
      rewrite IH; [| lia | lia |].
      * rewrite E, double_quotes_app, !append_assoc. reflexivity.
      * now rewrite odd_quotes_app, Ho, odd_quotes_double.
    + assert (R : readline (double_quotes m ++ DQ ++ NL ++ rest)
                  = ((double_quotes m ++ DQ ++ NL)%string, rest)).
      { rewrite <- append_assoc. rewrite readline_line; [now rewrite append_assoc |].
        now rewrite has_linebreak_app, has_linebreak_double, L. }
      rewrite R. cbn [fst snd].
      assert (N : exists c s, (double_quotes m ++ DQ ++ NL)%string = String c s).
      { destruct (double_quotes m); simpl; eauto. }
      destruct N as (c & s & E). rewrite E, <- E.
      rewrite getMark_loop_even; [reflexivity |].
      rewrite !odd_quotes_app, Ho, odd_quotes_double. reflexivity.
Qed.

Lemma entry_key_facts (pre : string) :
  entry_key pre = true ->
  has_linebreak pre = false /\ odd_quotes pre = true
  /\ forall s, entry_start (pre ++ s) = Some s.
Proof.
  unfold entry_key. intros K. apply andb_true_iff in K as [K1 K2].
  apply negb_true_iff in K1. split; [assumption |].
  assert (O : forall p, odd_quotes (lstrip p) = odd_quotes p).
  { induction p as [| c p IHp]; [reflexivity |]. cbn [lstrip].
    destruct (is_space c) eqn:Sp; [| reflexivity].
    rewrite odd_quotes_cons. destruct (Ascii.eqb c dquote) eqn:Q; [| exact IHp].
    apply Ascii.eqb_eq in Q. subst c. discriminate Sp. }
  apply orb_true_iff in K2 as [K2 | K2]; apply String.eqb_eq in K2.
  - split; [rewrite <- O, K2; reflexivity |].
    intros s. unfold entry_start.
    rewrite (lstrip_concat pre s _ _ K2). reflexivity.
  - split; [rewrite <- O, K2; reflexivity |].
    intros s. unfold entry_start.
    rewrite (lstrip_concat pre s _ _ K2). reflexivity.
Qed.

(** A mark, as written, is read back, whatever it holds. *)
Lemma getMark_written (pre m rest : string) :
  entry_key pre = true ->
  getMark (pre ++ double_quotes m ++ DQ ++ NL ++ rest) false = ret (m, rest).
Proof.
  intros K. destruct (entry_key_facts pre K) as (Hl & Ho & Hs).
  assert (L : exists line text,
             readline (pre ++ double_quotes m ++ DQ ++ NL ++ rest) = (line, text)
             /\ entry_start line <> None
             /\ getMark_loop (String.length text) line text
                = ret ((pre ++ double_quotes m ++ DQ ++ NL)%string, rest)).
  { destruct (has_linebreak m) eqn:E.
    - destruct (readline_first_line m (NL ++ rest) E) as (m1 & m2 & Em & Len & R).
      exists (pre ++ double_quotes m1)%string, (double_quotes m2 ++ DQ ++ NL ++ rest)%string.
      split; [| split].
      + rewrite readline_app by assumption.
        change (DQ ++ NL ++ rest)%string with (String dquote (NL ++ rest)).
        now rewrite R.
      + now rewrite Hs.
      + rewrite getMark_loop_written with (k := String.length m2).
        * rewrite Em, double_quotes_app, !append_assoc. reflexivity.
        * lia.
        * rewrite !length_append. pose proof (length_double m2). simpl. lia.
        * now rewrite odd_quotes_app, Ho, odd_quotes_double.
    - exists (pre ++ double_quotes m ++ DQ ++ NL)%string, rest.
      split; [| split].
      + replace (pre ++ double_quotes m ++ DQ ++ NL ++ rest)%string
          with ((pre ++ double_quotes m ++ DQ) ++ NL ++ rest)%string
          by now rewrite !append_assoc.
        rewrite readline_line; [now rewrite !append_assoc |].
        now rewrite !has_linebreak_app, Hl, has_linebreak_double, E.
      + now rewrite Hs.
      + apply getMark_loop_even.
        rewrite !odd_quotes_app, Ho, odd_quotes_double. reflexivity. }
  destruct L as (line & text & R & S & G).
  unfold getMark. rewrite R. cbn [fst snd].
  destruct (entry_start line) eqn:Es; [| congruence].
  cbn [negb andb]. rewrite raise_if_false, bind_ret_l, G, bind_ret_l.
  rewrite Hs, lazy_entry_double, undouble_double. reflexivity.
Qed.

(** ** Appending at the end of a tier *)

Lemma bisect_left_all (A : Type) (lt : A -> py bool) (l : list A) :
  (forall e, In e l -> lt e = ret true) ->
  bisect_left lt l = ret (List.length l).
Proof.
  intros H. pose proof (bisect_left_split A lt l [] H) as E.
  rewrite app_nil_r in E. apply E. intros e [].
Qed.

Lemma nth_error_length (A : Type) (l : list A) : nth_error l (List.length l) = None.
Proof. apply nth_error_None. lia. Qed.

Lemma list_insert_end (A : Type) (x : A) (l : list A) :
  list_insert (List.length l) x l = l ++ [x].
Proof.
  pose proof (list_insert_app A x l []) as E. now rewrite app_nil_r in E.
Qed.

Lemma place_at_end (self : IntervalTier.t) (x : Interval.t) :
  valid x ->
  Forall valid (IntervalTier.intervals self) ->
  Forall (fun e => before e x) (IntervalTier.intervals self) ->
  place self x
  = ret (set_intervals self
           (IntervalTier.intervals self
            ++ [set_Interval_strict (IntervalTier.strict self) x])).
Proof.
  intros Vx V B. unfold place.
  rewrite bisect_left_all.
  - now rewrite bind_ret_l, nth_error_length, bind_ret_l, list_insert_end.
  - intros e He. rewrite Forall_forall in V, B. apply Interval_lt_before; auto.
Qed.

Lemma addPoint_at_end (self : PointTier.t) (p : Point.t) :
  PointTier.minTime self <= Point.time p ->
  PointTier.maxTime self = None ->
  Forall (fun e => Point.time e < Point.time p) (PointTier.points self) ->
  PointTier_addPoint self p = ret (set_points self (PointTier.points self ++ [p])).
Proof.
  intros Hmin Hmax B. unfold PointTier_addPoint, Point_lt at 1.
  rewrite bind_ret_l.
  replace (ltb (Point.time p) (PointTier.minTime self)) with false
    by (symmetry; props; assumption).
  rewrite raise_if_false, bind_ret_l, Hmax, bind_ret_l.
  rewrite bisect_left_all.
  - now rewrite bind_ret_l, nth_error_length, bind_ret_l, list_insert_end.
  - intros e He. rewrite Forall_forall in B. unfold Point_lt.
    f_equal. f_equal. props. auto.
Qed.

(** ** What covers is sorted *)

Lemma covers_lower (lo : Q) (l : list Interval.t) (hi : Q) :
  covers lo l hi -> Forall (fun o => lo <= Interval.minTime o) l.
Proof.
  revert lo. induction l as [| i l IH]; intros lo; [constructor |].
  intros (H1 & H2 & H3). constructor; [rewrite H1; apply Qle_refl |].
  eapply Forall_impl; [| exact (IH _ H3)]. cbv beta. intros o Ho.
  unfold valid in H2. lra.
Qed.

Lemma covers_upper (lo : Q) (l : list Interval.t) (hi : Q) :
  covers lo l hi -> Forall (fun o => Interval.maxTime o <= hi) l.
Proof.
  revert lo. induction l as [| i l IH]; intros lo; [constructor |].
  intros (H1 & H2 & H3). constructor; [now apply covers_le in H3 |].
  exact (IH _ H3).
Qed.

Lemma covers_sorted (lo : Q) (l : list Interval.t) (hi : Q) :
  covers lo l hi -> sorted_disjoint l.
Proof.
  revert lo. induction l as [| i l IH]; intros lo.
  - intros _. split; constructor.
  - intros (H1 & H2 & H3). destruct (IH _ H3) as [V S]. split.
    + now constructor.
    + constructor; [assumption |]. exact (covers_lower _ _ _ H3).
Qed.

(** What [_fillInTheGaps] returns for a sorted tier. *)
Lemma fillInTheGaps_facts (self : IntervalTier.t) (null : string) (m : Q) :
  sorted_disjoint (IntervalTier.intervals self) ->
  Forall (fun i => IntervalTier.minTime self <= Interval.minTime i)
         (IntervalTier.intervals self) ->
  IntervalTier.minTime self <= m ->
  Forall (fun i => Interval.maxTime i <= m) (IntervalTier.intervals self) ->
  match IntervalTier.maxTime self with Some x => Qof x <= m | None => True end ->
  exists output hi,
    IntervalTier_fillInTheGaps self null = ret output
    /\ covers (IntervalTier.minTime self) output hi
    /\ hi <= m.
Proof.
  intros [V S] Lo Hm Up Hx.
  destruct (fillInTheGaps_loop_covers null (IntervalTier.intervals self)
              (IntervalTier.minTime self) [] V S Lo)
    as (hi & filled & R & C & M & _ & _).
  specialize (M m Hm Up).
  unfold IntervalTier_fillInTheGaps. rewrite R, bind_ret_l. simpl app.
  destruct (IntervalTier.maxTime self) as [x |].
  - destruct (ltb hi x) eqn:E; props.
    + rewrite Interval_init_ok, bind_ret_l by assumption.
      eexists. exists x. split; [reflexivity |]. split; [| assumption].
      apply (covers_snoc _ _ _ (Interval.mk hi x null true) C); [exact E |].
      apply Qeq_refl.
    + exists filled, hi. auto.
  - exists filled, hi. auto.
Qed.

Lemma gap_filled_eq (self : IntervalTier.t) (null : string) (output : list Interval.t) :
  IntervalTier_fillInTheGaps self null = ret output -> gap_filled null self = output.
Proof. intros H. unfold gap_filled. now rewrite H. Qed.

Lemma sorted_disjoint_round (rd : nat) (strict : bool) (l : list Interval.t) :
  StronglySorted before l ->
  Forall valid (map (round_interval rd strict) l) ->
  sorted_disjoint (map (round_interval rd strict) l).
Proof.
  intros S V. split; [assumption |]. clear V.
  induction S as [| i l S IH F]; simpl; constructor; [assumption |].
  apply Forall_map. eapply Forall_impl; [| exact F].
  unfold before. simpl. intros o. apply round_mono.
Qed.

(** ** Printed lines *)

Lemma has_linebreak_format_int (n : nat) : has_linebreak (format_int n) = false.
Proof. apply plain_no_linebreak, all_digits_plain, format_N_digits. Qed.

Lemma skip_printed (line s rest : string) :
  line = s -> has_linebreak s = false -> skip_line (print line ++ rest) = rest.
Proof.
  intros -> H. unfold print. rewrite append_assoc. now apply skip_line_line.
Qed.

Lemma read_float_printed (line pre : string) (x : float) (rest : string) (rd : nat) :
  line = (pre ++ format_float x)%string -> bare_key pre = true ->
  read_float (print line ++ rest) false rd = ret (round x rd, rest).
Proof.
  intros -> K. unfold print. rewrite !append_assoc. now apply read_float_written.
Qed.

Lemma read_count_printed (line pre : string) (n : nat) (rest : string) (rd : nat) :
  line = (pre ++ format_int n)%string -> bare_key pre = true ->
  read_count (print line ++ rest) false rd = ret (n, rest).
Proof.
  intros -> K. unfold print. rewrite !append_assoc. now apply read_count_written.
Qed.

Lemma read_str_printed (line pre S rest : string) (rd : nat) :
  line = (pre ++ S ++ DQ)%string -> quoted_key pre = true -> has_linebreak S = false ->
  read_str (print line ++ rest) false rd = ret (S, rest).
Proof.
  intros -> K H. unfold print. rewrite !append_assoc. now apply read_str_written.
Qed.

Lemma getMark_printed (line pre m rest : string) :
  line = (pre ++ formatMark m ++ DQ)%string -> entry_key pre = true ->
  getMark (print line ++ rest) false = ret (m, rest).
Proof.
  intros -> K. unfold print, formatMark. rewrite !append_assoc.
  now apply getMark_written.
Qed.

Lemma no_linebreak_index (pre : string) (j : nat) (post : string) :
  has_linebreak pre = false -> has_linebreak post = false ->
  has_linebreak (pre ++ format_int j ++ post) = false.
Proof.
  intros H1 H2. now rewrite !has_linebreak_app, H1, H2, has_linebreak_format_int.
Qed.

Lemma set_intervals_same (itie : IntervalTier.t) :
  set_intervals itie (IntervalTier.intervals itie) = itie.
Proof. now destruct itie. Qed.

Lemma set_points_same (itie : PointTier.t) :
  set_points itie (PointTier.points itie) = itie.
Proof. now destruct itie. Qed.

(** ** The loop over the intervals of a tier reads what was written *)

Lemma read_written_intervals (rd : nat) (output : list Interval.t) :
  forall (j : nat) (itie : IntervalTier.t) (rest : string),
    sorted_disjoint
      (IntervalTier.intervals itie
       ++ map (round_interval rd (IntervalTier.strict itie)) output) ->
    Forall (fun o => too_early itie (round_interval rd true o) = false
                     /\ too_late itie (round_interval rd true o) = false) output ->
    read_intervals (List.length output) false rd itie
      (write_intervals j output ++ rest)
    = ret (set_intervals itie
             (IntervalTier.intervals itie
              ++ map (round_interval rd (IntervalTier.strict itie)) output),
           rest).
Proof.
  induction output as [| o output IH]; intros j itie rest SD B.
  - cbn [List.length read_intervals write_intervals map append].
    now rewrite app_nil_r, set_intervals_same.
  - cbn [List.length read_intervals write_intervals map].
    rewrite !append_assoc.
    rewrite (skip_printed _ (TAB ++ TAB ++ TAB ++ "intervals [" ++ format_int j ++ "]:"))
      by (reflexivity || (apply (no_linebreak_index (TAB ++ TAB ++ TAB ++ "intervals [") j "]:"); reflexivity)).
    rewrite (read_float_printed _ (TAB ++ TAB ++ TAB ++ TAB ++ "xmin = ") (Interval.minTime o))
      by reflexivity.
    rewrite bind_ret_l.
    rewrite (read_float_printed _ (TAB ++ TAB ++ TAB ++ TAB ++ "xmax = ") (Interval.maxTime o))
      by reflexivity.
    rewrite bind_ret_l.
    rewrite (getMark_printed _ (TAB ++ TAB ++ TAB ++ TAB ++ "text = " ++ DQ) (Interval.mark o))
      by reflexivity.
    rewrite bind_ret_l.
    destruct SD as [V S]. apply Forall_app in V as [Vl Vo].
    pose proof (Forall_inv Vo) as Vr. unfold valid, round_interval in Vr. cbn in Vr.
    replace (ltb (round (Interval.minTime o) rd) (round (Interval.maxTime o) rd))
      with true by (symmetry; props; exact Vr).
    rewrite Interval_init_ok, bind_ret_l by exact Vr.
    rewrite addInterval_checks.
    pose proof (Forall_inv B) as [B1 B2].
    change (too_early itie (round_interval rd true o)) with
      (too_early itie (Interval.mk (round (Interval.minTime o) rd)
                         (round (Interval.maxTime o) rd) (Interval.mark o) true)) in B1.
    change (too_late itie (round_interval rd true o)) with
      (too_late itie (Interval.mk (round (Interval.minTime o) rd)
                         (round (Interval.maxTime o) rd) (Interval.mark o) true)) in B2.
    rewrite B1, B2.
    rewrite place_at_end; [| exact Vr | exact Vl |].
    + rewrite bind_ret_l.
      rewrite IH.
      * cbn [set_intervals IntervalTier.intervals IntervalTier.strict].
        unfold set_intervals. cbn. now rewrite <- app_assoc.
      * cbn [set_intervals IntervalTier.intervals IntervalTier.strict].
        rewrite <- app_assoc. split; [apply Forall_app; split; assumption | exact S].
      * apply Forall_inv_tail in B. eapply Forall_impl; [| exact B].
        intros a Ha. exact Ha.
    + apply StronglySorted_app_inv in S as (_ & _ & S).
      apply Forall_forall. intros e He.
      specialize (S e _ He (or_introl eq_refl)). exact S.
Qed.

(** ** The loop over the points of a tier reads what was written *)

Lemma read_written_points (rd : nat) (points : list Point.t) :
  forall (k : nat) (itie : PointTier.t) (rest : string),
    PointTier.maxTime itie = None ->
    Forall (fun p => PointTier.minTime itie <= round (Point.time p) rd) points ->
    StronglySorted (fun a b => Point.time a < Point.time b)
      (PointTier.points itie ++ map (round_point rd) points) ->
    read_points (List.length points) false rd itie (write_points k points ++ rest)
    = ret (set_points itie (PointTier.points itie ++ map (round_point rd) points),
           rest).
Proof.
  induction points as [| p points IH]; intros k itie rest M B S.
  - cbn [List.length read_points write_points map append].
    now rewrite app_nil_r, set_points_same.
  - cbn [List.length read_points write_points map].
    rewrite !append_assoc.
    rewrite (skip_printed _ (TAB ++ TAB ++ TAB ++ "points [" ++ format_int k ++ "]:"))
      by (reflexivity || (apply (no_linebreak_index (TAB ++ TAB ++ TAB ++ "points [") k "]:"); reflexivity)).
    rewrite (read_float_printed _ (TAB ++ TAB ++ TAB ++ TAB ++ "time = ") (Point.time p))
      by reflexivity.
    rewrite bind_ret_l.
    rewrite (getMark_printed _ (TAB ++ TAB ++ TAB ++ TAB ++ "mark = " ++ DQ) (Point.mark p))
      by reflexivity.
    rewrite bind_ret_l.
    rewrite addPoint_at_end; [| exact (Forall_inv B) | exact M |].
    + rewrite bind_ret_l. rewrite IH.
      * unfold set_points. cbn. now rewrite <- app_assoc.
      * exact M.
      * exact (Forall_inv_tail B).
      * cbn [set_points PointTier.points]. now rewrite <- app_assoc.
    + apply StronglySorted_app_inv in S as (_ & _ & S).
      apply Forall_forall. intros e He.
      exact (S e _ He (or_introl eq_refl)).
Qed.

Lemma round_interval_sorted (rd : nat) (strict : bool) (l : list Interval.t) :
  StronglySorted before l ->
  Forall (fun o => round (Interval.minTime o) rd < round (Interval.maxTime o) rd) l ->
  sorted_disjoint (map (round_interval rd strict) l).
Proof.
  intros S V. split.
  - apply Forall_map. exact V.
  - clear V. induction S as [| i l S IH F]; simpl; constructor; [assumption |].
    apply Forall_map. eapply Forall_impl; [| exact F].
    unfold before. simpl. intros o. apply round_mono.
Qed.

Lemma round_point_sorted (rd : nat) (l : list Point.t) :
  StronglySorted (fun a b => round (Point.time a) rd < round (Point.time b) rd) l ->
  StronglySorted (fun a b => Point.time a < Point.time b) (map (round_point rd) l).
Proof.
  induction 1 as [| p l S IH F]; simpl; constructor; [assumption |].
  apply Forall_map. exact F.
Qed.

Lemma set_strict_round_interval (rd : nat) (b : bool) (l : list Interval.t) :
  map (set_Interval_strict b) (map (round_interval rd b) l) = map (round_interval rd b) l.
Proof. rewrite map_map. apply map_ext. reflexivity. Qed.

Lemma readline_printed (line rest : string) :
  has_linebreak line = false -> readline (print line ++ rest) = (print line, rest).
Proof.
  intros H. unfold print. rewrite append_assoc. now apply readline_line.
Qed.

Lemma parse_line_printed (line pre S : string) (rd : option nat) :
  line = (pre ++ S ++ DQ)%string -> quoted_key pre = true ->
  parse_line (print line) false rd = ret (VStr S).
Proof.
  intros -> K. unfold print. rewrite !append_assoc. now apply parse_line_quoted.
Qed.

(** ** One tier *)

Lemma read_written_tier (rd : nat) (maxT : float) (null : string) (t : tier) (i : nat) :
  writable rd maxT null t ->
  exists s,
    write_tier i maxT null t = ret s
    /\ forall (m : nat) (self : TextGrid.t) (rest : string),
         TextGrid.maxTime self = Some (round maxT rd) ->
         read_tiers (S m) false rd self (s ++ rest)
         = read_tiers m false rd
             (set_tiers self
                (TextGrid.tiers self ++ [reread rd (TextGrid.strict self) maxT null t]))
             rest.
Proof.
  destruct t as [t | t].
  - intros (Hn & SD & B & Hm & Hx & V).
    destruct (fillInTheGaps_facts t null maxT SD) as (output & hi & E & C & Hhi);
      try assumption.
    { eapply Forall_impl; [| exact B]. now intros a [H _]. }
    { eapply Forall_impl; [| exact B]. now intros a [_ H]. }
    rewrite (gap_filled_eq _ _ _ E) in V.
    unfold write_tier. rewrite E, bind_ret_l. eexists. split; [reflexivity |].
    intros m self rest HM.
    cbn [read_tiers]. rewrite !append_assoc.
    rewrite (skip_printed _ (TAB ++ "item [" ++ format_int i ++ "]:"))
      by (reflexivity || (apply (no_linebreak_index (TAB ++ "item [") i "]:"); reflexivity)).
    rewrite readline_printed by reflexivity. cbn [fst snd].
    rewrite (parse_line_printed _ (TAB ++ TAB ++ "class = " ++ DQ) "IntervalTier")
      by reflexivity.
    rewrite bind_ret_l.
    change (value_is (VStr "IntervalTier") "IntervalTier") with true. cbv iota.
    rewrite (read_str_printed _ (TAB ++ TAB ++ "name = " ++ DQ) (format_name (IntervalTier.name t)))
      by (reflexivity || assumption).
    rewrite bind_ret_l.
    rewrite (read_float_printed _ (TAB ++ TAB ++ "xmin = ") (IntervalTier.minTime t))
      by reflexivity.
    rewrite bind_ret_l.
    rewrite (read_float_printed _ (TAB ++ TAB ++ "xmax = ") maxT) by reflexivity.
    rewrite bind_ret_l.
    rewrite (read_count_printed _ (TAB ++ TAB ++ "intervals: size = ") (List.length output))
      by reflexivity.
    rewrite bind_ret_l.
    rewrite read_written_intervals.
    + rewrite bind_ret_l.
      unfold TextGrid_append. rewrite HM.
      cbn [tier_maxTime set_intervals set_IntervalTier_strict IntervalTier_init
           IntervalTier.maxTime IntervalTier.name IntervalTier.minTime
           IntervalTier.intervals IntervalTier.strict app].
      replace (gtb (round maxT rd) (round maxT rd)) with false
        by (symmetry; props; apply Qle_refl).
      rewrite raise_if_false, !bind_ret_l.
      unfold reread, tier_set_strict.
      cbn [IntervalTier.maxTime IntervalTier.name IntervalTier.minTime
           IntervalTier.intervals IntervalTier.strict].
      unfold set_intervals, set_IntervalTier_strict, IntervalTier_init.
      cbn [IntervalTier.maxTime IntervalTier.name IntervalTier.minTime
           IntervalTier.intervals IntervalTier.strict].
      rewrite set_strict_round_interval, (gap_filled_eq _ _ _ E). reflexivity.
    + cbn [set_IntervalTier_strict IntervalTier_init IntervalTier.intervals
           IntervalTier.strict app].
      apply round_interval_sorted; [| exact V].
      exact (proj2 (covers_sorted _ _ _ C)).
    + pose proof (covers_lower _ _ _ C) as L.
      pose proof (covers_upper _ _ _ C) as U.
      rewrite Forall_forall in L, U. apply Forall_forall. intros o Ho.
      unfold too_early, too_late.
      cbn [set_IntervalTier_strict IntervalTier_init IntervalTier.minTime
           IntervalTier.maxTime round_interval Interval.minTime Interval.maxTime].
      split.
      * props. apply round_mono. exact (L o Ho).
      * apply andb_false_iff. right. props. apply round_mono.
        specialize (U o Ho). cbv beta in U. lra.
  - intros (Hn & S & B).
    unfold write_tier. eexists. split; [reflexivity |].
    intros m self rest HM.
    cbn [read_tiers]. rewrite !append_assoc.
    rewrite (skip_printed _ (TAB ++ "item [" ++ format_int i ++ "]:"))
      by (reflexivity || (apply (no_linebreak_index (TAB ++ "item [") i "]:"); reflexivity)).
    rewrite readline_printed by reflexivity. cbn [fst snd].
    rewrite (parse_line_printed _ (TAB ++ TAB ++ "class = " ++ DQ) "TextTier")
      by reflexivity.
    rewrite bind_ret_l.
    change (value_is (VStr "TextTier") "IntervalTier") with false. cbv iota.
    rewrite (read_str_printed _ (TAB ++ TAB ++ "name = " ++ DQ) (format_name (PointTier.name t)))
      by (reflexivity || assumption).
    rewrite bind_ret_l.
    rewrite (read_float_printed _ (TAB ++ TAB ++ "xmin = ") (PointTier.minTime t))
      by reflexivity.
    rewrite bind_ret_l.
    rewrite (read_float_printed _ (TAB ++ TAB ++ "xmax = ") maxT) by reflexivity.
    rewrite bind_ret_l.
    rewrite (read_count_printed _ (TAB ++ TAB ++ "points: size = ")
               (List.length (PointTier.points t)))
      by reflexivity.
    rewrite bind_ret_l.
    rewrite read_written_points.
    + rewrite bind_ret_l.
      unfold TextGrid_append. rewrite HM.
      cbn [tier_maxTime set_points PointTier_init PointTier.maxTime PointTier.name
           PointTier.minTime PointTier.points PointTier.strict app].
      rewrite !bind_ret_l.
      unfold reread, tier_set_strict, set_points, PointTier_init.
      cbn [PointTier.maxTime PointTier.name PointTier.minTime PointTier.points
           PointTier.strict].
      now rewrite map_map.
    + reflexivity.
    + eapply Forall_impl; [| exact B]. intros p Hp.
      cbn [PointTier_init PointTier.minTime].
      exact (round_zero_le _ rd Hp).
    + cbn [PointTier_init PointTier.points app]. now apply round_point_sorted.
Qed.

Lemma set_tiers_same (self : TextGrid.t) : set_tiers self (TextGrid.tiers self) = self.
Proof. now destruct self. Qed.

(** ** All the tiers *)

Lemma read_written_tiers (rd : nat) (maxT : float) (null : string) (tiers : list tier) :
  forall i : nat,
    Forall (writable rd maxT null) tiers ->
    exists body,
      write_tiers i maxT null tiers = ret body
      /\ forall self : TextGrid.t,
           TextGrid.maxTime self = Some (round maxT rd) ->
           read_tiers (List.length tiers) false rd self body
           = ret (set_tiers self
                    (TextGrid.tiers self
                     ++ map (reread rd (TextGrid.strict self) maxT null) tiers)).
Proof.
  induction tiers as [| t tiers IH]; intros i W.
  - exists ""%string. split; [reflexivity |]. intros self _.
    cbn [List.length read_tiers map]. now rewrite app_nil_r, set_tiers_same.
  - destruct (read_written_tier rd maxT null t i (Forall_inv W)) as (s & Es & Rs).
    destruct (IH (S i) (Forall_inv_tail W)) as (body & Eb & Rb).
    exists (s ++ body)%string. split.
    + cbn [write_tiers]. now rewrite Es, bind_ret_l, Eb, bind_ret_l.
    + intros self HM. cbn [List.length]. rewrite Rs by exact HM.
      rewrite Rb by exact HM.
      unfold set_tiers. cbn [TextGrid.tiers TextGrid.strict map].
      now rewrite <- app_assoc.
Qed.

(** ** The header *)

Lemma parse_header_written (rest : string) :
  parse_header (print ("File type = " ++ DQ ++ "ooTextFile" ++ DQ)
                ++ print ("Object class = " ++ DQ ++ "TextGrid" ++ DQ ++ NL)
                ++ rest)
  = ret (VStr "TextGrid", false, rest).
Proof.
  unfold parse_header.
  rewrite readline_printed by reflexivity. cbn [fst snd].
  replace (re_file_type (print ("File type = " ++ DQ ++ "ooTextFile" ++ DQ)))
    with (Some "ooTextFile"%string) by (vm_compute; reflexivity).
  cbv iota.
  replace (startswith "ooTextFile" "ooTextFile") with true by (vm_compute; reflexivity).
  replace (contains "short" "ooTextFile") with false by (vm_compute; reflexivity).
  cbv iota. cbn [negb].
  change (print ("Object class = " ++ DQ ++ "TextGrid" ++ DQ ++ NL) ++ rest)%string
    with (print ("Object class = " ++ DQ ++ "TextGrid" ++ DQ) ++ NL ++ rest)%string.
  rewrite readline_printed by reflexivity. cbn [fst snd].
  rewrite (parse_line_printed _ ("Object class = " ++ DQ) "TextGrid") by reflexivity.
  rewrite bind_ret_l, readline_NL. reflexivity.
Qed.

Lemma parse_line_float_printed (line pre : string) (x : float) (rd : nat) :
  line = (pre ++ format_float x)%string -> bare_key pre = true ->
  parse_line (print line) false (Some rd) = ret (VFloat (round x rd)).
Proof.
  intros -> K. unfold print. rewrite append_assoc.
  rewrite parse_line_bare; [| assumption | apply format_float_plain |].
  - unfold float_. rewrite float_of_string_format_float.
    now rewrite !bind_ret_l.
  - destruct (format_float_nonempty x) as (c & s & ->). discriminate.
Qed.

Lemma split_from_plain (F : string) :
  plain F = true -> forall w, split_from (Some w) F = [(w ++ F)%string].
Proof.
  induction F as [| c F IH]; intros P w.
  - now rewrite append_nil_r.
  - cbn [plain] in P. apply andb_true_iff in P as [P1 P2].
    apply andb_true_iff in P1 as [P1 _]. apply negb_true_iff in P1.
    cbn [split_from]. rewrite P1, IH by assumption.
    now rewrite append_assoc.
Qed.

Lemma size_field (n : nat) :
  nth_error (split (strip (print ("size = " ++ format_int n)))) 2
  = Some (format_int n).
Proof.
  pose proof (all_digits_plain _ (format_N_digits (N.of_nat n))) as P.
  fold (format_int n) in P.
  destruct (format_N_nonempty (N.of_nat n)) as (c & s & E). fold (format_int n) in E.
  unfold strip, print. rewrite rstrip_NL.
  rewrite (rstrip_concat "size = " (format_int n) c s)
    by (rewrite rstrip_plain by assumption; exact E).
  rewrite <- E.
  change (lstrip ("size = " ++ format_int n)) with ("size = " ++ format_int n)%string.
  unfold split. rewrite E in *.
  cbn [plain] in P. apply andb_true_iff in P as [P1 P2].
  apply andb_true_iff in P1 as [P1 _]. apply negb_true_iff in P1.
  change (split_from None ("size = " ++ String c s))
    with ("size"%string :: "="%string :: split_from None (String c s)).
  cbn [split_from]. rewrite P1, split_from_plain by assumption.
  reflexivity.
Qed.

Lemma int_format_int (n : nat) : int_ (format_int n) = ret (Z.of_nat n).
Proof.
  unfold int_, format_int. now rewrite int_of_string_format_N, nat_N_Z.
Qed.

Lemma reread_name (rd : nat) (strict : bool) (maxT : float) (null : string) (t : tier) :
  tier_name (reread rd strict maxT null t) = Some (format_name (tier_name t)).
Proof. now destruct t. Qed.

Lemma reread_len (rd : nat) (strict : bool) (maxT : float) (null : string) (t : tier) :
  tier_len (reread rd strict maxT null t) = written_len null t.
Proof. destruct t; cbn; now rewrite length_map. Qed.

Lemma fillInTheGaps_loop_covered (null : string) (l : list Interval.t) (hi : Q) :
  forall (prev_t : float) (output : list Interval.t),
    covers prev_t l hi ->
    exists h : float,
      fillInTheGaps_loop null prev_t output l = ret (h, output ++ l) /\ Qof h == hi.
Proof.
  induction l as [| i l IH]; intros prev_t output C.
  - exists prev_t. cbn [fillInTheGaps_loop]. rewrite app_nil_r. split; [reflexivity | exact C].
  - destruct C as (C1 & C2 & C3). cbn [fillInTheGaps_loop].
    replace (ltb prev_t (Interval.minTime i)) with false
      by (symmetry; props; rewrite C1; apply Qle_refl).
    rewrite bind_ret_l.
    destruct (IH (Interval.maxTime i) (output ++ [i]) C3) as (h & E & Hh).
    exists h. rewrite E, <- app_assoc. split; [reflexivity | exact Hh].
Qed.

Lemma gap_free_written_len (null : string) (t : tier) :
  gap_free t -> written_len null t = tier_len t.
Proof.
  destruct t as [t | t]; [| reflexivity].
  intros (hi & C & M). unfold written_len, tier_len, gap_filled.
  unfold IntervalTier_fillInTheGaps.
  destruct (fillInTheGaps_loop_covered null _ hi _ [] C) as (h & E & Hh).
  rewrite E, bind_ret_l. cbn [app].
  destruct (IntervalTier.maxTime t) as [x |]; [| reflexivity].
  replace (ltb h x) with false by (symmetry; props; rewrite Hh; exact M).
  reflexivity.
Qed.

Lemma outcome_ret (A : Type) (a : A) : outcome (ret a) = inr a.
Proof. reflexivity. Qed.

(** The loop of [_fillInTheGaps] on sorted intervals: the output is no
    shorter than the input, and as long only when the input leaves no
    gap. *)
Lemma fillInTheGaps_loop_length (null : string) (l : list Interval.t) :
  forall (prev_t : float) (output : list Interval.t),
    Forall valid l -> StronglySorted before l ->
    Forall (fun i => prev_t <= Interval.minTime i) l ->
    exists (hi : float) (filled : list Interval.t),
      fillInTheGaps_loop null prev_t output l = ret (hi, output ++ filled)
      /\ (List.length l <= List.length filled)%nat
      /\ (List.length filled = List.length l -> covers prev_t l hi).
Proof.
  induction l as [| i l IH]; intros prev_t output V S Lo.
  - exists prev_t, []. cbn [fillInTheGaps_loop]. rewrite app_nil_r.
    split; [reflexivity |]. split; [simpl; lia |]. intros _. apply Qeq_refl.
  - apply Forall_cons_iff in V as [Vi V]. inversion S as [| ? ? S' F]; subst.
    apply Forall_cons_iff in Lo as [Li _].
    assert (Lo' : Forall (fun j => Interval.maxTime i <= Interval.minTime j) l)
      by exact F.
    cbn [fillInTheGaps_loop].
    destruct (ltb prev_t (Interval.minTime i)) eqn:L; props.
    + rewrite Interval_init_ok, !bind_ret_l by exact L.
      destruct (IH (Interval.maxTime i)
                  ((output ++ [Interval.mk prev_t (Interval.minTime i) null true]) ++ [i])
                  V S' Lo')
        as (hi & filled & R & Len & _).
      exists hi, (Interval.mk prev_t (Interval.minTime i) null true :: i :: filled).
      rewrite R, <- !app_assoc. split; [reflexivity |].
      cbn [List.length]. split; [lia | intros H; lia].
    + rewrite bind_ret_l.
      destruct (IH (Interval.maxTime i) (output ++ [i]) V S' Lo')
        as (hi & filled & R & Len & C).
      exists hi, (i :: filled).
      rewrite R, <- !app_assoc. split; [reflexivity |].
      cbn [List.length]. split; [lia |]. intros H.
      split; [apply Qle_antisym; assumption |]. split; [exact Vi |].
      apply C. lia.
Qed.

(** A sorted tier whose filled sequence is as long as the tier leaves no
    gap. *)
Lemma written_len_gap_free (null : string) (t : IntervalTier.t) :
  sorted_disjoint (IntervalTier.intervals t) ->
  Forall (fun i => IntervalTier.minTime t <= Interval.minTime i)
         (IntervalTier.intervals t) ->
  written_len null (ITier t) = tier_len (ITier t) -> gap_free (ITier t).
Proof.
  intros [V S] Lo. unfold written_len, tier_len, gap_filled, IntervalTier_fillInTheGaps.
  destruct (fillInTheGaps_loop_length null (IntervalTier.intervals t)
              (IntervalTier.minTime t) [] V S Lo)
    as (hi & filled & R & Len & C).
  rewrite R, bind_ret_l. cbn [app gap_free].
  destruct (IntervalTier.maxTime t) as [x |].
  - destruct (ltb hi x) eqn:L; props.
    + rewrite Interval_init_ok, bind_ret_l by exact L. cbn [outcome ret snd].
      rewrite length_app. cbn [List.length]. intros H. lia.
    + cbn [outcome ret snd]. intros H. exists hi. split; [now apply C | exact L].
  - cbn [outcome ret snd]. intros H. exists hi. split; [now apply C | exact I].
Qed.

Lemma writable_gap_free_iff (rd : nat) (maxT : float) (null : string) (t : tier) :
  writable rd maxT null t ->
  (gap_free t <-> written_len null t = tier_len t).
Proof.
  intros W. split; [apply gap_free_written_len |].
  destruct t as [t | t]; [| intros _; exact I].
  destruct W as (_ & SD & B & _). apply written_len_gap_free; [exact SD |].
  eapply Forall_impl; [| exact B]. now intros a [H _].
Qed.

(** C1 (as it holds): for every grid that has an end to write and whose
    tiers are writable (the name as it is written holds no line boundary;
    the intervals are sorted and disjoint, none starts before the
    [minTime] of its tier, none ends after the end written, and neither
    the [minTime] nor the [maxTime] of the tier is after the end written;
    no interval, filler included, collapses under the rounding; the
    points are held in strictly ascending order of their rounded times,
    none negative), [write] returns a text, and [read] of
    that text returns a grid with the rounded bounds whose new tiers are
    the written tiers in order.  The name read back is the name as it was
    written: the same name for a tier named by a string, the string None
    for a tier with no name.  The points come back with rounded times and
    the same marks; an interval tier comes back as its gap-filled
    intervals with rounded bounds and the same marks.  So the element count
    of an interval tier is that of the gap-filled sequence, which is the
    count of the tier exactly when the tier leaves no gap. *)
Theorem write_read_round_trip
    (self reader : TextGrid.t) (null : string) (rd : nat) (maxT : float) :
  write_maxT self = ret maxT ->
  Forall (writable rd maxT null) (TextGrid.tiers self) ->
  exists text tiers,
    TextGrid_write self null = ret text
    /\ TextGrid_read reader text rd
       = ret (TextGrid.mk (TextGrid.name reader)
                (round (TextGrid.minTime self) rd) (Some (round maxT rd))
                (TextGrid.tiers reader ++ tiers) (TextGrid.strict reader))
    /\ tiers = map (reread rd (TextGrid.strict reader) maxT null) (TextGrid.tiers self)
    /\ map tier_name tiers
       = map (fun t => Some (format_name (tier_name t))) (TextGrid.tiers self)
    /\ Forall (fun t => forall s, tier_name t = Some s ->
                                  tier_name (reread rd (TextGrid.strict reader) maxT null t)
                                  = tier_name t)
              (TextGrid.tiers self)
    /\ map tier_len tiers = map (written_len null) (TextGrid.tiers self)
    /\ Forall (fun t => gap_free t <-> written_len null t = tier_len t)
              (TextGrid.tiers self).
Proof.
  intros HM W.
  destruct (read_written_tiers rd maxT null (TextGrid.tiers self) 1 W)
    as (body & Eb & Rb).
  eexists. exists (map (reread rd (TextGrid.strict reader) maxT null) (TextGrid.tiers self)).
  split; [| split; [| split; [reflexivity | split; [| split; [| split]]]]].
  - unfold TextGrid_write. rewrite HM, bind_ret_l, Eb, bind_ret_l. reflexivity.
  - unfold TextGrid_read.
    rewrite parse_header_written, bind_ret_l.
    change (value_is (VStr "TextGrid") "TextGrid") with true.
    cbn [negb]. rewrite raise_if_false, bind_ret_l.
    rewrite readline_printed
      by (rewrite has_linebreak_app;
          now rewrite (plain_no_linebreak _ (format_float_plain _))).
    cbn [fst snd].
    rewrite (parse_line_float_printed _ "xmin = " (TextGrid.minTime self))
      by reflexivity.
    rewrite outcome_ret. cbv iota.
    rewrite (parse_line_float_printed _ "xmin = " (TextGrid.minTime self))
      by reflexivity.
    rewrite bind_ret_l. cbn [as_float]. rewrite bind_ret_l.
    rewrite (read_float_printed _ "xmax = " maxT) by reflexivity.
    rewrite bind_ret_l.
    rewrite (skip_printed _ "tiers? <exists>") by reflexivity.
    rewrite readline_printed
      by (rewrite has_linebreak_app; now rewrite has_linebreak_format_int).
    cbn [fst snd].
    rewrite size_field, int_format_int, bind_ret_l, Nat2Z.id.
    rewrite (skip_printed _ "item []:") by reflexivity.
    rewrite Rb by reflexivity. reflexivity.
  - rewrite map_map. apply map_ext. intros t. apply reread_name.
  - apply Forall_forall. intros t _ s E. now rewrite reread_name, E.
  - rewrite map_map. apply map_ext. intros t. apply reread_len.
  - eapply Forall_impl; [| exact W]. intros t. apply writable_gap_free_iff.
Qed.

(** C1 (as stated) fails.  The grid of one tier holding the single interval
    from 0.2 to 0.5 in a span from 0 to 1 is written and read back as a
    tier of three intervals; and the grid of one tier that has no name is
    read back with a tier named by the string None. *)
Lemma sparse_tier_reads_back_longer :
  (exists text tg,
     TextGrid_write cat_grid "" = ret text
     /\ TextGrid_fromFile text None = ret tg
     /\ map tier_len (TextGrid.tiers cat_grid) = [1%nat]
     /\ map tier_len (TextGrid.tiers tg) = [3%nat])
  /\ (exists text tg,
        TextGrid_write unnamed_grid "" = ret text
        /\ TextGrid_fromFile text None = ret tg
        /\ map tier_name (TextGrid.tiers unnamed_grid) = [None]
        /\ map tier_name (TextGrid.tiers tg) = [Some "None"%string]
        /\ map tier_len (TextGrid.tiers tg) = map tier_len (TextGrid.tiers unnamed_grid)).
Proof.
  split.
  - eexists. eexists. split; [vm_compute; reflexivity |].
    split; [vm_compute; reflexivity |]. split; reflexivity.
  - eexists. eexists. split; [vm_compute; reflexivity |].
    split; [vm_compute; reflexivity |]. repeat split; reflexivity.
Qed.

Lemma write_read_round_trip_witness :
  exists text tiers,
    TextGrid_write cat_points_grid "" = ret text
    /\ TextGrid_read (TextGrid_init None (float_of_Z 0) None true) text 5
       = ret (TextGrid.mk None (round (mkfloat 0 0) 5) (Some (round (mkfloat 1 0) 5))
                ([] ++ tiers) true)
    /\ tiers = map (reread 5 true (mkfloat 1 0) "") (TextGrid.tiers cat_points_grid)
    /\ map tier_name tiers
       = map (fun t => Some (format_name (tier_name t))) (TextGrid.tiers cat_points_grid)
    /\ Forall (fun t => forall s, tier_name t = Some s ->
                                  tier_name (reread 5 true (mkfloat 1 0) "" t) = tier_name t)
              (TextGrid.tiers cat_points_grid)
    /\ map tier_len tiers = map (written_len "") (TextGrid.tiers cat_points_grid)
    /\ Forall (fun t => gap_free t <-> written_len "" t = tier_len t)
              (TextGrid.tiers cat_points_grid).
Proof.
  apply (write_read_round_trip cat_points_grid
           (TextGrid_init None (float_of_Z 0) None true) "" 5 (mkfloat 1 0)).
  - reflexivity.
  - constructor; [| constructor; [| constructor; [| constructor]]].
    + split; [reflexivity |]. split; [split; repeat constructor |].
      split; [repeat constructor; vm_compute; discriminate |].
      split; [vm_compute; discriminate |]. split; [vm_compute; discriminate |].
      repeat constructor.
    + split; [reflexivity |]. split; [repeat constructor |].
      repeat constructor; vm_compute; discriminate.
    + split; [reflexivity |]. split; [split; repeat constructor |].
      split; [repeat constructor; vm_compute; discriminate |].
      split; [vm_compute; discriminate |]. split; [vm_compute; discriminate |].
      repeat constructor.
Defined.

(* ------------------------------------------------------------------ *)
(** ** [MLF.read]: the line that ends an utterance *)

(** The pending word goes after the words of the utterance, which end
    before it starts, and the utterance is sealed. *)
Lemma end_utterance_adds (grids : list TextGrid.t) (u : utterance) :
  wsrt u < wend u ->
  within (word u) (wsrt u) (wend u) ->
  Forall valid (IntervalTier.intervals (word u)) ->
  Forall (fun e => Interval.maxTime e <= wsrt u) (IntervalTier.intervals (word u)) ->
  TextGrid.maxTime (grid u) = None ->
  end_utterance grids u = ret (grids ++ [sealed u]).
Proof.
  intros V W Vl B M. unfold end_utterance.
  rewrite add_is_addInterval by exact V.
  rewrite addInterval_within by exact W.
  rewrite place_at_end; [| exact V | exact Vl | exact B].
  rewrite bind_ret_l. unfold TextGrid_append at 1. rewrite M, !bind_ret_l.
  unfold TextGrid_append. cbn [set_tiers TextGrid.maxTime TextGrid.tiers TextGrid.strict].
  rewrite M, !bind_ret_l. unfold sealed, set_tiers.
  cbn [TextGrid.name TextGrid.minTime TextGrid.maxTime TextGrid.tiers TextGrid.strict].
  now rewrite <- app_assoc.
Qed.

(** C10. On a line that ends the utterance [MLF.read] adds the pending
    word, whatever its label is, the empty one too, and seals the
    utterance.  When the pending interval has a positive duration and comes
    after the words of the utterance, the word tier gets the interval from
    the pending start to the pending end with the pending label as its last
    interval, the phones and the words are appended to the grid, the grid
    is returned with the grids read so far, and the next line is read for
    the name of an utterance.  When the pending interval is degenerate,
    [read] raises the [ValueError] of [Interval].  So an utterance of the
    one record [0 500000 k], with no word label, is read with the word
    from 0 to 0.05 with the mark ['']; and for an utterance whose quoted
    name is followed at once by the line that ends it the interval is
    (0.0, 0.0) with the mark [''], [read] raises and no utterance is
    returned. *)
Theorem terminator_adds_pending_word
    (source header nameline line name : string) (lines : list string)
    (samplerate : float) (round_digits : nat) :
  readlines source = header :: nameline :: line :: lines ->
  re_quoted_name (rstrip nameline) = Some name ->
  fields line <> 3%nat -> fields line <> 4%nat ->
  MLF_read source samplerate round_digits
  = raise (ValueError [AFloat (float_of_Z 0); AFloat (float_of_Z 0)])
  /\ (forall grids u,
        wend u <= wsrt u ->
        read_line samplerate round_digits grids (IN_UTTERANCE u) line
        = raise (ValueError [AFloat (wsrt u); AFloat (wend u)]))
  /\ (forall grids u,
        wsrt u < wend u ->
        within (word u) (wsrt u) (wend u) ->
        Forall valid (IntervalTier.intervals (word u)) ->
        Forall (fun e => Interval.maxTime e <= wsrt u) (IntervalTier.intervals (word u)) ->
        TextGrid.maxTime (grid u) = None ->
        read_line samplerate round_digits grids (IN_UTTERANCE u) line
        = ret (Continue (grids ++ [sealed u]) AWAITING_UTTERANCE))
  /\ (exists grid phones words,
        MLF_init k_utterance_mlf = ret [grid]
        /\ TextGrid.tiers grid = [ITier phones; ITier words]
        /\ same_entries (IntervalTier.intervals phones) [(0, 0.05, "k"%string)]
        /\ same_entries (IntervalTier.intervals words) [(0, 0.05, ""%string)]).
Proof.
  intros Hs Hn H3 H4. split; [| split; [| split]].
  - unfold MLF_read. rewrite Hs. cbn [read_lines].
    unfold read_line at 1. rewrite Hn, bind_ret_l.
    rewrite read_line_other_fields by assumption.
    rewrite end_utterance_degenerate; [reflexivity |].
    simpl. apply Qle_refl.
  - intros grids u H. rewrite read_line_other_fields by assumption.
    now rewrite end_utterance_degenerate.
  - intros grids u V W Vl B M. rewrite read_line_other_fields by assumption.
    now rewrite end_utterance_adds, bind_ret_l.
  - do 3 eexists. split; [vm_compute; reflexivity |].
    split; [reflexivity |]. split; repeat constructor.
Qed.

Lemma terminator_adds_pending_word_witness :
  MLF_read empty_utterance_mlf (float_of_Z 10000000) 5
  = raise (ValueError [AFloat (float_of_Z 0); AFloat (float_of_Z 0)])
  /\ (forall grids u,
        wend u <= wsrt u ->
        read_line (float_of_Z 10000000) 5 grids (IN_UTTERANCE u) ("." ++ NL)
        = raise (ValueError [AFloat (wsrt u); AFloat (wend u)]))
  /\ (forall grids u,
        wsrt u < wend u ->
        within (word u) (wsrt u) (wend u) ->
        Forall valid (IntervalTier.intervals (word u)) ->
        Forall (fun e => Interval.maxTime e <= wsrt u) (IntervalTier.intervals (word u)) ->
        TextGrid.maxTime (grid u) = None ->
        read_line (float_of_Z 10000000) 5 grids (IN_UTTERANCE u) ("." ++ NL)
        = ret (Continue (grids ++ [sealed u]) AWAITING_UTTERANCE))
  /\ (exists grid phones words,
        MLF_init k_utterance_mlf = ret [grid]
        /\ TextGrid.tiers grid = [ITier phones; ITier words]
        /\ same_entries (IntervalTier.intervals phones) [(0, 0.05, "k"%string)]
        /\ same_entries (IntervalTier.intervals words) [(0, 0.05, ""%string)]).
Proof.
  apply (terminator_adds_pending_word empty_utterance_mlf
           ("#!MLF!#" ++ NL) (DQ ++ "*/cat.lab" ++ DQ ++ NL) ("." ++ NL) "*/cat.lab" []
           (float_of_Z 10000000) 5).
  - reflexivity.
  - reflexivity.
  - vm_compute. discriminate.
  - vm_compute. discriminate.
Defined.

(* ================================================================== *)
(** * Further properties *)
(* ================================================================== *)

(* ------------------------------------------------------------------ *)
(** ** Comparisons of intervals and points *)

(** X1. [Interval.overlaps] is symmetric, as its docstring says.  On two
    intervals of positive duration that do not overlap (a shared boundary
    is no overlap) the comparisons never raise and never log, whatever the
    flags, and they agree: [a < b], [b > a] and the negation of [b < a] are
    the same answer. *)
Theorem comparisons_of_disjoint_intervals (a b : Interval.t) :
  valid a -> valid b ->
  Interval.maxTime a <= Interval.minTime b \/ Interval.maxTime b <= Interval.minTime a ->
  Interval_overlaps a b = Interval_overlaps b a
  /\ exists c : bool,
       Interval_lt a (OInterval b) = ret c
       /\ Interval_lt b (OInterval a) = ret (negb c)
       /\ Interval_gt b (OInterval a) = ret c
       /\ (c = true <-> Interval.maxTime a <= Interval.minTime b).
Proof.
  intros Va Vb H. split; [apply overlaps_sym |].
  assert (O : Interval_overlaps a b = false) by now apply overlaps_false.
  assert (O' : Interval_overlaps b a = false) by now rewrite overlaps_sym.
  unfold Interval_lt, Interval_gt. rewrite O, O', !andb_false_r.
  unfold valid in *.
  destruct H as [H | H].
  - exists true. split; [| split; [| split]].
    + f_equal. f_equal. props. lra.
    + f_equal. f_equal. simpl. props. lra.
    + f_equal. f_equal. props. lra.
    + tauto.
  - exists false. split; [| split; [| split]].
    + f_equal. f_equal. props. lra.
    + f_equal. f_equal. simpl. props. lra.
    + f_equal. f_equal. props. lra.
    + split; [discriminate | intros; lra].
Qed.

Lemma comparisons_of_disjoint_intervals_witness :
  let a := Interval.mk (mkfloat 0 0) (mkfloat 1 0) "a" true in
  let b := Interval.mk (mkfloat 1 0) (mkfloat 2 0) "b" false in
  Interval_overlaps a b = Interval_overlaps b a
  /\ exists c : bool,
       Interval_lt a (OInterval b) = ret c
       /\ Interval_lt b (OInterval a) = ret (negb c)
       /\ Interval_gt b (OInterval a) = ret c
       /\ (c = true <-> Interval.maxTime a <= Interval.minTime b).
Proof.
  intros a b. apply (comparisons_of_disjoint_intervals a b).
  - reflexivity.
  - reflexivity.
  - left. vm_compute. discriminate.
Defined.

(** X3. A point equals an interval, from either side, when it lies strictly
    inside; [in] is inclusive.  So equality implies membership, and a point
    on a boundary of the interval is in it without being equal to it. *)
Theorem point_equals_inside (i : Interval.t) (p : Point.t) :
  Point_eq p (OInterval i) = Interval_eq i (OPoint p)
  /\ (Interval_eq i (OPoint p) = true -> Interval_contains i (OPoint p) = true)
  /\ (Interval.minTime i <= Interval.maxTime i ->
      Point.time p == Interval.minTime i \/ Point.time p == Interval.maxTime i ->
      Interval_contains i (OPoint p) = true /\ Interval_eq i (OPoint p) = false).
Proof.
  unfold Point_eq, Interval_eq, Interval_contains. split; [reflexivity |]. split.
  - intros H. apply andb_true_iff in H as [H1 H2]. props.
    apply andb_true_iff. split; props; lra.
  - intros V [E | E]; split.
    + apply andb_true_iff. split; props; lra.
    + apply andb_false_iff. left. props. lra.
    + apply andb_true_iff. split; props; lra.
    + apply andb_false_iff. right. props. lra.
Qed.

(* ------------------------------------------------------------------ *)
(** ** [IntervalTier.addInterval], [IntervalTier.remove] *)

(** X4. [addInterval] checks the bounds before it compares anything: an
    interval that starts before the tier, or that ends after a [maxTime]
    other than zero, raises the [ValueError] of the bound it breaks, the
    lower bound first, and nothing is logged. *)
Theorem addInterval_out_of_bounds (self : IntervalTier.t) (x : Interval.t) :
  Interval.minTime x < IntervalTier.minTime self
  \/ (exists m, IntervalTier.maxTime self = Some m /\ ~ Qof m == 0
                /\ Qof m < Interval.maxTime x) ->
  exists v : float,
    IntervalTier_addInterval self x = raise (ValueError [AFloat v])
    /\ (if too_early self x then v = IntervalTier.minTime self
        else IntervalTier.maxTime self = Some v).
Proof.
  intros H. rewrite addInterval_checks.
  destruct (too_early self x) eqn:E.
  - eexists. split; reflexivity.
  - destruct H as [H | (m & Hm & Hz & Hl)].
    + unfold too_early in E. props. lra.
    + unfold too_late. rewrite Hm. unfold truthy.
      replace (eqb m 0) with false by (symmetry; props; exact Hz).
      replace (gtb (Interval.maxTime x) m) with true by (symmetry; props; exact Hl).
      cbn [negb andb]. exists m. split; reflexivity.
Qed.

Lemma addInterval_out_of_bounds_witness :
  let self := IntervalTier_init (Some "t") (mkfloat 0 0) (Some (mkfloat 1 0)) in
  let x := Interval.mk (mkfloat 5 1) (mkfloat 2 0) "late" true in
  exists v : float,
    IntervalTier_addInterval self x = raise (ValueError [AFloat v])
    /\ (if too_early self x then v = IntervalTier.minTime self
        else IntervalTier.maxTime self = Some v).
Proof.
  intros self x. apply (addInterval_out_of_bounds self x).
  right. exists (mkfloat 1 0). split; [reflexivity |].
  split; vm_compute; [discriminate | reflexivity].
Defined.

(** Where a successful [addInterval] into a strict sorted tier puts the
    interval. *)
Lemma addInterval_success_splits (self self' : IntervalTier.t) (x : Interval.t)
    (w : list warning) :
  valid x ->
  flag_propagated self ->
  IntervalTier.strict self = true ->
  sorted_disjoint (IntervalTier.intervals self) ->
  IntervalTier_addInterval self x = (w, inr self') ->
  exists l1 l3,
    IntervalTier.intervals self = l1 ++ l3
    /\ Forall (fun e => before e x) l1
    /\ Forall (fun e => before x e) l3
    /\ w = []
    /\ self' = set_intervals self (l1 ++ set_Interval_strict true x :: l3).
Proof.
  intros Vx FP St SD R.
  assert (P : place self x = (w, inr self')).
  { rewrite addInterval_checks in R.
    destruct (too_early self x); [discriminate |].
    destruct (too_late self x); [| assumption].
    destruct (IntervalTier.maxTime self); [discriminate | assumption]. }
  clear R. unfold flag_propagated in FP. rewrite St in FP.
  destruct (Forall_overlaps_dec x (IntervalTier.intervals self)) as [Free | Ov].
  - destruct (place_free self x Vx SD Free) as (l1 & l3 & E & F1 & F3 & R).
    rewrite R in P. injection P as <- <-. rewrite St.
    exists l1, l3. auto.
  - destruct (place_overlap_raises self x Vx SD FP Ov) as (b & _ & _ & R).
    rewrite R in P. discriminate.
Qed.

(** X5. On a strict tier whose intervals all carry the tier's flag (as
    [add], [addInterval] and [TextGrid.append] leave them) and are sorted
    and disjoint, every [addInterval] of an interval of positive duration
    that succeeds leaves them sorted and disjoint: the new list is the old
    one with the interval put in, one element longer; the interval does
    not start before the tier; nothing is logged.  The flag of the
    intervals is what the comparisons look at: the hypothesis on it is
    needed. *)
Theorem addInterval_preserves_order (self self' : IntervalTier.t) (x : Interval.t)
    (w : list warning) :
  valid x ->
  flag_propagated self ->
  IntervalTier.strict self = true ->
  sorted_disjoint (IntervalTier.intervals self) ->
  IntervalTier_addInterval self x = (w, inr self') ->
  w = []
  /\ sorted_disjoint (IntervalTier.intervals self')
  /\ Permutation (IntervalTier.intervals self')
       (set_Interval_strict true x :: IntervalTier.intervals self)
  /\ List.length (IntervalTier.intervals self')
     = S (List.length (IntervalTier.intervals self))
  /\ IntervalTier.minTime self <= Interval.minTime x.
Proof.
  intros Vx FP St SD R.
  destruct (addInterval_success_splits self self' x w Vx FP St SD R)
    as (l1 & l3 & E & F1 & F3 & -> & ->).
  split; [reflexivity |]. cbn [set_intervals IntervalTier.intervals].
  split; [| split; [| split]].
  - rewrite E in SD. now apply sorted_disjoint_insert.
  - rewrite E. symmetry. apply Permutation_middle.
  - rewrite E, !length_app. simpl. lia.
  - rewrite addInterval_checks in R. unfold too_early in R.
    destruct (ltb (Interval.minTime x) (IntervalTier.minTime self)) eqn:L;
      [discriminate |]. props. exact L.
Qed.

Lemma addInterval_preserves_order_witness :
  let x := Interval.mk (mkfloat 6 1) (mkfloat 9 1) "dog" true in
  let self' := set_intervals cat_tier (IntervalTier.intervals cat_tier ++ [x]) in
  @nil warning = []
  /\ sorted_disjoint (IntervalTier.intervals self')
  /\ Permutation (IntervalTier.intervals self')
       (set_Interval_strict true x :: IntervalTier.intervals cat_tier)
  /\ List.length (IntervalTier.intervals self')
     = S (List.length (IntervalTier.intervals cat_tier))
  /\ IntervalTier.minTime cat_tier <= Interval.minTime x.
Proof.
  intros x self'.
  apply (addInterval_preserves_order cat_tier self' x []).
  - reflexivity.
  - repeat constructor.
  - reflexivity.
  - split; repeat constructor.
  - vm_compute. reflexivity.
Defined.

Lemma list_remove_middle (A : Type) (eq : A -> bool) (l1 : list A) (x : A) (l3 : list A) :
  Forall (fun e => eq e = false) l1 -> eq x = true ->
  list_remove eq (l1 ++ x :: l3) = Some (l1 ++ l3).
Proof.
  intros F E. induction F as [| e l1 He F IH]; simpl.
  - now rewrite E.
  - now rewrite He, IH.
Qed.




(* ------------------------------------------------------------------ *)
(** ** [IntervalTier.indexContaining] *)

Lemma split_by_end (time : Q) (l : list Interval.t) :
  sorted_disjoint l ->
  exists below rest,
    l = below ++ rest
    /\ Forall (fun e => Interval.maxTime e < time) below
    /\ Forall (fun e => time <= Interval.maxTime e) rest.
Proof.
  intros [V S]. induction S as [| e l S IH F].
  - exists [], []. repeat split; constructor.
  - apply Forall_cons_iff in V as [Ve V].
    destruct (Qlt_le_dec (Interval.maxTime e) time) as [L | L].
    + destruct (IH V) as (below & rest & -> & B & R).
      exists (e :: below), rest. repeat split; [constructor |]; assumption.
    + exists [], (e :: l). split; [reflexivity |]. split; [constructor |].
      constructor; [assumption |].
      rewrite Forall_forall in F, V. apply Forall_forall. intros e' He'.
      specialize (F e' He'). specialize (V e' He'). unfold before, valid in *. lra.
Qed.

(** X7. In a tier whose intervals are sorted and disjoint,
    [indexContaining] finds the interval that holds [time], bounds
    included: when some interval holds it, the index returned is that of
    the first interval that does not end before [time] (at a boundary
    shared by two intervals, the earlier one), and that interval holds
    [time]; when [time] falls in a gap or outside, the answer is [None].
    Nothing is raised or logged, whatever the flags. *)
Theorem indexContaining_finds (self : IntervalTier.t) (time : float) :
  sorted_disjoint (IntervalTier.intervals self) ->
  let holds (e : Interval.t) := Interval.minTime e <= time /\ Qof time <= Interval.maxTime e in
  (Exists holds (IntervalTier.intervals self) ->
   exists i e,
     IntervalTier_indexContaining self time = ret (Some i)
     /\ nth_error (IntervalTier.intervals self) i = Some e
     /\ holds e
     /\ Forall (fun e' => Interval.maxTime e' < time)
               (firstn i (IntervalTier.intervals self)))
  /\ (~ Exists holds (IntervalTier.intervals self) ->
      IntervalTier_indexContaining self time = ret None).
Proof.
  intros SD holds.
  destruct (split_by_end time _ SD) as (below & rest & E & B & R).
  assert (I : bisect_left (fun e => Interval_lt e (OFloat time))
                (IntervalTier.intervals self) = ret (List.length below)).
  { rewrite E. apply bisect_left_split.
    - intros e He. rewrite Forall_forall in B. cbn. f_equal. f_equal. props. auto.
    - intros e He. rewrite Forall_forall in R. cbn. f_equal. f_equal. props. auto. }
  unfold IntervalTier_indexContaining. rewrite I, bind_ret_l.
  rewrite E, nth_error_split.
  destruct SD as [V S]. rewrite E in V, S.
  apply Forall_app in V as [_ Vr].
  apply StronglySorted_app_inv in S as (_ & Sr & _).
  split.
  - intros Ex. apply Exists_app in Ex as [Ex | Ex].
    { exfalso. apply Exists_exists in Ex as (e & He & _ & H2).
      rewrite Forall_forall in B. specialize (B e He). cbv beta in B. lra. }
    destruct rest as [| e rest]; [inversion Ex |].
    assert (H : holds e).
    { split; [| exact (Forall_inv R)].
      inversion Ex as [? ? [H1 _] | ? ? Ex']; subst; [exact H1 |].
      apply Exists_exists in Ex' as (c & Hc & H1 & H2).
      inversion Sr as [| ? ? _ F]; subst. rewrite Forall_forall in F.
      specialize (F c Hc). unfold before in F.
      pose proof (Forall_inv R) as Re. pose proof (Forall_inv Vr) as Ve.
      cbv beta in Re. unfold valid in Ve. lra. }
    exists (List.length below), e. cbn [hd_error].
    destruct H as [H1 H2].
    replace (leb (Interval.minTime e) time) with true by (symmetry; props; exact H1).
    replace (leb time (Interval.maxTime e)) with true by (symmetry; props; exact H2).
    cbn [andb]. split; [reflexivity |]. split; [now rewrite nth_error_split |].
    split; [split; assumption |].
    now rewrite firstn_app, Nat.sub_diag, firstn_all, app_nil_r.
  - intros N. destruct rest as [| e rest]; [reflexivity |]. cbn [hd_error].
    destruct (leb (Interval.minTime e) time && leb time (Interval.maxTime e)) eqn:C;
      [| reflexivity].
    exfalso. apply N. apply Exists_app. right. constructor.
    apply andb_true_iff in C as [C1 C2]. props. split; assumption.
Qed.

Lemma indexContaining_finds_witness :
  let self :=
    IntervalTier.mk (Some "t") (mkfloat 0 0) None
      [Interval.mk (mkfloat 0 0) (mkfloat 1 0) "a" true;
       Interval.mk (mkfloat 1 0) (mkfloat 2 0) "b" true] true in
  let time := mkfloat 1 0 in
  let holds (e : Interval.t) := Interval.minTime e <= time /\ Qof time <= Interval.maxTime e in
  (Exists holds (IntervalTier.intervals self) ->
   exists i e,
     IntervalTier_indexContaining self time = ret (Some i)
     /\ nth_error (IntervalTier.intervals self) i = Some e
     /\ holds e
     /\ Forall (fun e' => Interval.maxTime e' < time)
               (firstn i (IntervalTier.intervals self)))
  /\ (~ Exists holds (IntervalTier.intervals self) ->
      IntervalTier_indexContaining self time = ret None).
Proof.
  intros self time.
  apply (indexContaining_finds self time).
  split; repeat constructor; vm_compute; discriminate.
Defined.

(** X8. Whatever the order of the intervals, an interval that
    [intervalContaining] returns is an interval of the tier that holds
    [time], bounds included. *)
Theorem intervalContaining_sound (self : IntervalTier.t) (time : float)
    (e : Interval.t) (w : list warning) :
  IntervalTier_intervalContaining self time = (w, inr (Some e)) ->
  In e (IntervalTier.intervals self)
  /\ Interval.minTime e <= time /\ Qof time <= Interval.maxTime e.
Proof.
  unfold IntervalTier_intervalContaining, IntervalTier_indexContaining.
  destruct (bisect_left (fun e0 => Interval_lt e0 (OFloat time))
              (IntervalTier.intervals self)) as [w0 [x | i]];
    [discriminate |].
  rewrite bind_assoc. rewrite bind_value.
  destruct (nth_error (IntervalTier.intervals self) i) as [e0 |] eqn:N;
    [| discriminate].
  destruct (leb (Interval.minTime e0) time && leb time (Interval.maxTime e0)) eqn:C;
    [| discriminate].
  rewrite bind_ret_l, N. cbn. intros H. injection H as _ <-.
  apply andb_true_iff in C as [C1 C2]. props.
  split; [eapply nth_error_In; exact N |]. split; assumption.
Qed.

Lemma intervalContaining_sound_witness :
  let e := Interval.mk (mkfloat 2 1) (mkfloat 5 1) "cat" true in
  In e (IntervalTier.intervals cat_tier)
  /\ Interval.minTime e <= mkfloat 3 1 /\ Qof (mkfloat 3 1) <= Interval.maxTime e.
Proof.
  intros e. apply (intervalContaining_sound cat_tier (mkfloat 3 1) e []).
  vm_compute. reflexivity.
Defined.

(* ------------------------------------------------------------------ *)
(** ** [IntervalTier._fillInTheGaps] *)

Lemma fillInTheGaps_loop_total (null : string) (l : list Interval.t) :
  forall (prev_t : float) (output : list Interval.t),
    exists (hi : float) (filled : list Interval.t),
      fillInTheGaps_loop null prev_t output l = ret (hi, output ++ filled)
      /\ (forall i, In i l -> In i filled)
      /\ Forall (fun o => In o l \/ Interval.mark o = null /\ valid o) filled
      /\ (List.length l <= List.length filled <= 2 * List.length l)%nat.
Proof.
  induction l as [| i l IH]; intros prev_t output.
  - exists prev_t, []. cbn [fillInTheGaps_loop]. rewrite app_nil_r.
    split; [reflexivity |]. split; [intros i [] |]. split; [constructor | simpl; lia].
  - cbn [fillInTheGaps_loop].
    destruct (ltb prev_t (Interval.minTime i)) eqn:L; props.
    + rewrite Interval_init_ok, !bind_ret_l by exact L.
      destruct (IH (Interval.maxTime i)
                  ((output ++ [Interval.mk prev_t (Interval.minTime i) null true]) ++ [i]))
        as (hi & filled & R & I1 & I2 & I3).
      exists hi, (Interval.mk prev_t (Interval.minTime i) null true :: i :: filled).
      rewrite R, <- !app_assoc. split; [reflexivity |]. split; [| split].
      * intros j [<- | Hj]; [right; now left | right; right; auto].
      * constructor; [right; split; [reflexivity | exact L] |].
        constructor; [left; now left |].
        eapply Forall_impl; [| exact I2]. intros o [H | H]; [left; now right | now right].
      * cbn [List.length]. lia.
    + rewrite bind_ret_l.
      destruct (IH (Interval.maxTime i) (output ++ [i]))
        as (hi & filled & R & I1 & I2 & I3).
      exists hi, (i :: filled).
      rewrite R, <- !app_assoc. split; [reflexivity |]. split; [| split].
      * intros j [<- | Hj]; [now left | right; auto].
      * constructor; [left; now left |].
        eapply Forall_impl; [| exact I2]. intros o [H | H]; [left; now right | now right].
      * cbn [List.length]. lia.
Qed.

(** [_fillInTheGaps] returns, whatever the tier holds. *)
Lemma fillInTheGaps_returns (self : IntervalTier.t) (null : string) :
  exists output, IntervalTier_fillInTheGaps self null = ret output.
Proof.
  destruct (fillInTheGaps_loop_total null (IntervalTier.intervals self)
              (IntervalTier.minTime self) [])
    as (hi & filled & R & _).
  unfold IntervalTier_fillInTheGaps. rewrite R, bind_ret_l. cbn [app].
  destruct (IntervalTier.maxTime self) as [x |]; [| now exists filled].
  destruct (ltb hi x) eqn:L; props; [| now exists filled].
  rewrite Interval_init_ok, bind_ret_l by exact L. eexists. reflexivity.
Qed.

(** X9. [_fillInTheGaps] never fails and never logs, whatever the tier
    holds: a filler is built only where its start is before its end.  The
    output keeps every interval of the tier, every other element carries
    the filler mark and has a positive duration, and there are at most two
    elements per interval of the tier, plus one. *)
Theorem fillInTheGaps_total (self : IntervalTier.t) (null : string) :
  exists output,
    IntervalTier_fillInTheGaps self null = ret output
    /\ (forall i, In i (IntervalTier.intervals self) -> In i output)
    /\ Forall (fun o => In o (IntervalTier.intervals self)
                        \/ Interval.mark o = null /\ valid o) output
    /\ (List.length (IntervalTier.intervals self) <= List.length output
        <= 2 * List.length (IntervalTier.intervals self) + 1)%nat.
Proof.
  destruct (fillInTheGaps_loop_total null (IntervalTier.intervals self)
              (IntervalTier.minTime self) [])
    as (hi & filled & R & I1 & I2 & I3).
  unfold IntervalTier_fillInTheGaps. rewrite R, bind_ret_l. cbn [app].
  destruct (IntervalTier.maxTime self) as [x |].
  - destruct (ltb hi x) eqn:L; props.
    + rewrite Interval_init_ok, bind_ret_l by exact L.
      eexists. split; [reflexivity |]. split; [| split].
      * intros i Hi. apply in_or_app. left. auto.
      * apply Forall_app. split; [exact I2 |].
        constructor; [| constructor]. right. split; [reflexivity | exact L].
      * rewrite length_app. cbn [List.length]. lia.
    + exists filled. split; [reflexivity |]. split; [exact I1 |].
      split; [exact I2 | lia].
  - exists filled. split; [reflexivity |]. split; [exact I1 |].
    split; [exact I2 | lia].
Qed.

(** Filling the gaps of a sorted tier leaves none. *)
Lemma fillInTheGaps_gap_free (self : IntervalTier.t) (null : string) :
  sorted_disjoint (IntervalTier.intervals self) ->
  Forall (fun i => IntervalTier.minTime self <= Interval.minTime i)
         (IntervalTier.intervals self) ->
  exists output,
    IntervalTier_fillInTheGaps self null = ret output
    /\ gap_free (ITier (set_intervals self output)).
Proof.
  intros [V S] Lo.
  destruct (fillInTheGaps_loop_covers null (IntervalTier.intervals self)
              (IntervalTier.minTime self) [] V S Lo)
    as (hi & filled & R & C & _).
  unfold IntervalTier_fillInTheGaps. rewrite R, bind_ret_l. cbn [app].
  destruct (IntervalTier.maxTime self) as [x |] eqn:M.
  - destruct (ltb hi x) eqn:L; props.
    + rewrite Interval_init_ok, bind_ret_l by exact L.
      eexists. split; [reflexivity |]. exists x.
      cbn [set_intervals IntervalTier.minTime IntervalTier.intervals IntervalTier.maxTime].
      rewrite M. split; [| apply Qle_refl].
      apply (covers_snoc _ _ _ (Interval.mk hi x null true) C); [exact L |].
      apply Qeq_refl.
    + exists filled. split; [reflexivity |]. exists hi.
      cbn [set_intervals IntervalTier.minTime IntervalTier.intervals IntervalTier.maxTime].
      rewrite M. split; assumption.
  - exists filled. split; [reflexivity |]. exists hi.
    cbn [set_intervals IntervalTier.minTime IntervalTier.intervals IntervalTier.maxTime].
    rewrite M. split; [assumption | exact I].
Qed.

(** X10. Filling the gaps is idempotent: for a tier whose intervals are
    sorted, disjoint and not before its [minTime], the filled sequence put
    in place of the intervals is filled to itself. *)
Theorem fillInTheGaps_idempotent (self : IntervalTier.t) (null null' : string) :
  sorted_disjoint (IntervalTier.intervals self) ->
  Forall (fun i => IntervalTier.minTime self <= Interval.minTime i)
         (IntervalTier.intervals self) ->
  exists output,
    IntervalTier_fillInTheGaps self null = ret output
    /\ IntervalTier_fillInTheGaps (set_intervals self output) null' = ret output.
Proof.
  intros SD Lo.
  destruct (fillInTheGaps_gap_free self null SD Lo) as (output & E & hi & C & M).
  exists output. split; [exact E |].
  cbn [set_intervals IntervalTier.minTime IntervalTier.intervals IntervalTier.maxTime]
    in C, M.
  unfold IntervalTier_fillInTheGaps.
  cbn [set_intervals IntervalTier.minTime IntervalTier.intervals IntervalTier.maxTime].
  destruct (fillInTheGaps_loop_covered null' _ hi _ [] C) as (h & R & Hh).
  rewrite R, bind_ret_l. cbn [app].
  destruct (IntervalTier.maxTime self) as [x |]; [| reflexivity].
  replace (ltb h x) with false by (symmetry; props; rewrite Hh; exact M).
  reflexivity.
Qed.

Lemma fillInTheGaps_idempotent_witness :
  exists output,
    IntervalTier_fillInTheGaps cat_tier "" = ret output
    /\ IntervalTier_fillInTheGaps (set_intervals cat_tier output) "-" = ret output.
Proof.
  apply (fillInTheGaps_idempotent cat_tier "" "-").
  - split; repeat constructor.
  - repeat constructor. vm_compute. discriminate.
Defined.

(* ------------------------------------------------------------------ *)
(** ** [PointTier.addPoint], [PointTier.remove] *)

Lemma split_by_time (time : Q) (l : list Point.t) :
  points_sorted l ->
  exists below rest,
    l = below ++ rest
    /\ Forall (fun e => Point.time e < time) below
    /\ Forall (fun e => time <= Point.time e) rest.
Proof.
  induction 1 as [| e l S IH F].
  - exists [], []. repeat split; constructor.
  - destruct (Qlt_le_dec (Point.time e) time) as [L | L].
    + destruct IH as (below & rest & -> & B & R).
      exists (e :: below), rest. repeat split; [constructor |]; assumption.
    + exists [], (e :: l). split; [reflexivity |]. split; [constructor |].
      constructor; [assumption |].
      eapply Forall_impl; [| exact F]. cbv beta. intros a Ha. lra.
Qed.

(** What [addPoint] does on a sorted tier, case by case. *)
Lemma addPoint_cases (self : PointTier.t) (p : Point.t) :
  points_sorted (PointTier.points self) ->
  exists below rest,
    PointTier.points self = below ++ rest
    /\ Forall (fun e => Point.time e < Point.time p) below
    /\ Forall (fun e => Point.time p <= Point.time e) rest
    /\ PointTier_addPoint self p
       = if point_too_early self p
         then raise (ValueError [AFloat (PointTier.minTime self)])
         else if point_too_late self p
         then match PointTier.maxTime self with
              | Some m => raise (ValueError [AFloat m])
              | None => raise IndexError
              end
         else match rest with
              | e :: _ =>
                  if eqb (Point.time e) (Point.time p)
                  then raise (ValueError [APoint p])
                  else ret (set_points self (below ++ p :: rest))
              | [] => ret (set_points self (below ++ [p]))
              end.
Proof.
  intros S.
  destruct (split_by_time (Point.time p) _ S) as (below & rest & E & B & R).
  exists below, rest. split; [exact E |]. split; [exact B |]. split; [exact R |].
  unfold PointTier_addPoint, point_too_early, point_too_late.
  cbn [Point_lt]. rewrite bind_ret_l.
  destruct (ltb (Point.time p) (PointTier.minTime self)); [reflexivity |].
  rewrite raise_if_false, bind_ret_l.
  assert (I : bisect_left (fun e => Point_lt e (OPoint p)) (PointTier.points self)
              = ret (List.length below)).
  { rewrite E. apply bisect_left_split.
    - intros e He. rewrite Forall_forall in B. cbn. f_equal. f_equal. props. auto.
    - intros e He. rewrite Forall_forall in R. cbn. f_equal. f_equal. props. auto. }
  assert (T : (i <- bisect_left (fun e => Point_lt e (OPoint p)) (PointTier.points self) ;;
               match nth_error (PointTier.points self) i with
               | Some e => raise_if (eqb (Point.time e) (Point.time p))
                             (ValueError [APoint p])
               | None => ret tt
               end ;;
               ret (set_points self (list_insert i p (PointTier.points self))))
              = match rest with
                | e :: _ =>
                    if eqb (Point.time e) (Point.time p)
                    then raise (ValueError [APoint p])
                    else ret (set_points self (below ++ p :: rest))
                | [] => ret (set_points self (below ++ [p]))
                end).
  { rewrite I, bind_ret_l. rewrite E, nth_error_split, list_insert_app.
    destruct rest as [| e rest]; cbn [hd_error]; [now rewrite bind_ret_l |].
    destruct (eqb (Point.time e) (Point.time p)); [reflexivity |].
    now rewrite raise_if_false, bind_ret_l. }
  destruct (PointTier.maxTime self) as [m |] eqn:M.
  - destruct (truthy (Some m)) eqn:Tr; cbn [andb].
    + cbn [Point_gt]. rewrite bind_ret_l.
      destruct (gtb (Point.time p) m); [reflexivity |].
      rewrite raise_if_false, bind_ret_l. exact T.
    + rewrite bind_ret_l. exact T.
  - cbn [truthy andb]. rewrite bind_ret_l. exact T.
Qed.

(** X11. Every [addPoint] that succeeds on a tier whose points are in
    ascending order of time, no two at the same time, leaves them so: the
    new list is the old one with the point put in, and nothing is logged.
    The point is not before the tier's [minTime]. *)
Theorem addPoint_preserves_order (self self' : PointTier.t) (p : Point.t)
    (w : list warning) :
  points_sorted (PointTier.points self) ->
  PointTier_addPoint self p = (w, inr self') ->
  w = []
  /\ points_sorted (PointTier.points self')
  /\ Permutation (PointTier.points self') (p :: PointTier.points self)
  /\ PointTier.minTime self <= Point.time p.
Proof.
  intros S R.
  destruct (addPoint_cases self p S) as (below & rest & E & B & Rs & C).
  rewrite C in R. clear C.
  unfold point_too_early in R.
  destruct (ltb (Point.time p) (PointTier.minTime self)) eqn:L; [discriminate |].
  destruct (point_too_late self p);
    [destruct (PointTier.maxTime self); discriminate |].
  unfold points_sorted in *. rewrite E in S.
  apply StronglySorted_app_inv in S as (S1 & S2 & S12).
  assert (K : forall rest', rest = rest' ->
              Forall (fun e => Point.time p < Point.time e) rest' ->
              (w, inr self') = ret (set_points self (below ++ p :: rest')) ->
              w = []
              /\ StronglySorted (fun a b => Point.time a < Point.time b)
                                (PointTier.points self')
              /\ Permutation (PointTier.points self') (p :: PointTier.points self)
              /\ PointTier.minTime self <= Point.time p).
  { intros rest' <- F H. injection H as -> ->.
    cbn [set_points PointTier.points].
    split; [reflexivity |]. split; [| split].
    - apply StronglySorted_app; [assumption | |].
      + constructor; assumption.
      + intros a b Ha [<- | Hb]; [rewrite Forall_forall in B; auto | auto].
    - rewrite E. symmetry. apply Permutation_middle.
    - props. exact L. }
  destruct rest as [| e rest].
  - apply (K []); [reflexivity | constructor | symmetry; exact R].
  - destruct (eqb (Point.time e) (Point.time p)) eqn:Q; [discriminate |].
    apply (K (e :: rest)); [reflexivity | | symmetry; exact R].
    props. pose proof (Forall_inv Rs) as He. cbv beta in He.
    assert (Hlt : Point.time p < Point.time e).
    { destruct (Qlt_le_dec (Point.time p) (Point.time e)) as [? | Hle]; [assumption |].
      exfalso. apply Q. apply Qle_antisym; assumption. }
    constructor; [exact Hlt |].
    inversion S2 as [| ? ? _ F]; subst.
    eapply Forall_impl; [| exact F]. cbv beta. intros a Ha. lra.
Qed.

Lemma addPoint_preserves_order_witness :
  let self := PointTier.mk (Some "tone") (mkfloat 0 0) None
                [Point.mk (mkfloat 1 0) "H" None; Point.mk (mkfloat 3 0) "L" None] None in
  let p := Point.mk (mkfloat 2 0) "M" None in
  let self' := set_points self
                 [Point.mk (mkfloat 1 0) "H" None; p; Point.mk (mkfloat 3 0) "L" None] in
  @nil warning = []
  /\ points_sorted (PointTier.points self')
  /\ Permutation (PointTier.points self') (p :: PointTier.points self)
  /\ PointTier.minTime self <= Point.time p.
Proof.
  intros self p self'.
  apply (addPoint_preserves_order self self' p []).
  - repeat constructor.
  - vm_compute. reflexivity.
Defined.

(** X12. On a sorted tier, a point within the bounds at the time of a
    point of the tier is refused: [addPoint] raises the [ValueError] that
    carries the new point, whatever the marks. *)
Theorem addPoint_same_time_raises (self : PointTier.t) (p : Point.t) :
  points_sorted (PointTier.points self) ->
  point_too_early self p = false ->
  point_too_late self p = false ->
  Exists (fun e => Point.time e == Point.time p) (PointTier.points self) ->
  PointTier_addPoint self p = raise (ValueError [APoint p]).
Proof.
  intros S E1 E2 Ex.
  destruct (addPoint_cases self p S) as (below & rest & E & B & Rs & C).
  rewrite C, E1, E2. clear C. rewrite E in Ex, S.
  apply Exists_app in Ex as [Ex | Ex].
  { exfalso. apply Exists_exists in Ex as (e & He & Q).
    rewrite Forall_forall in B. specialize (B e He). cbv beta in B. lra. }
  destruct rest as [| e rest]; [inversion Ex |].
  replace (eqb (Point.time e) (Point.time p)) with true; [reflexivity |].
  symmetry. props.
  inversion Ex as [? ? Q | ? ? Ex']; subst; [exact Q |].
  apply Exists_exists in Ex' as (c & Hc & Q).
  apply StronglySorted_app_inv in S as (_ & S2 & _).
  inversion S2 as [| ? ? _ F]; subst. rewrite Forall_forall in F.
  specialize (F c Hc). cbv beta in F.
  pose proof (Forall_inv Rs) as He. cbv beta in He. lra.
Qed.

Lemma addPoint_same_time_raises_witness :
  let self := PointTier.mk (Some "tone") (mkfloat 0 0) None
                [Point.mk (mkfloat 1 0) "H" None; Point.mk (mkfloat 3 0) "L" None] None in
  let p := Point.mk (mkfloat 30 1) "other" None in
  PointTier_addPoint self p = raise (ValueError [APoint p]).
Proof.
  intros self p. apply (addPoint_same_time_raises self p).
  - repeat constructor.
  - reflexivity.
  - reflexivity.
  - constructor 2. constructor. reflexivity.
Defined.

Lemma set_points_twice (self : PointTier.t) (l : list Point.t) :
  set_points (set_points self l) (PointTier.points self) = self.
Proof. now destruct self. Qed.

(** X13. On a sorted tier [remove] undoes [add]: after a successful
    [add(time, mark)], [remove(time, other)] gives the tier back as it
    was, whatever the mark passed to [remove]: only the time is
    compared. *)
Theorem PointTier_add_then_remove (self self' : PointTier.t) (time : float)
    (mark mark' : string) (w : list warning) :
  points_sorted (PointTier.points self) ->
  PointTier_add self time mark = (w, inr self') ->
  PointTier_remove self' time mark' = ret self.
Proof.
  intros S R. unfold PointTier_add in R.
  destruct (addPoint_cases self (Point_init time mark) S)
    as (below & rest & E & B & Rs & C).
  rewrite C in R. clear C.
  destruct (point_too_early self (Point_init time mark)); [discriminate |].
  destruct (point_too_late self (Point_init time mark));
    [destruct (PointTier.maxTime self); discriminate |].
  assert (K : self' = set_points self (below ++ Point_init time mark :: rest)).
  { destruct rest as [| e rest].
    - injection R as _ <-. reflexivity.
    - destruct (eqb (Point.time e) (Point.time (Point_init time mark)));
        [discriminate |].
      injection R as _ <-. reflexivity. }
  subst self'. unfold PointTier_remove, PointTier_removePoint.
  cbn [set_points PointTier.points].
  rewrite list_remove_middle.
  - rewrite <- E. f_equal. apply set_points_twice.
  - eapply Forall_impl; [| exact B]. cbn. intros e He. props. lra.
  - cbn. props. reflexivity.
Qed.

Lemma PointTier_add_then_remove_witness :
  let self := PointTier.mk (Some "tone") (mkfloat 0 0) None
                [Point.mk (mkfloat 1 0) "H" None; Point.mk (mkfloat 3 0) "L" None] None in
  PointTier_remove
    (set_points self
       [Point.mk (mkfloat 1 0) "H" None; Point.mk (mkfloat 2 0) "M" None;
        Point.mk (mkfloat 3 0) "L" None])
    (mkfloat 2 0) "any" = ret self.
Proof.
  intros self.
  apply (PointTier_add_then_remove self _ (mkfloat 2 0) "M" "any" []).
  - repeat constructor.
  - vm_compute. reflexivity.
Defined.

(* ------------------------------------------------------------------ *)
(** ** The tiers of a [TextGrid] *)

Lemma name_eqb_eq (a b : option string) : name_eqb a b = true <-> a = b.
Proof.
  destruct a as [a |], b as [b |]; simpl; try (split; [discriminate | congruence]).
  - rewrite String.eqb_eq. split; congruence.
  - tauto.
Qed.

(** X14. [getFirst] is the head of [getList]; it finds a tier exactly when
    the name is among [getNames]; [getList] holds tiers of that name only,
    as many as the name occurs in [getNames].  A name is a string or
    [None], the name of a tier that was given none. *)
Theorem getFirst_getList_getNames (self : TextGrid.t) (tierName : option string) :
  TextGrid_getFirst self tierName = hd_error (TextGrid_getList self tierName)
  /\ (TextGrid_getFirst self tierName = None <-> ~ In tierName (TextGrid_getNames self))
  /\ Forall (fun t => tier_name t = tierName) (TextGrid_getList self tierName)
  /\ List.length (TextGrid_getList self tierName)
     = count_occ name_eq_dec (TextGrid_getNames self) tierName.
Proof.
  unfold TextGrid_getFirst, TextGrid_getList, TextGrid_getNames.
  induction (TextGrid.tiers self) as [| t l (IH1 & IH2 & IH3 & IH4)].
  - repeat split; simpl; auto.
  - simpl. destruct (name_eqb (tier_name t) tierName) eqn:E.
    + apply name_eqb_eq in E. split; [reflexivity |]. split; [| split].
      * split; [discriminate | intros H; exfalso; apply H; now left].
      * constructor; assumption.
      * simpl. destruct (name_eq_dec (tier_name t) tierName); [| contradiction].
        now rewrite IH4.
    + assert (N : tier_name t <> tierName)
        by (intros H; apply name_eqb_eq in H; congruence).
      split; [exact IH1 |]. split; [| split].
      * rewrite IH2. split; [intros H [H' | H']; auto | intros H H'; apply H; now right].
      * assumption.
      * destruct (name_eq_dec (tier_name t) tierName); [contradiction | exact IH4].
Qed.

Lemma tier_set_strict_flags (b : bool) (t : tier) : tier_flags b (tier_set_strict b t).
Proof.
  destruct t as [t | t]; (split; [reflexivity |]); apply Forall_map, Forall_forall;
    reflexivity.
Qed.

Lemma tier_set_strict_name (b : bool) (t : tier) :
  tier_name (tier_set_strict b t) = tier_name t.
Proof. now destruct t. Qed.

Lemma tier_set_strict_len (b : bool) (t : tier) :
  tier_len (tier_set_strict b t) = tier_len t.
Proof. destruct t; simpl; apply length_map. Qed.

(** X15. An [append] that succeeds logs nothing and puts the tier last:
    the names are the old names and then the tier's; the last tier has as
    many elements as the tier given, and it and each of its elements carry
    the grid's [strict] flag; the tiers before it are as many as before,
    with the same numbers of elements; the flag of the grid stays; and the
    tier does not end after a grid that has a [maxTime].  (Nothing is said
    of the flags of the tiers before it: [append] sets the flag on the
    tier object it is given, which may be among them already.) *)
Theorem append_puts_last (self self' : TextGrid.t) (t : tier) (w : list warning) :
  TextGrid_append self t = (w, inr self') ->
  w = []
  /\ TextGrid_getNames self' = TextGrid_getNames self ++ [tier_name t]
  /\ (exists earlier t',
        TextGrid.tiers self' = earlier ++ [t']
        /\ map tier_len earlier = map tier_len (TextGrid.tiers self)
        /\ tier_flags (TextGrid.strict self) t'
        /\ tier_len t' = tier_len t)
  /\ TextGrid.strict self' = TextGrid.strict self
  /\ (forall m x, TextGrid.maxTime self = Some m -> tier_maxTime t = Some x ->
                  Qof x <= m).
Proof.
  unfold TextGrid_append. intros R.
  assert (K : (w, inr self')
              = ret (set_tiers self
                       (TextGrid.tiers self ++ [tier_set_strict (TextGrid.strict self) t]))
              /\ forall m x, TextGrid.maxTime self = Some m -> tier_maxTime t = Some x ->
                             Qof x <= m).
  { destruct (TextGrid.maxTime self) as [m |]; [destruct (tier_maxTime t) as [x |] |].
    - destruct (gtb x m) eqn:G; [discriminate |].
      rewrite raise_if_false, bind_ret_l in R. split; [now symmetry |].
      intros m' x' [= <-] [= <-]. props. exact G.
    - rewrite bind_ret_l in R. split; [now symmetry |]. discriminate.
    - rewrite bind_ret_l in R. split; [now symmetry |]. discriminate. }
  destruct K as [K B]. injection K as -> ->.
  split; [reflexivity |]. split; [| split; [| split; [reflexivity | exact B]]].
  - unfold TextGrid_getNames. cbn [set_tiers TextGrid.tiers].
    now rewrite map_app, <- tier_set_strict_name with (b := TextGrid.strict self).
  - exists (TextGrid.tiers self). eexists. cbn [set_tiers TextGrid.tiers].
    split; [reflexivity |]. split; [reflexivity |].
    split; [apply tier_set_strict_flags | apply tier_set_strict_len].
Qed.

Lemma append_puts_last_witness :
  let self := TextGrid_init None (mkfloat 0 0) (Some (mkfloat 1 0)) false in
  let self' := set_tiers self [tier_set_strict false (ITier cat_tier)] in
  @nil warning = []
  /\ TextGrid_getNames self' = TextGrid_getNames self ++ [tier_name (ITier cat_tier)]
  /\ (exists earlier t',
        TextGrid.tiers self' = earlier ++ [t']
        /\ map tier_len earlier = map tier_len (TextGrid.tiers self)
        /\ tier_flags (TextGrid.strict self) t'
        /\ tier_len t' = tier_len (ITier cat_tier))
  /\ TextGrid.strict self' = TextGrid.strict self
  /\ (forall m x, TextGrid.maxTime self = Some m ->
                  tier_maxTime (ITier cat_tier) = Some x -> Qof x <= m).
Proof.
  intros self self'.
  apply (append_puts_last self self' (ITier cat_tier) []).
  vm_compute. reflexivity.
Defined.

Lemma list_min_ge (b : Q) (l : list float) :
  forall x : float, b <= x -> Forall (fun y : float => b <= y) l -> b <= list_min x l.
Proof.
  unfold list_min. induction l as [| y l IH]; intros x Hx F; simpl; [exact Hx |].
  apply IH; [| exact (Forall_inv_tail F)].
  destruct (ltb y x); [exact (Forall_inv F) | exact Hx].
Qed.

Lemma list_max_le (b : Q) (l : list float) :
  forall x : float, x <= b -> Forall (fun y : float => y <= b) l -> list_max x l <= b.
Proof.
  unfold list_max. induction l as [| y l IH]; intros x Hx F; simpl; [exact Hx |].
  apply IH; [| exact (Forall_inv_tail F)].
  destruct (gtb y x); [exact (Forall_inv F) | exact Hx].
Qed.

(** X16. [extend] looks at the start times only: tiers that all start
    within the bounds of the grid are appended as they are, whatever their
    end times and their flags. *)
Theorem extend_checks_starts_only (self : TextGrid.t) (tiers : list tier) :
  tiers <> [] ->
  Forall (fun t => TextGrid.minTime self <= tier_minTime t) tiers ->
  (forall m, TextGrid.maxTime self = Some m ->
             Forall (fun t => tier_minTime t <= m) tiers) ->
  TextGrid_extend self tiers = ret (set_tiers self (TextGrid.tiers self ++ tiers)).
Proof.
  intros N Lo Hi. unfold TextGrid_extend.
  destruct tiers as [| t ts]; [congruence |]. cbn [map].
  replace (ltb (list_min (tier_minTime t) (map tier_minTime ts)) (TextGrid.minTime self))
    with false.
  2:{ symmetry. props. apply list_min_ge; [exact (Forall_inv Lo) |].
      apply Forall_map. exact (Forall_inv_tail Lo). }
  rewrite raise_if_false, bind_ret_l.
  destruct (TextGrid.maxTime self) as [m |]; [| now rewrite bind_ret_l].
  replace (gtb (list_max (tier_minTime t) (map tier_minTime ts)) m) with false.
  2:{ symmetry. props. specialize (Hi m eq_refl).
      apply list_max_le; [exact (Forall_inv Hi) |].
      apply Forall_map. exact (Forall_inv_tail Hi). }
  now rewrite andb_false_r, raise_if_false, bind_ret_l.
Qed.

Lemma extend_checks_starts_only_witness :
  let self := TextGrid_init None (mkfloat 0 0) (Some (mkfloat 1 0)) true in
  let late := ITier (IntervalTier.mk (Some "late") (mkfloat 1 0) (Some (mkfloat 9 0))
                       [Interval.mk (mkfloat 2 0) (mkfloat 9 0) "x" false] false) in
  TextGrid_extend self [late] = ret (set_tiers self (TextGrid.tiers self ++ [late])).
Proof.
  intros self late. apply (extend_checks_starts_only self [late]).
  - discriminate.
  - repeat constructor. vm_compute. discriminate.
  - intros m [= <-]. repeat constructor. vm_compute. discriminate.
Defined.

(* ------------------------------------------------------------------ *)
(** ** [TextGrid.pop] *)

Lemma list_pop_last (A : Type) (l : list A) (x : A) :
  list_pop (-1) (l ++ [x]) = Some (x, l).
Proof.
  unfold list_pop. rewrite length_app. cbn [List.length].
  replace (-1 <? 0)%Z with true by reflexivity. cbv iota.
  replace (-1 + Z.of_nat (List.length l + 1))%Z with (Z.of_nat (List.length l)) by lia.
  replace (Z.of_nat (List.length l) <? 0)%Z with false by (symmetry; apply Z.ltb_ge; lia).
  replace (Z.of_nat (List.length l + 1) <=? Z.of_nat (List.length l))%Z with false
    by (symmetry; apply Z.leb_gt; lia).
  cbn [orb]. rewrite Nat2Z.id, nth_error_split. cbn [hd_error].
  rewrite firstn_app, Nat.sub_diag, firstn_all, firstn_O, app_nil_r.
  rewrite skipn_all2 by (rewrite length_app; cbn; lia).
  now rewrite app_nil_r.
Qed.

Lemma list_pop_nil (A : Type) (i : Z) : list_pop i (@nil A) = None.
Proof.
  unfold list_pop. cbn [List.length]. change (Z.of_nat 0) with 0%Z.
  destruct (i <? 0)%Z eqn:E.
  - rewrite Z.add_0_r, E. reflexivity.
  - replace (0 <=? i)%Z with true by (symmetry; apply Z.leb_le; apply Z.ltb_ge in E; lia).
    now rewrite orb_true_r.
Qed.

(** X17. [pop(0)] does not take the first tier: the index 0 is false, so
    [pop(0)] is [pop()] and takes the last tier, which leaves the tiers
    before it.  On a grid without tiers every [pop] raises
    [IndexError]. *)
Theorem pop_zero_pops_last (self : TextGrid.t) :
  TextGrid_pop self (Some 0%Z) = TextGrid_pop self None
  /\ (forall l t, TextGrid.tiers self = l ++ [t] ->
                  TextGrid_pop self (Some 0%Z) = ret (t, set_tiers self l))
  /\ (TextGrid.tiers self = [] -> forall i, TextGrid_pop self i = raise IndexError).
Proof.
  split; [reflexivity |]. split.
  - intros l t E. unfold TextGrid_pop. cbn. now rewrite E, list_pop_last.
  - intros E i. unfold TextGrid_pop. rewrite E.
    destruct i as [i |]; [destruct (i =? 0)%Z |]; now rewrite list_pop_nil.
Qed.

(* ------------------------------------------------------------------ *)
(** ** [IntervalTier.__eq__], [PointTier.__eq__] *)

Lemma zip_all_prefix (A : Type) (eq : A -> A -> bool) (l l' : list A) :
  (forall a, In a l -> eq a a = true) ->
  zip_all eq l (l ++ l') = true /\ zip_all eq (l ++ l') l = true.
Proof.
  intros H. induction l as [| a l IH]; simpl.
  - split; [reflexivity | now destruct l'].
  - rewrite (H a) by now left. apply IH. intros b Hb. apply H. now right.
Qed.

(** X18. Equality of tiers compares the elements pairwise as far as the
    shorter tier goes, and nothing else: a tier whose elements are the
    first elements of another equals it, from either side, whatever the
    names, the bounds and the flags of the two tiers.  So a tier without
    elements equals every tier. *)
Theorem tier_equals_its_prefix
    (self other : IntervalTier.t) (l : list Interval.t)
    (pself pother : PointTier.t) (pl : list Point.t) :
  IntervalTier.intervals other = IntervalTier.intervals self ++ l ->
  PointTier.points pother = PointTier.points pself ++ pl ->
  IntervalTier_eq self other = true /\ IntervalTier_eq other self = true
  /\ PointTier_eq pself pother = true /\ PointTier_eq pother pself = true.
Proof.
  intros E P. unfold IntervalTier_eq, PointTier_eq. rewrite E, P.
  destruct (zip_all_prefix _ (fun a b => Interval_eq a (OInterval b))
              (IntervalTier.intervals self) l) as [H1 H2].
  { intros a _. cbn.
    replace (eqb (Interval.minTime a) (Interval.minTime a)) with true
      by (symmetry; props; reflexivity).
    replace (eqb (Interval.maxTime a) (Interval.maxTime a)) with true
      by (symmetry; props; reflexivity).
    reflexivity. }
  destruct (zip_all_prefix _ (fun a b => Point_eq a (OPoint b))
              (PointTier.points pself) pl) as [H3 H4].
  { intros a _. cbn. props. reflexivity. }
  auto.
Qed.

Lemma tier_equals_its_prefix_witness :
  let empty := IntervalTier_init (Some "empty") (mkfloat 5 0) None in
  let pempty := PointTier_init (Some "none") (mkfloat 5 0) None in
  let tones := PointTier.mk (Some "tone") (mkfloat 0 0) None [Point.mk (mkfloat 1 0) "H" None] None in
  IntervalTier_eq empty cat_tier = true /\ IntervalTier_eq cat_tier empty = true
  /\ PointTier_eq pempty tones = true /\ PointTier_eq tones pempty = true.
Proof.
  intros empty pempty tones.
  apply (tier_equals_its_prefix empty cat_tier (IntervalTier.intervals cat_tier)
           pempty tones (PointTier.points tones)); reflexivity.
Defined.

(* ------------------------------------------------------------------ *)
(** ** [TextGrid.write] without a [maxTime] *)

Lemma write_maxT_falsy (self : TextGrid.t) :
  truthy (TextGrid.maxTime self) = false ->
  write_maxT self
  = (xs <- tier_ends (TextGrid.tiers self) ;;
     match xs with
     | [] => raise (ValueError [AStr "max() arg is an empty sequence"])
     | x :: xs => ret (list_max x xs)
     end).
Proof.
  intros T. unfold write_maxT.
  destruct (TextGrid.maxTime self) as [x |]; [now rewrite T | reflexivity].
Qed.

Lemma tier_end_empty (t : tier) :
  truthy (tier_maxTime t) = false -> tier_len t = 0%nat -> tier_end t = raise IndexError.
Proof.
  intros T L.
  destruct t as [t | t]; cbn [tier_maxTime tier_len tier_end] in *;
    apply length_zero_iff_nil in L; rewrite L.
  - destruct (IntervalTier.maxTime t) as [x |]; [now rewrite T | reflexivity].
  - destruct (PointTier.maxTime t) as [x |]; [now rewrite T | reflexivity].
Qed.

Lemma tier_end_points (t : PointTier.t) :
  truthy (PointTier.maxTime t) = false -> PointTier.points t <> [] ->
  tier_end (PTier t) = raise AttributeError.
Proof.
  intros T N. cbn [tier_end].
  destruct (PointTier.points t); [congruence |].
  destruct (PointTier.maxTime t) as [x |]; [now rewrite T | reflexivity].
Qed.

(** X19. A grid without a [maxTime] (none, or zero) takes the end of its
    tiers for [xmax]: [write] raises [ValueError] when it has no tier, and
    for a first tier without a [maxTime] it raises [IndexError] when the
    tier is empty and [AttributeError] when it is a point tier with
    points, a point having no [maxTime]. *)
Theorem write_without_maxTime (self : TextGrid.t) (null : string) :
  truthy (TextGrid.maxTime self) = false ->
  (TextGrid.tiers self = [] ->
   TextGrid_write self null = raise (ValueError [AStr "max() arg is an empty sequence"]))
  /\ (forall t ts, TextGrid.tiers self = t :: ts ->
                   truthy (tier_maxTime t) = false -> tier_len t = 0%nat ->
                   TextGrid_write self null = raise IndexError)
  /\ (forall t ts, TextGrid.tiers self = PTier t :: ts ->
                   truthy (PointTier.maxTime t) = false -> PointTier.points t <> [] ->
                   TextGrid_write self null = raise AttributeError).
Proof.
  intros T. unfold TextGrid_write. rewrite (write_maxT_falsy self T).
  split; [| split].
  - intros E. now rewrite E.
  - intros t ts E Tt L. rewrite E. cbn [tier_ends].
    now rewrite (tier_end_empty t Tt L).
  - intros t ts E Tt N. rewrite E. cbn [tier_ends].
    now rewrite (tier_end_points t Tt N).
Qed.

Lemma write_without_maxTime_witness :
  let self := TextGrid_init None (mkfloat 0 0) (Some (mkfloat 0 0)) true in
  (TextGrid.tiers self = [] ->
   TextGrid_write self "" = raise (ValueError [AStr "max() arg is an empty sequence"]))
  /\ (forall t ts, TextGrid.tiers self = t :: ts ->
                   truthy (tier_maxTime t) = false -> tier_len t = 0%nat ->
                   TextGrid_write self "" = raise IndexError)
  /\ (forall t ts, TextGrid.tiers self = PTier t :: ts ->
                   truthy (PointTier.maxTime t) = false -> PointTier.points t <> [] ->
                   TextGrid_write self "" = raise AttributeError).
Proof.
  intros self. apply (write_without_maxTime self ""). reflexivity.
Defined.

(* ------------------------------------------------------------------ *)
(** ** Marks *)

(** X20. [_formatMark] doubles the double quotes, and the replacement that
    [_getMark] applies to an entry undoes it: the text written for a mark
    holds an even number of double quotes, is no shorter than the mark,
    holds a line boundary exactly when the mark does, and is replaced back
    to the mark. *)
Theorem formatMark_is_undone (m : string) :
  undouble_quotes (formatMark m) = m
  /\ odd_quotes (formatMark m) = false
  /\ (String.length m <= String.length (formatMark m))%nat
  /\ has_linebreak (formatMark m) = has_linebreak m.
Proof.
  unfold formatMark. split; [apply undouble_double |].
  split; [apply odd_quotes_double |].
  split; [apply length_double | apply has_linebreak_double].
Qed.

Lemma lstrip_blank_app (indent s : string) :
  all_space indent = true -> lstrip (indent ++ s) = lstrip s.
Proof.
  induction indent as [| c indent IH]; [reflexivity |].
  cbn [all_space]. intros H. apply andb_true_iff in H as [H1 H2].
  change ((String c indent ++ s)%string) with (String c (indent ++ s)).
  cbn [lstrip]. rewrite H1. now apply IH.
Qed.

(** X21. Every mark is read back from the entry written for it: after any
    indentation that holds no line boundary, [text = ] or [mark = ], and
    the mark as [_formatMark] gives it between double quotes, [_getMark]
    returns the mark itself and leaves the text that follows the line,
    whatever the mark holds, double quotes and line boundaries
    included. *)
Theorem getMark_reads_formatted_mark (indent key m rest : string) :
  all_space indent = true ->
  has_linebreak indent = false ->
  key = "text"%string \/ key = "mark"%string ->
  getMark (indent ++ key ++ " = " ++ DQ ++ formatMark m ++ DQ ++ NL ++ rest) false
  = ret (m, rest).
Proof.
  intros A H K.
  assert (E : entry_key (indent ++ key ++ " = " ++ DQ) = true).
  { unfold entry_key. rewrite has_linebreak_app, H, lstrip_blank_app by exact A.
    destruct K as [-> | ->]; reflexivity. }
  pose proof (getMark_written (indent ++ key ++ " = " ++ DQ) m rest E) as G.
  rewrite !append_assoc in G. destruct K as [-> | ->]; exact G.
Qed.

Lemma getMark_reads_formatted_mark_witness :
  let m := ("say " ++ DQ ++ "cat" ++ DQ ++ NL ++ "twice")%string in
  getMark (TAB ++ "text" ++ " = " ++ DQ ++ formatMark m ++ DQ ++ NL ++ "next") false
  = ret (m, "next"%string).
Proof.
  intros m. apply (getMark_reads_formatted_mark TAB "text" m "next").
  - reflexivity.
  - reflexivity.
  - now left.
Defined.

(* ------------------------------------------------------------------ *)
(** ** The file of one tier: [write], then [read] *)

Lemma parse_header_IntervalTier (rest : string) :
  parse_header (print ("File type = " ++ DQ ++ "ooTextFile" ++ DQ)
                ++ print ("Object class = " ++ DQ ++ "IntervalTier" ++ DQ ++ NL)
                ++ rest)
  = ret (VStr "IntervalTier", false, rest).
Proof.
  unfold parse_header.
  rewrite readline_printed by reflexivity. cbn [fst snd].
  replace (re_file_type (print ("File type = " ++ DQ ++ "ooTextFile" ++ DQ)))
    with (Some "ooTextFile"%string) by (vm_compute; reflexivity).
  cbv iota.
  replace (startswith "ooTextFile" "ooTextFile") with true by (vm_compute; reflexivity).
  replace (contains "short" "ooTextFile") with false by (vm_compute; reflexivity).
  cbv iota. cbn [negb].
  change (print ("Object class = " ++ DQ ++ "IntervalTier" ++ DQ ++ NL) ++ rest)%string
    with (print ("Object class = " ++ DQ ++ "IntervalTier" ++ DQ) ++ NL ++ rest)%string.
  rewrite readline_printed by reflexivity. cbn [fst snd].
  rewrite (parse_line_printed _ ("Object class = " ++ DQ) "IntervalTier") by reflexivity.
  rewrite bind_ret_l, readline_NL. reflexivity.
Qed.

Lemma parse_header_TextTier (rest : string) :
  parse_header (print ("File type = " ++ DQ ++ "ooTextFile" ++ DQ)
                ++ print ("Object class = " ++ DQ ++ "TextTier" ++ DQ ++ NL)
                ++ rest)
  = ret (VStr "TextTier", false, rest).
Proof.
  unfold parse_header.
  rewrite readline_printed by reflexivity. cbn [fst snd].
  replace (re_file_type (print ("File type = " ++ DQ ++ "ooTextFile" ++ DQ)))
    with (Some "ooTextFile"%string) by (vm_compute; reflexivity).
  cbv iota.
  replace (startswith "ooTextFile" "ooTextFile") with true by (vm_compute; reflexivity).
  replace (contains "short" "ooTextFile") with false by (vm_compute; reflexivity).
  cbv iota. cbn [negb].
  change (print ("Object class = " ++ DQ ++ "TextTier" ++ DQ ++ NL) ++ rest)%string
    with (print ("Object class = " ++ DQ ++ "TextTier" ++ DQ) ++ NL ++ rest)%string.
  rewrite readline_printed by reflexivity. cbn [fst snd].
  rewrite (parse_line_printed _ ("Object class = " ++ DQ) "TextTier") by reflexivity.
  rewrite bind_ret_l, readline_NL. reflexivity.
Qed.

Lemma IntervalTier_read_written_loop (rd : nat) (output : list Interval.t) :
  forall (i : nat) (self : IntervalTier.t) (rest : string),
    Forall (fun o => round (Interval.minTime o) rd < round (Interval.maxTime o) rd)
           output ->
    IntervalTier_read_loop (List.length output) false rd self
      (IntervalTier_write_loop i output ++ rest)
    = ret (set_intervals self
             (IntervalTier.intervals self ++ map (round_interval rd true) output)).
Proof.
  induction output as [| o output IH]; intros i self rest V.
  - cbn [List.length IntervalTier_read_loop map].
    now rewrite app_nil_r, set_intervals_same.
  - cbn [List.length IntervalTier_read_loop IntervalTier_write_loop map].
    rewrite !append_assoc.
    rewrite (skip_printed _ ("intervals [" ++ format_int i ++ "]:"))
      by (reflexivity || (apply (no_linebreak_index "intervals [" i "]:"); reflexivity)).
    rewrite (read_float_printed _ (TAB ++ "xmin = ") (Interval.minTime o)) by reflexivity.
    rewrite bind_ret_l.
    rewrite (read_float_printed _ (TAB ++ "xmax = ") (Interval.maxTime o)) by reflexivity.
    rewrite bind_ret_l.
    rewrite (getMark_printed _ (TAB ++ "text = " ++ DQ) (Interval.mark o)) by reflexivity.
    rewrite bind_ret_l.
    rewrite Interval_init_ok, bind_ret_l by exact (Forall_inv V).
    rewrite IH by exact (Forall_inv_tail V).
    unfold set_intervals. cbn. now rewrite <- app_assoc.
Qed.

(** X22. [IntervalTier.write] then [IntervalTier.read]: for a tier that
    has an end to write (a [maxTime] other than zero, or else a last
    interval) and whose filled intervals all keep a positive duration
    under the rounding, [write] returns a text, and [read] of it into a
    tier sets the bounds to the rounded ones and appends, after the
    intervals that the reading tier holds, the filled intervals in the
    order written, with the same marks and rounded bounds, each with the
    flag of a new interval.  The intervals need not be sorted: [read] does
    not go through [addInterval].  The name and the flag of the reading
    tier stay. *)
Theorem IntervalTier_write_read (self reader : IntervalTier.t) (null : string)
    (rd : nat) (maxT : float) :
  tier_end (ITier self) = ret maxT ->
  Forall (fun o => round (Interval.minTime o) rd < round (Interval.maxTime o) rd)
         (gap_filled null self) ->
  exists text,
    IntervalTier_write self null = ret text
    /\ IntervalTier_read reader text rd
       = ret (IntervalTier.mk (IntervalTier.name reader)
                (round (IntervalTier.minTime self) rd) (Some (round maxT rd))
                (IntervalTier.intervals reader
                 ++ map (round_interval rd true) (gap_filled null self))
                (IntervalTier.strict reader)).
Proof.
  intros HM V.
  destruct (fillInTheGaps_returns self null) as (output & E).
  rewrite (gap_filled_eq _ _ _ E) in *.
  eexists. split.
  - unfold IntervalTier_write. rewrite HM, bind_ret_l, E, bind_ret_l. reflexivity.
  - unfold IntervalTier_read.
    rewrite parse_header_IntervalTier, bind_ret_l.
    change (value_is (VStr "IntervalTier") "IntervalTier") with true.
    cbn [negb]. rewrite raise_if_false, bind_ret_l.
    rewrite (read_float_printed _ "xmin = " (IntervalTier.minTime self)) by reflexivity.
    rewrite bind_ret_l.
    rewrite (read_float_printed _ "xmax = " maxT) by reflexivity.
    rewrite bind_ret_l.
    rewrite (read_count_printed _ "intervals: size = " (List.length output))
      by reflexivity.
    rewrite bind_ret_l.
    rewrite <- (append_nil_r (IntervalTier_write_loop 1 output)).
    rewrite IntervalTier_read_written_loop by exact V.
    reflexivity.
Qed.

Lemma IntervalTier_write_read_witness :
  exists text,
    IntervalTier_write cat_tier "" = ret text
    /\ IntervalTier_read (IntervalTier_init (Some "copy") (float_of_Z 0) None) text 5
       = ret (IntervalTier.mk (Some "copy")
                (round (IntervalTier.minTime cat_tier) 5) (Some (round (mkfloat 1 0) 5))
                ([] ++ map (round_interval 5 true) (gap_filled "" cat_tier))
                true).
Proof.
  apply (IntervalTier_write_read cat_tier (IntervalTier_init (Some "copy") (float_of_Z 0) None)
           "" 5 (mkfloat 1 0)).
  - reflexivity.
  - repeat constructor.
Defined.

(** X23. The same degenerate entry, read by the two readers: when the
    rounded start of the entry is not before its rounded end,
    [TextGrid.read] goes on with the next entry and the tier unchanged,
    while [IntervalTier.read] raises the [ValueError] of [Interval] with
    the two bounds. *)
Theorem degenerate_entry_in_tier_file
    (n : nat) (round_digits : nat) (self itie : IntervalTier.t)
    (source s1 s2 s3 : string) (imin imax : float) (imrk : string) :
  read_float (skip_line source) false round_digits = ret (imin, s1) ->
  read_float s1 false round_digits = ret (imax, s2) ->
  getMark s2 false = ret (imrk, s3) ->
  imax <= imin ->
  IntervalTier_read_loop (S n) false round_digits self source
  = raise (ValueError [AFloat imin; AFloat imax])
  /\ read_intervals (S n) false round_digits itie source
     = read_intervals n false round_digits itie s3.
Proof.
  intros H1 H2 H3 Hd. split.
  - cbn [IntervalTier_read_loop].
    rewrite H1, bind_ret_l, H2, bind_ret_l, H3, bind_ret_l.
    now rewrite Interval_init_degenerate.
  - cbn [read_intervals]. rewrite H1, bind_ret_l, H2, bind_ret_l, H3, bind_ret_l.
    replace (ltb imin imax) with false by (symmetry; props; assumption).
    now rewrite bind_ret_l.
Qed.

Lemma degenerate_entry_in_tier_file_witness :
  let self := IntervalTier_init (Some "word") (mkfloat 0 0) (Some (mkfloat 1 0)) in
  IntervalTier_read_loop 1 false 5 self (interval_text "1" "0.5" "0.500001" "cat")
  = raise (ValueError [AFloat (mkfloat 50000 5); AFloat (mkfloat 50000 5)])
  /\ read_intervals 1 false 5 self (interval_text "1" "0.5" "0.500001" "cat")
     = read_intervals 0 false 5 self "".
Proof.
  intros self.
  apply (degenerate_entry_in_tier_file 0 5 self self
           (interval_text "1" "0.5" "0.500001" "cat")
           (text_of_lines
              [TAB ++ TAB ++ TAB ++ TAB ++ "xmax = 0.500001";
               TAB ++ TAB ++ TAB ++ TAB ++ "text = " ++ DQ ++ "cat" ++ DQ]%string)
           (text_of_lines
              [TAB ++ TAB ++ TAB ++ TAB ++ "text = " ++ DQ ++ "cat" ++ DQ]%string)
           ""%string (mkfloat 50000 5) (mkfloat 50000 5) "cat"%string).
  - vm_compute. reflexivity.
  - vm_compute. reflexivity.
  - vm_compute. reflexivity.
  - unfold Qof, Qle. simpl. lia.
Defined.

Lemma PointTier_read_written_loop (rd : nat) (points : list Point.t) :
  forall (i : nat) (self : PointTier.t) (rest : string),
    PointTier_read_loop (List.length points) false rd self
      (PointTier_write_loop i points ++ rest)
    = ret (set_points self (PointTier.points self ++ map (round_point rd) points)).
Proof.
  induction points as [| p points IH]; intros i self rest.
  - cbn [List.length PointTier_read_loop map].
    now rewrite app_nil_r, set_points_same.
  - cbn [List.length PointTier_read_loop PointTier_write_loop map].
    rewrite !append_assoc.
    rewrite (skip_printed _ ("points [" ++ format_int i ++ "]:"))
      by (reflexivity || (apply (no_linebreak_index "points [" i "]:"); reflexivity)).
    rewrite (read_float_printed _ (TAB ++ "time = ") (Point.time p)) by reflexivity.
    rewrite bind_ret_l.
    rewrite (getMark_printed _ (TAB ++ "mark = " ++ DQ) (Point.mark p)) by reflexivity.
    rewrite bind_ret_l.
    rewrite IH.
    unfold set_points. cbn. now rewrite <- app_assoc.
Qed.

(** X24. [PointTier.write] then [PointTier.read]: for a tier that has an
    end to write (a [maxTime] other than zero, or else a last point),
    [write] returns a text, and [read] of it into a tier sets the bounds
    to the rounded ones and appends, after the points that the reading
    tier holds, the points in the order written, with the same marks and
    rounded times.  Nothing is asked of the points: [read] does not go
    through [addPoint], so points at the same time are read back too. *)
Theorem PointTier_write_read (self reader : PointTier.t) (rd : nat) (maxT : float) :
  PointTier_end self = ret maxT ->
  exists text,
    PointTier_write self = ret text
    /\ PointTier_read reader text rd
       = ret (PointTier.mk (PointTier.name reader)
                (round (PointTier.minTime self) rd) (Some (round maxT rd))
                (PointTier.points reader ++ map (round_point rd) (PointTier.points self))
                (PointTier.strict reader)).
Proof.
  intros HM. eexists. split.
  - unfold PointTier_write. rewrite HM, bind_ret_l. reflexivity.
  - unfold PointTier_read.
    rewrite parse_header_TextTier, bind_ret_l.
    change (value_is (VStr "TextTier") "TextTier") with true.
    cbn [negb]. rewrite raise_if_false, bind_ret_l.
    rewrite (read_float_printed _ "xmin = " (PointTier.minTime self)) by reflexivity.
    rewrite bind_ret_l.
    rewrite (read_float_printed _ "xmax = " maxT) by reflexivity.
    rewrite bind_ret_l.
    rewrite (read_count_printed _ "points: size = " (List.length (PointTier.points self)))
      by reflexivity.
    rewrite bind_ret_l.
    rewrite <- (append_nil_r (PointTier_write_loop 1 (PointTier.points self))).
    rewrite PointTier_read_written_loop.
    reflexivity.
Qed.

Lemma PointTier_write_read_witness :
  let self := PointTier.mk (Some "tone") (mkfloat 0 0) None
                [Point.mk (mkfloat 3 0) "L" None; Point.mk (mkfloat 3 0) "H" None] None in
  exists text,
    PointTier_write self = ret text
    /\ PointTier_read (PointTier_init (Some "copy") (float_of_Z 0) None) text 5
       = ret (PointTier.mk (Some "copy")
                (round (PointTier.minTime self) 5) (Some (round (mkfloat 3 0) 5))
                ([] ++ map (round_point 5) (PointTier.points self))
                None).
Proof.
  intros self.
  apply (PointTier_write_read self (PointTier_init (Some "copy") (float_of_Z 0) None)
           5 (mkfloat 3 0)).
  reflexivity.
Defined.

(* ------------------------------------------------------------------ *)
(** ** [MLF.read] *)

Lemma lines_from_line (h : string) :
  has_newline h = false ->
  forall cur rest,
    lines_from cur (h ++ NL ++ rest) = (cur ++ h ++ NL)%string :: lines_from "" rest.
Proof.
  induction h as [| c h IH]; intros H cur rest.
  - reflexivity.
  - cbn [has_newline] in H. apply orb_false_iff in H as [H1 H2].
    apply orb_false_iff in H1 as [H0 H1]. unfold LF in H0. unfold CR in H1.
    change ((String c h ++ NL ++ rest)%string) with (String c (h ++ NL ++ rest)).
    cbn [lines_from]. rewrite H0, H1, IH by exact H2.
    now rewrite append_assoc.
Qed.

Lemma lines_from_app_bounded (n : nat) :
  forall s, (String.length s <= n)%nat ->
  forall cur t,
    lines_from cur (s ++ NL ++ t) = lines_from cur (s ++ NL) ++ lines_from "" t.
Proof.
  induction n as [| n IH]; intros s Hl cur t.
  - destruct s; [reflexivity | simpl in Hl; lia].
  - destruct s as [| c s]; [reflexivity |].
    cbn [String.length] in Hl.
    change ((String c s ++ NL ++ t)%string) with (String c (s ++ NL ++ t)).
    change ((String c s ++ NL)%string) with (String c (s ++ NL)).
    cbn [lines_from]. destruct (Ascii.eqb c (ascii_of_nat 10)).
    { cbn [app]. f_equal. apply IH. lia. }
    destruct (Ascii.eqb c (ascii_of_nat 13)); [| apply IH; lia].
    cbn [app]. f_equal.
    destruct s as [| c' s']; [reflexivity |].
    cbn [String.length] in Hl.
    change ((String c' s' ++ NL ++ t)%string) with (String c' (s' ++ NL ++ t)).
    change ((String c' s' ++ NL)%string) with (String c' (s' ++ NL)).
    destruct (Ascii.eqb c' (ascii_of_nat 10)) eqn:E; cbv beta iota; rewrite ?E.
    + apply IH. lia.
    + change (String c' (s' ++ NL ++ t)) with ((String c' s' ++ NL ++ t)%string).
      change (String c' (s' ++ NL)) with ((String c' s' ++ NL)%string).
      apply IH. cbn [String.length]. lia.
Qed.

Lemma lines_from_app (s : string) :
  forall cur t,
    lines_from cur (s ++ NL ++ t) = lines_from cur (s ++ NL) ++ lines_from "" t.
Proof. exact (lines_from_app_bounded (String.length s) s (Nat.le_refl _)). Qed.

(** X25. [MLF.read] drops the first line unread: two texts that differ in
    their first line only are read to the same result.  And reading stops
    at the first line that, outside an utterance, is not a quoted name:
    when the line after the header is none, nothing is returned, whatever
    follows it.  The lines are those of the file in text mode: the first
    line is the text before the first newline, line feed or carriage
    return. *)
Theorem MLF_header_and_stray_line
    (h h' l rest : string) (samplerate : float) (round_digits : nat) :
  has_newline h = false -> has_newline h' = false -> has_newline l = false ->
  re_quoted_name (rstrip (l ++ NL)) = None ->
  MLF_read (h ++ NL ++ rest) samplerate round_digits
  = MLF_read (h' ++ NL ++ rest) samplerate round_digits
  /\ MLF_read (h ++ NL ++ l ++ NL ++ rest) samplerate round_digits = ret [].
Proof.
  intros H H' L Q. unfold MLF_read, readlines.
  rewrite !lines_from_line by assumption. split; [reflexivity |].
  cbn [read_lines read_line]. cbn [append]. rewrite Q. reflexivity.
Qed.

Lemma MLF_header_and_stray_line_witness :
  let rest := (DQ ++ "*/cat.lab" ++ DQ ++ NL ++ record4 "0" "500000" "k" "cat")%string in
  MLF_read ("#!MLF!#" ++ NL ++ rest) (float_of_Z 10000000) 5
  = MLF_read ("" ++ NL ++ rest) (float_of_Z 10000000) 5
  /\ MLF_read ("#!MLF!#" ++ NL ++ "" ++ NL ++ rest) (float_of_Z 10000000) 5 = ret [].
Proof.
  intros rest.
  apply (MLF_header_and_stray_line "#!MLF!#" "" "" rest (float_of_Z 10000000) 5);
    reflexivity.
Defined.

Lemma split_from_field (F r : string) :
  plain F = true ->
  forall w, split_from (Some w) (F ++ " " ++ r) = (w ++ F)%string :: split_from None r.
Proof.
  induction F as [| c F IH]; intros P w.
  - now rewrite append_nil_r.
  - cbn [plain] in P. apply andb_true_iff in P as [P1 P2].
    apply andb_true_iff in P1 as [P1 _]. apply negb_true_iff in P1.
    change ((String c F ++ " " ++ r)%string) with (String c (F ++ " " ++ r)).
    cbn [split_from]. rewrite P1, IH by assumption.
    now rewrite append_assoc.
Qed.

Lemma split_field (F r : string) :
  plain F = true -> F <> ""%string ->
  split (F ++ " " ++ r) = F :: split r.
Proof.
  intros P N. destruct F as [| c F]; [congruence |].
  cbn [plain] in P. apply andb_true_iff in P as [P1 P2].
  apply andb_true_iff in P1 as [P1 _]. apply negb_true_iff in P1.
  unfold split.
  change ((String c F ++ " " ++ r)%string) with (String c (F ++ " " ++ r)).
  cbn [split_from]. rewrite P1. now rewrite split_from_field.
Qed.

Lemma split_last_field (F : string) :
  plain F = true -> F <> ""%string -> split F = [F].
Proof.
  intros P N. destruct F as [| c F]; [congruence |].
  cbn [plain] in P. apply andb_true_iff in P as [P1 P2].
  apply andb_true_iff in P1 as [P1 _]. apply negb_true_iff in P1.
  unfold split. cbn [split_from]. rewrite P1. now rewrite split_from_plain.
Qed.

Lemma rstrip_ends_plain (s F : string) :
  plain F = true -> F <> ""%string -> rstrip (s ++ F ++ NL) = (s ++ F)%string.
Proof.
  intros P N. rewrite <- !append_assoc, rstrip_NL.
  destruct F as [| c F]; [congruence |].
  apply rstrip_concat. now apply rstrip_plain.
Qed.

Lemma split_record3 (f0 f1 f2 : string) :
  plain f0 = true -> f0 <> ""%string -> plain f1 = true -> f1 <> ""%string ->
  plain f2 = true -> f2 <> ""%string ->
  split (rstrip (record3 f0 f1 f2)) = [f0; f1; f2].
Proof.
  intros P0 N0 P1 N1 P2 N2. unfold record3.
  replace (f0 ++ " " ++ f1 ++ " " ++ f2 ++ NL)%string
    with ((f0 ++ " " ++ f1 ++ " ") ++ f2 ++ NL)%string by now rewrite !append_assoc.
  rewrite rstrip_ends_plain by assumption. rewrite !append_assoc.
  now rewrite !split_field, split_last_field by assumption.
Qed.

Lemma split_record4 (f0 f1 f2 f3 : string) :
  plain f0 = true -> f0 <> ""%string -> plain f1 = true -> f1 <> ""%string ->
  plain f2 = true -> f2 <> ""%string -> plain f3 = true -> f3 <> ""%string ->
  split (rstrip (record4 f0 f1 f2 f3)) = [f0; f1; f2; f3].
Proof.
  intros P0 N0 P1 N1 P2 N2 P3 N3. unfold record4.
  replace (f0 ++ " " ++ f1 ++ " " ++ f2 ++ " " ++ f3 ++ NL)%string
    with ((f0 ++ " " ++ f1 ++ " " ++ f2 ++ " ") ++ f3 ++ NL)%string
    by now rewrite !append_assoc.
  rewrite rstrip_ends_plain by assumption. rewrite !append_assoc.
  now rewrite !split_field, split_last_field by assumption.
Qed.

Lemma format_int_plain (n : nat) : plain (format_int n) = true.
Proof. apply all_digits_plain, format_N_digits. Qed.

Lemma format_int_nonempty (n : nat) : format_int n <> ""%string.
Proof.
  unfold format_int. destruct (format_N_nonempty (N.of_nat n)) as (c & s & ->).
  discriminate.
Qed.

Lemma sample_time_format_int (n : nat) (samplerate : float) (round_digits : nat) :
  ~ Qof samplerate == 0 ->
  sample_time (format_int n) samplerate round_digits
  = ret (round (Qof (mkfloat (Z.of_nat n) 0) / samplerate) round_digits).
Proof.
  intros H. unfold sample_time, float_, format_int.
  rewrite float_of_string_format_N, bind_ret_l, nat_N_Z.
  replace (eqb samplerate 0) with false by (symmetry; props; exact H).
  now rewrite raise_if_false, bind_ret_l.
Qed.

(** X26. A record of an utterance whose start and end are the same sample
    count has no duration.  With a word label (four fields) [read] raises
    [ValueError] for it; without one (three fields) the record adds no
    phone and starts no word, whatever its label is, the short pause too:
    only the end of the pending word moves to its time. *)
Theorem null_duration_record
    (samplerate : float) (round_digits : nat) (grids : list TextGrid.t)
    (u : utterance) (n : nat) (label wordLabel : string) :
  ~ Qof samplerate == 0 ->
  plain label = true -> label <> ""%string ->
  plain wordLabel = true -> wordLabel <> ""%string ->
  read_line samplerate round_digits grids (IN_UTTERANCE u)
    (record4 (format_int n) (format_int n) label wordLabel)
  = raise (ValueError [AStr "null duration interval"])
  /\ read_line samplerate round_digits grids (IN_UTTERANCE u)
       (record3 (format_int n) (format_int n) label)
     = ret (Continue grids
              (IN_UTTERANCE
                 (mk_utterance (grid u) (phon u) (word u) (wmrk u) (wsrt u)
                    (round (Qof (mkfloat (Z.of_nat n) 0) / samplerate) round_digits)))).
Proof.
  intros Hs Pl Nl Pw Nw.
  pose proof (format_int_plain n) as Pn. pose proof (format_int_nonempty n) as Nn.
  assert (Q : eqb (round (Qof (mkfloat (Z.of_nat n) 0) / samplerate) round_digits)
                  (round (Qof (mkfloat (Z.of_nat n) 0) / samplerate) round_digits) = true)
    by (props; reflexivity).
  split.
  - cbn [read_line]. rewrite split_record4 by assumption.
    rewrite !sample_time_format_int, !bind_ret_l by exact Hs.
    now rewrite Q.
  - cbn [read_line]. rewrite split_record3 by assumption.
    rewrite !sample_time_format_int, !bind_ret_l by exact Hs.
    now rewrite Q, andb_false_r.
Qed.

Lemma null_duration_record_witness :
  read_line (float_of_Z 10000000) 5 [] (IN_UTTERANCE cat_pending)
    (record4 (format_int 18) (format_int 18) "sp" "dog")
  = raise (ValueError [AStr "null duration interval"])
  /\ read_line (float_of_Z 10000000) 5 [] (IN_UTTERANCE cat_pending)
       (record3 (format_int 18) (format_int 18) "sp")
     = ret (Continue []
              (IN_UTTERANCE
                 (mk_utterance (grid cat_pending) (phon cat_pending) (word cat_pending)
                    (wmrk cat_pending) (wsrt cat_pending)
                    (round (Qof (mkfloat (Z.of_nat 18) 0) / float_of_Z 10000000) 5)))).
Proof.
  apply (null_duration_record (float_of_Z 10000000) 5 [] cat_pending 18 "sp" "dog").
  - vm_compute. discriminate.
  - reflexivity.
  - discriminate.
  - reflexivity.
  - discriminate.
Defined.

Lemma read_lines_period (samplerate : float) (round_digits : nat) (lines : list string) :
  forall (grids : list TextGrid.t) (st : state),
    read_lines samplerate round_digits grids st (lines ++ ["." ++ NL]%string)
    = read_lines samplerate round_digits grids st lines.
Proof.
  induction lines as [| line lines IH]; intros grids st.
  - cbn [app read_lines]. destruct st as [| u].
    + reflexivity.
    + rewrite read_line_other_fields by (vm_compute; discriminate).
      rewrite bind_assoc. cbn [read_eof].
      rewrite <- (bind_ret_r (end_utterance grids u)) at 2.
      apply bind_ext. intros g. now rewrite bind_ret_l.
  - cbn [app read_lines]. apply bind_ext. intros [g s | g]; [apply IH | reflexivity].
Qed.

(** X27. The line that ends the last utterance may be missing: the end of
    the text ends an open utterance as a period does, so a text whose last
    line is a period is read as the text without that line. *)
Theorem MLF_final_period_optional
    (s : string) (samplerate : float) (round_digits : nat) :
  MLF_read (s ++ NL ++ "." ++ NL) samplerate round_digits
  = MLF_read (s ++ NL) samplerate round_digits.
Proof.
  unfold MLF_read, readlines. rewrite lines_from_app.
  change (lines_from "" ("." ++ NL)) with ["." ++ NL]%string.
  destruct (lines_from "" (s ++ NL)) as [| header lines] eqn:E.
  - exfalso. clear -E. revert E. generalize ""%string.
    induction s as [| c s IH]; intros cur E.
    + discriminate.
    + change ((String c s ++ NL)%string) with (String c (s ++ NL)) in E.
      cbn [lines_from] in E. destruct (Ascii.eqb c (ascii_of_nat 10)); [discriminate |].
      destruct (Ascii.eqb c (ascii_of_nat 13)); [discriminate |].
      exact (IH _ E).
  - cbn [app]. apply read_lines_period.
Qed.
